(** * Mixamo-MMD: the FBX animation extractor, the retargeter and the VMD writer

    A shallow embedding of [src/lib/fbx.ts], [src/lib/retarget.ts] and the VMD
    writer ([convertToVMD], [writeBoneFrame]) together with the properties of
    the conversion pipeline that the specification states.

    Conventions of the embedding.
    - A JavaScript [number] that carries a time, an angle or a coordinate is a
      real number ([R]): arithmetic is exact and every value is finite.  Where
      the code branches on finiteness ([writeBoneFrame]) the component type is
      left open, so that non-finite values can be supplied.
    - Arrays are lists; [Set<number>] and [Map<K, V>] are insertion-ordered
      lists without duplicate keys, as the JavaScript containers are.
    - An exception ([TypeError], [RangeError]) is a [Throw] of the [js] monad;
      [undefined] read from an array is [None].
    - Loops become structural recursions; the one loop whose bound is not a
      list ([for (t = step; t < 1; t += step)]) carries a fuel that is shown
      to be sufficient. *)

From Stdlib Require Import String Ascii.
From Stdlib Require Import Reals Lra Lia ZArith List Bool Permutation.
Import ListNotations.
Local Open Scope R_scope.

(* ================================================================== *)
(** * Part I: definitions *)
(* ================================================================== *)

(** ** The JavaScript runtime the sources rely on *)

Module JS.

Definition ltb (a b : R) : bool := if Rlt_dec a b then true else false.
Definition leb (a b : R) : bool := if Rle_dec a b then true else false.
Definition gtb (a b : R) : bool := ltb b a.
Definition geb (a b : R) : bool := leb b a.
Definition eqb (a b : R) : bool := if Req_dec_T a b then true else false.

(** [Math.round]: the nearest integer, a tie going towards +infinity. *)
Definition Math_round (x : R) : Z := Int_part (x + / 2).

(** [Math.ceil]. *)
Definition Math_ceil (x : R) : Z := (- Int_part (- x))%Z.

Definition Math_abs (x : R) : R := Rabs x.

Definition Math_sign (x : R) : R :=
  if ltb 0 x then 1 else if ltb x 0 then -1 else 0.

Definition Math_max3 (a b c : R) : R := Rmax (Rmax a b) c.

(** [Math.atan2 (y, x)], by quadrant.  A real zero has no sign: the value
    for [y] = 0 and [x] < 0 is that of +0, which is PI. *)
Definition Math_atan2 (y x : R) : R :=
  if ltb 0 x then atan (y / x)
  else if ltb x 0 then (if leb 0 y then atan (y / x) + PI else atan (y / x) - PI)
  else if ltb 0 y then PI / 2
  else if ltb y 0 then - (PI / 2)
  else 0.

(** [isNaN]: no real number is NaN. *)
Definition isNaN (x : R) : bool := false.

(** [Set.prototype.add] on a [Set<number>], kept in insertion order. *)
Definition Set_add (s : list R) (x : R) : list R :=
  if in_dec Req_dec_T x s then s else s ++ [x].

(** [xs.forEach(t => s.add(f t))]. *)
Definition Set_addEach (f : R -> R) (xs : list R) (s : list R) : list R :=
  fold_left (fun acc t => Set_add acc (f t)) xs s.

(** [Array.prototype.sort (cmp)]: the sort is stable; it is embedded as the
    stable insertion sort, [lt x y] standing for [cmp (x, y) < 0]. *)
Fixpoint insert_sorted {A : Type} (lt : A -> A -> bool) (x : A) (l : list A) : list A :=
  match l with
  | [] => [x]
  | y :: l' => if lt x y then x :: l else y :: insert_sorted lt x l'
  end.

Definition Array_sort {A : Type} (lt : A -> A -> bool) (l : list A) : list A :=
  fold_left (fun acc x => insert_sorted lt x acc) l [].

(** [Array.from (s).sort ((a, b) => a - b)]. *)
Definition sort_numbers (s : list R) : list R :=
  Array_sort (fun a b => ltb (a - b) 0) s.

(** [xs.findIndex (p)], [None] standing for [-1]. *)
Fixpoint findIndex {A : Type} (p : A -> bool) (xs : list A) : option nat :=
  match xs with
  | [] => None
  | x :: xs' => if p x then Some O else option_map S (findIndex p xs')
  end.

(** [xs[xs.length - 1]]. *)
Definition lastOf {A : Type} (xs : list A) : option A :=
  nth_error xs (length xs - 1).

(** Exceptions. *)
Inductive error : Type := TypeError | RangeError | Error.

Inductive js (A : Type) : Type :=
| Ret (a : A)
| Throw (e : error).
Arguments Ret {A} _.
Arguments Throw {A} _.

Definition bind {A B : Type} (m : js A) (k : A -> js B) : js B :=
  match m with
  | Ret a => k a
  | Throw e => Throw e
  end.

(** Reading a property of [undefined] throws. *)
Definition defined {A : Type} (o : option A) : js A :=
  match o with
  | Some a => Ret a
  | None => Throw TypeError
  end.

Fixpoint mapM {A B : Type} (f : A -> js B) (xs : list A) : js (list B) :=
  match xs with
  | [] => Ret []
  | x :: xs' => bind (f x) (fun y => bind (mapM f xs') (fun ys => Ret (y :: ys)))
  end.

(** A [Map<K, V>] in insertion order: [set] on a present key replaces the
    value where it stands, on an absent key appends. *)
Section MapOps.
Context {K V : Type} (keq : K -> K -> bool).

Fixpoint Map_get (m : list (K * V)) (k : K) : option V :=
  match m with
  | [] => None
  | (k', v) :: m' => if keq k' k then Some v else Map_get m' k
  end.

Fixpoint Map_set (m : list (K * V)) (k : K) (v : V) : list (K * V) :=
  match m with
  | [] => [(k, v)]
  | (k', v') :: m' => if keq k' k then (k', v) :: m' else (k', v') :: Map_set m' k v
  end.

Definition Map_values (m : list (K * V)) : list V := map snd m.
End MapOps.

(** The names every plain object inherits from [Object.prototype]: a lookup
    of one of them on an object literal yields a function (or the prototype
    itself), which is truthy and not [undefined]. *)
Definition Object_prototype_keys : list string :=
  [ "constructor"; "__defineGetter__"; "__defineSetter__"; "hasOwnProperty";
    "__lookupGetter__"; "__lookupSetter__"; "isPrototypeOf";
    "propertyIsEnumerable"; "toString"; "valueOf"; "__proto__";
    "toLocaleString" ]%string.

(** The value of [obj[key]] for an object literal used as a record. *)
Inductive property (A : Type) : Type :=
| Own (a : A)
| Inherited
| Undefined.
Arguments Own {A} _.
Arguments Inherited {A}.
Arguments Undefined {A}.

Definition Object_get {A : Type} (obj : list (string * A)) (key : string) : property A :=
  match Map_get String.eqb obj key with
  | Some a => Own a
  | None =>
      if existsb (String.eqb key) Object_prototype_keys then Inherited else Undefined
  end.

End JS.

Declare Scope js_scope.
Delimit Scope js_scope with js.
Notation "x <- m ;; k" := (JS.bind m (fun x => k))
  (at level 61, m at next level, right associativity) : js_scope.
Notation "' p <- m ;; k" := (JS.bind m (fun p => k))
  (at level 61, p pattern, m at next level, right associativity) : js_scope.

(** ** Quaternions and vectors ([Quat] and [Vec3] of the engine package) *)

Module Quat.

(** The four components; [t] is the quaternion of the engine, over numbers. *)
Record quat (A : Type) : Type := new { x : A; y : A; z : A; w : A }.
Arguments new {A} _ _ _ _.
Arguments x {A} _.
Arguments y {A} _.
Arguments z {A} _.
Arguments w {A} _.

Definition t : Type := quat R.

Definition identity : t := new 0 0 0 1.

Definition dot (a b : t) : R :=
  x a * x b + y a * y b + z a * z b + w a * w b.

Definition neg (q : t) : t := new (- x q) (- y q) (- z q) (- w q).

(** Modelled from the spec: [Quat.multiply] belongs to the engine package and
    is not part of the sources; the specification composes rotations with the
    quaternion product [q_l · q_source · q_r], which is the Hamilton product
    with the receiver on the left. *)
Definition multiply (a b : t) : t :=
  new (w a * x b + x a * w b + y a * z b - z a * y b)
      (w a * y b - x a * z b + y a * w b + z a * x b)
      (w a * z b + x a * y b - y a * x b + z a * w b)
      (w a * w b - x a * x b - y a * y b - z a * z b).

(** Modelled from the spec: [Quat.conjugate] ([q_a⁻¹] of a unit quaternion). *)
Definition conjugate (q : t) : t := new (- x q) (- y q) (- z q) (w q).

(** [clone] copies the four components. *)
Definition clone (q : t) : t := new (x q) (y q) (z q) (w q).

(** Modelled from the spec: [Quat.fromAxisAngle] about a unit axis,
    [(sin(θ/2)·axis, cos(θ/2))]. *)
Definition fromAxisAngle (ax ay az : R) (angle : R) : t :=
  new (ax * sin (angle / 2)) (ay * sin (angle / 2)) (az * sin (angle / 2))
      (cos (angle / 2)).

End Quat.

Module Vec3.

Record vec3 (A : Type) : Type := new { x : A; y : A; z : A }.
Arguments new {A} _ _ _.
Arguments x {A} _.
Arguments y {A} _.
Arguments z {A} _.

Definition t : Type := vec3 R.

End Vec3.

(** ** [src/lib/fbx.ts]: the rotation assembler *)

Module Fbx.

Import JS.

(** A curve of one axis: [{ times, values }]. *)
Record Curve : Type := mkCurve { times : list R; values : list R }.

Definition convertFBXTimeToSeconds (time : R) : R := time / 46186158000.

Definition degToRad (degrees : R) : R := degrees * PI / 180.

Definition eulerToQuaternionZXY (z x y : R) : Quat.t :=
  let cz := cos (z / 2) in
  let cx := cos (x / 2) in
  let cy := cos (y / 2) in
  let sz := sin (z / 2) in
  let sx := sin (x / 2) in
  let sy := sin (y / 2) in
  Quat.new (sx * cy * cz - cx * sy * sz)
           (cx * sy * cz + sx * cy * sz)
           (cx * cy * sz - sx * sy * cz)
           (cx * cy * cz + sx * sy * sz).

Definition eulerToQuaternionByOrder (x y z : R) (_order : string) : Quat.t :=
  if negb (String.eqb _order "ZXY") then Quat.new 0 0 0 1
  else eulerToQuaternionZXY z x y.

Definition slerp (q1 q2 : Quat.t) (t : R) : Quat.t :=
  let dot := Quat.x q1 * Quat.x q2 + Quat.y q1 * Quat.y q2
             + Quat.z q1 * Quat.z q2 + Quat.w q1 * Quat.w q2 in
  let q2x := if ltb dot 0 then - Quat.x q2 else Quat.x q2 in
  let q2y := if ltb dot 0 then - Quat.y q2 else Quat.y q2 in
  let q2z := if ltb dot 0 then - Quat.z q2 else Quat.z q2 in
  let q2w := if ltb dot 0 then - Quat.w q2 else Quat.w q2 in
  if gtb (Math_abs dot) 0.9995 then
    let result := Quat.new (Quat.x q1 + (q2x - Quat.x q1) * t)
                           (Quat.y q1 + (q2y - Quat.y q1) * t)
                           (Quat.z q1 + (q2z - Quat.z q1) * t)
                           (Quat.w q1 + (q2w - Quat.w q1) * t) in
    let len := sqrt (Quat.x result * Quat.x result + Quat.y result * Quat.y result
                     + Quat.z result * Quat.z result + Quat.w result * Quat.w result) in
    if gtb len 0 then
      Quat.new (Quat.x result / len) (Quat.y result / len)
               (Quat.z result / len) (Quat.w result / len)
    else result
  else
    let theta := acos (Math_abs dot) in
    let sinTheta := sin theta in
    let w1 := sin ((1 - t) * theta) / sinTheta in
    let w2 := sin (t * theta) / sinTheta in
    Quat.new (w1 * Quat.x q1 + w2 * q2x)
             (w1 * Quat.y q1 + w2 * q2y)
             (w1 * Quat.z q1 + w2 * q2z)
             (w1 * Quat.w q1 + w2 * q2w).

Definition quaternionToEuler (q : Quat.t) : Vec3.t :=
  let qx := Quat.x q in
  let qy := Quat.y q in
  let qz := Quat.z q in
  let qw := Quat.w q in
  let sinX := 2 * (qy * qz + qw * qx) in
  if geb (Math_abs sinX) 0.9999 then
    Vec3.new (Math_sign sinX * PI / 2)
             (Math_atan2 (2 * (qx * qy + qw * qz)) (1 - 2 * (qy * qy + qz * qz)))
             0
  else
    Vec3.new (asin sinX)
             (Math_atan2 (- (2 * (qx * qz - qw * qy))) (1 - 2 * (qx * qx + qy * qy)))
             (Math_atan2 (- (2 * (qx * qy - qw * qz))) (1 - 2 * (qx * qx + qz * qz))).

(** The scan of [interpolateValue] for the surrounding keyframes. *)
Fixpoint interpolateValue_scan (times values : list R) (targetTime : R) : option R :=
  match times, values with
  | t0 :: ((t1 :: _) as times'), v0 :: ((v1 :: _) as values') =>
      if geb targetTime t0 && leb targetTime t1 then
        let t := (targetTime - t0) / (t1 - t0) in
        Some (v0 + (v1 - v0) * t)
      else interpolateValue_scan times' values' targetTime
  | _, _ => None
  end.

Definition interpolateValue (times values : list R) (targetTime : R) : R :=
  match times, values with
  | [], _ | _, [] => 0
  | t0 :: _, v0 :: _ =>
      if negb (Nat.eqb (length times) (length values)) then 0
      else if leb targetTime t0 then v0
      else if geb targetTime (last times 0) then last values 0
      else match interpolateValue_scan times values targetTime with
           | Some v => v
           | None => last values 0
           end
  end.

Definition roundTime (t : R) : R := IZR (Math_round (t * 1000000)) / 1000000.

(** The two output arrays of [interpolateRotations], [values] being flat
    (three numbers per key). *)
Definition Frames : Type := (list R * list R)%type.

Definition push_frame (out : Frames) (time : R) (e : R * R * R) : Frames :=
  let '(ex, ey, ez) := e in
  (fst out ++ [time], snd out ++ [ex; ey; ez]).

(** [for (let t = step; t < 1; t += step)]: the intermediate frames of one
    subdivided segment.  The counter is an exact real, so the loop makes
    [numSubIntervals - 1] turns; the binary64 sum of the code can still be
    below 1 after them (for 6, 7 or 10 sub-intervals, among others), and the
    code then pushes one more frame next to the end key. *)
Fixpoint slerp_frames (fuel : nat) (Q1 Q2 : Quat.t) (initialTime timeSpan step : R)
    (t : R) (out : Frames) : Frames :=
  match fuel with
  | O => out
  | S fuel' =>
      if ltb t 1 then
        let Q := slerp Q1 Q2 t in
        let E := quaternionToEuler Q in
        slerp_frames fuel' Q1 Q2 initialTime timeSpan step (t + step)
          (push_frame out (initialTime + t * timeSpan) (Vec3.x E, Vec3.y E, Vec3.z E))
      else out
  end.

Definition Key : Type := (R * (R * R * R))%type.

(** One turn of the loop over the merged keys, from [initial] (key [i - 1])
    to [current] (key [i]). *)
Definition rotation_step (eulerOrder : string) (initial current : Key) (out : Frames) : Frames :=
  let '(initialTime, (ix, iy, iz)) := initial in
  let '(currentTime, (cx, cy, cz)) := current in
  if isNaN ix || isNaN iy || isNaN iz || isNaN cx || isNaN cy || isNaN cz then out
  else
    let absoluteSpan0 := Math_abs (cx - ix) in
    let absoluteSpan1 := Math_abs (cy - iy) in
    let absoluteSpan2 := Math_abs (cz - iz) in
    if geb absoluteSpan0 180 || geb absoluteSpan1 180 || geb absoluteSpan2 180 then
      let maxAbsSpan := Math_max3 absoluteSpan0 absoluteSpan1 absoluteSpan2 in
      let numSubIntervals := Math_ceil (maxAbsSpan / 180) in
      let E1 := eulerToQuaternionByOrder (degToRad ix) (degToRad iy) (degToRad iz) eulerOrder in
      let E2 := eulerToQuaternionByOrder (degToRad cx) (degToRad cy) (degToRad cz) eulerOrder in
      let Q1 := Quat.new (Quat.x E1) (Quat.y E1) (Quat.z E1) (Quat.w E1) in
      let Q2 := Quat.new (Quat.x E2) (Quat.y E2) (Quat.z E2) (Quat.w E2) in
      let Q2 := if ltb (Quat.x Q1 * Quat.x Q2 + Quat.y Q1 * Quat.y Q2
                        + Quat.z Q1 * Quat.z Q2 + Quat.w Q1 * Quat.w Q2) 0
                then Quat.new (- Quat.x Q2) (- Quat.y Q2) (- Quat.z Q2) (- Quat.w Q2)
                else Q2 in
      let timeSpan := currentTime - initialTime in
      let step := 1 / IZR numSubIntervals in
      let out := slerp_frames (Z.to_nat numSubIntervals) Q1 Q2 initialTime timeSpan step step out in
      push_frame out currentTime (degToRad cx, degToRad cy, degToRad cz)
    else
      push_frame out currentTime (degToRad cx, degToRad cy, degToRad cz).

Fixpoint rotation_loop (eulerOrder : string) (initial : Key) (rest : list Key)
    (out : Frames) : Frames :=
  match rest with
  | [] => out
  | current :: rest' =>
      rotation_loop eulerOrder current rest' (rotation_step eulerOrder initial current out)
  end.

Definition interpolateRotations (curvex curvey curvez : Curve) (eulerOrder : string) : Frames :=
  let allTimes := Set_addEach roundTime (times curvez)
                    (Set_addEach roundTime (times curvey)
                       (Set_addEach roundTime (times curvex) [])) in
  let mergedTimes := sort_numbers allTimes in
  let interpolatedValues : list Key :=
    map (fun time =>
           (time, (interpolateValue (times curvex) (values curvex) time,
                   interpolateValue (times curvey) (values curvey) time,
                   interpolateValue (times curvez) (values curvez) time)))
        mergedTimes in
  match interpolatedValues with
  | [] => ([], [])
  | (t0, (x0, y0, z0)) as first :: rest =>
      rotation_loop eulerOrder first rest
        (push_frame ([], []) t0 (degToRad x0, degToRad y0, degToRad z0))
  end.

(** The loop of [generateQuaternions] over the flat [values], [i] advancing
    by three.  [None] is the [TypeError] of reading [prevQuat.x] when [quats]
    is empty. *)
Fixpoint quaternion_loop (eulerOrder : string) (vals : list R) (i : nat)
    (quats : list Quat.t) : option (list Quat.t) :=
  match vals with
  | xRad :: yRad :: zRad :: vals' =>
      let quat := eulerToQuaternionByOrder xRad yRad zRad eulerOrder in
      let resultQuat := Quat.new (Quat.x quat) (Quat.y quat) (Quat.z quat) (Quat.w quat) in
      let unrolled :=
        if Nat.ltb 0 i then
          match lastOf quats with
          | None => None
          | Some prevQuat =>
              let dot := Quat.x prevQuat * Quat.x resultQuat + Quat.y prevQuat * Quat.y resultQuat
                         + Quat.z prevQuat * Quat.z resultQuat + Quat.w prevQuat * Quat.w resultQuat in
              Some (if ltb dot 0
                    then Quat.new (- Quat.x resultQuat) (- Quat.y resultQuat)
                                  (- Quat.z resultQuat) (- Quat.w resultQuat)
                    else resultQuat)
          end
        else Some resultQuat in
      match unrolled with
      | None => None
      | Some q => quaternion_loop eulerOrder vals' (i + 3) (quats ++ [q])
      end
  | _ => Some quats
  end.

(** The result of [generateQuaternions]: [{ times, quats }]. *)
Record QuatTrack : Type := mkQuatTrack { track_times : list R; track_quats : list Quat.t }.

Definition generateQuaternions (x y z : Curve) (eulerOrder : string) : option QuatTrack :=
  let interpolated := interpolateRotations x y z eulerOrder in
  let times := fst interpolated in
  let values := snd interpolated in
  if negb (Nat.eqb (Nat.modulo (length values) 3) 0) then Some (mkQuatTrack [] [])
  else if negb (Nat.eqb (length times * 3) (length values)) then Some (mkQuatTrack [] [])
  else option_map (mkQuatTrack times) (quaternion_loop eulerOrder values 0 []).

(** The invariant of a rotation track: every quaternion has a non-negative
    dot product with the one before it. *)
Fixpoint unrolled (qs : list Quat.t) : Prop :=
  match qs with
  | q :: ((q' :: _) as rest) => 0 <= Quat.dot q q' /\ unrolled rest
  | _ => True
  end.

End Fbx.

(** ** [src/lib/fbx.ts]: the binary reader, string properties *)

Module FbxBinary.

Import JS.
Local Open Scope Z_scope.
Local Open Scope js_scope.

(** A JavaScript string: its UTF-16 code units. *)
Definition jsstring : Type := list Z.

(** The UTF-8 decoder of [TextDecoder] (the platform's, after the WHATWG
    Encoding standard): a pending multi-byte sequence keeps the code point
    read so far, the continuation bytes still needed and the range the next
    byte must lie in. *)
Record Pending : Type :=
  mkPending { code_point : Z; bytes_needed : nat; lower : Z; upper : Z }.

Definition utf8_lead (b : Z) : list Z * option Pending :=
  if b <=? 0x7F then ([b], None)
  else if (0xC2 <=? b) && (b <=? 0xDF) then
    ([], Some (mkPending (Z.land b 0x1F) 1 0x80 0xBF))
  else if (0xE0 <=? b) && (b <=? 0xEF) then
    ([], Some (mkPending (Z.land b 0xF) 2
                 (if b =? 0xE0 then 0xA0 else 0x80) (if b =? 0xED then 0x9F else 0xBF)))
  else if (0xF0 <=? b) && (b <=? 0xF4) then
    ([], Some (mkPending (Z.land b 0x7) 3
                 (if b =? 0xF0 then 0x90 else 0x80) (if b =? 0xF4 then 0x8F else 0xBF)))
  else ([0xFFFD], None).

Fixpoint utf8_decode (st : option Pending) (bytes : list Z) : list Z :=
  match bytes with
  | [] => match st with None => [] | Some _ => [0xFFFD] end
  | b :: rest =>
      match st with
      | None => fst (utf8_lead b) ++ utf8_decode (snd (utf8_lead b)) rest
      | Some p =>
          if (lower p <=? b) && (b <=? upper p) then
            let cp := Z.lor (Z.shiftl (code_point p) 6) (Z.land b 0x3F) in
            match bytes_needed p with
            | S (S n) => utf8_decode (Some (mkPending cp (S n) 0x80 0xBF)) rest
            | _ => cp :: utf8_decode None rest
            end
          else 0xFFFD :: fst (utf8_lead b) ++ utf8_decode (snd (utf8_lead b)) rest
      end
  end.

(** A code point as UTF-16 code units. *)
Definition utf16 (cp : Z) : list Z :=
  if cp <? 0x10000 then [cp]
  else [0xD800 + Z.shiftr (cp - 0x10000) 10; 0xDC00 + Z.land (cp - 0x10000) 0x3FF].

(** [new TextDecoder().decode(bytes)]: UTF-8, a leading byte order mark
    dropped. *)
Definition TextDecoder_decode (bytes : list Z) : jsstring :=
  match utf8_decode None bytes with
  | 0xFEFF :: cps => flat_map utf16 cps
  | cps => flat_map utf16 cps
  end.

(** [class BinaryReader]. *)
Record BinaryReader : Type := mkReader { binary : list Z; offset : nat }.

(** [Uint8Array.prototype.slice (start, start + len)]. *)
Definition slice (bytes : list Z) (start len : nat) : list Z :=
  firstn len (skipn start bytes).

Definition readUint8 (data : BinaryReader) : option Z * BinaryReader :=
  (nth_error (binary data) (offset data), mkReader (binary data) (offset data + 1)).

Definition readUint8Array (data : BinaryReader) (len : nat) : list Z * BinaryReader :=
  (slice (binary data) (offset data) len, mkReader (binary data) (offset data + len)).

(** [new DataView (buffer, offset, 4).getUint32 (0, true)]: a view past the
    end of the buffer is a [RangeError]. *)
Definition readUint32 (data : BinaryReader) : js (Z * BinaryReader) :=
  match slice (binary data) (offset data) 4 with
  | [b0; b1; b2; b3] =>
      Ret (b0 + 256 * b1 + 65536 * b2 + 16777216 * b3,
           mkReader (binary data) (offset data + 4))
  | _ => Throw RangeError
  end.

(** [bytes.indexOf (0)], the length standing in when there is none. *)
Fixpoint nullIndex (bytes : list Z) : nat :=
  match bytes with
  | [] => O
  | b :: rest => if b =? 0 then O else S (nullIndex rest)
  end.

Definition readArrayAsString (data : BinaryReader) (len : nat) : jsstring * BinaryReader :=
  let '(bytes, data) := readUint8Array data len in
  (TextDecoder_decode (slice bytes 0 (nullIndex bytes)), data).

(** [value.indexOf ('\x00\x01') !== -1]. *)
Fixpoint has_sentinel (s : jsstring) : bool :=
  match s with
  | [] => false
  | c :: rest =>
      match rest with
      | d :: _ => ((c =? 0) && (d =? 1)) || has_sentinel rest
      | [] => false
      end
  end.

(** [value.split ('\x00\x01')]; [cur] holds, reversed, the part being read. *)
Fixpoint split_sentinel (s : jsstring) (cur : list Z) : list jsstring :=
  match s with
  | [] => [rev cur]
  | c :: rest =>
      match rest with
      | d :: rest' =>
          if (c =? 0) && (d =? 1) then rev cur :: split_sentinel rest' []
          else split_sentinel rest (c :: cur)
      | [] => [rev (c :: cur)]
      end
  end.

(** [parts.join ('::')]; 58 is the colon. *)
Fixpoint join_colons (parts : list jsstring) : jsstring :=
  match parts with
  | [] => []
  | [p] => p
  | p :: parts' => p ++ [58; 58] ++ join_colons parts'
  end.

(** The ['S'] case of [readProperty]. *)
Definition readProperty_S (data : BinaryReader) : js (jsstring * BinaryReader) :=
  '(len, data) <- readUint32 data ;;
  let '(value, data) := readArrayAsString data (Z.to_nat len) in
  if has_sentinel value then
    Ret (join_colons (rev (split_sentinel value [])), data)
  else Ret (value, data).

(** The ['R'] case of [readProperty]: the raw bytes. *)
Definition readProperty_R (data : BinaryReader) : js (list Z * BinaryReader) :=
  '(len, data) <- readUint32 data ;;
  Ret (readUint8Array data (Z.to_nat len)).

(** The values of a property that the model decodes. *)
Inductive FBXProperty : Type :=
| PString (s : jsstring)
| PBytes (bytes : list Z).

(** [readProperty], for the type codes ['S'] (83) and ['R'] (82); the
    numeric and array codes are not part of the model and [None] stands for
    them.  A type code read past the end is the code unit 0, which is unknown
    and throws like every unknown code. *)
Definition readProperty (data : BinaryReader) : option (js (FBXProperty * BinaryReader)) :=
  let '(code, data) := readUint8 data in
  let typeCode := match code with Some c => c | None => 0 end in
  if typeCode =? 83 then
    Some ('(value, data) <- readProperty_S data ;; Ret (PString value, data))
  else if typeCode =? 82 then
    Some ('(value, data) <- readProperty_R data ;; Ret (PBytes value, data))
  else if existsb (Z.eqb typeCode) [89; 67; 73; 70; 68; 76; 102; 100; 108; 105; 98] then None
  else Some (Throw Error).

End FbxBinary.

(** ** [src/lib/retarget.ts] *)

Module Retarget.

Import JS.
Local Open Scope string_scope.
Local Open Scope js_scope.

Definition BONE_MAP : list (string * string) :=
  [ ("Hips", "センター"); ("Spine", "腰"); ("Spine1", "上半身"); ("Spine2", "上半身2");
    ("Neck", "首"); ("Head", "頭");
    ("RightShoulder", "右肩"); ("RightArm", "右腕"); ("RightForeArm", "右ひじ");
    ("RightHand", "右手首");
    ("LeftShoulder", "左肩"); ("LeftArm", "左腕"); ("LeftForeArm", "左ひじ");
    ("LeftHand", "左手首");
    ("RightUpLeg", "右足"); ("RightLeg", "右ひざ"); ("RightFoot", "右足首");
    ("RightToeBase", "右足先EX");
    ("LeftUpLeg", "左足"); ("LeftLeg", "左ひざ"); ("LeftFoot", "左足首");
    ("LeftToeBase", "左足先EX");
    ("RightHandThumb1", "右親指１"); ("RightHandThumb2", "右親指２");
    ("RightHandThumb3", "右親指３");
    ("RightHandIndex1", "右人指１"); ("RightHandIndex2", "右人指２");
    ("RightHandIndex3", "右人指３");
    ("RightHandMiddle1", "右中指１"); ("RightHandMiddle2", "右中指２");
    ("RightHandMiddle3", "右中指３");
    ("RightHandRing1", "右薬指１"); ("RightHandRing2", "右薬指２");
    ("RightHandRing3", "右薬指３");
    ("RightHandPinky1", "右小指１"); ("RightHandPinky2", "右小指２");
    ("RightHandPinky3", "右小指３");
    ("LeftHandThumb1", "左親指１"); ("LeftHandThumb2", "左親指２");
    ("LeftHandThumb3", "左親指３");
    ("LeftHandIndex1", "左人指１"); ("LeftHandIndex2", "左人指２");
    ("LeftHandIndex3", "左人指３");
    ("LeftHandMiddle1", "左中指１"); ("LeftHandMiddle2", "左中指２");
    ("LeftHandMiddle3", "左中指３");
    ("LeftHandRing1", "左薬指１"); ("LeftHandRing2", "左薬指２");
    ("LeftHandRing3", "左薬指３");
    ("LeftHandPinky1", "左小指１"); ("LeftHandPinky2", "左小指２");
    ("LeftHandPinky3", "左小指３") ].

Definition Q_RIGHT_SIDE : Quat.t := Quat.new 0.5 (-0.5) 0.5 0.5.
Definition Q_LEFT_SIDE : Quat.t := Quat.new 0.5 0.5 (-0.5) 0.5.
Definition Q_UPLEG : Quat.t := Quat.new 0 0.0039 0.99999 0.
Definition Q_LEG : Quat.t := Quat.new 0 (-0.0342) 0.99942 0.
Definition Q_FOOT : Quat.t := Quat.new 0 0.4291 0.90326 0.
Definition Q_TOE : Quat.t := Quat.new 0 0.7071 0.7071 0.

Definition MIXAMO_MATRIX_LOCAL : list (string * Quat.t) :=
  [ ("Hips", Quat.new 0.0065 0 0 0.99998);
    ("Spine", Quat.new (-0.0737) 0 0 0.9973);
    ("Spine1", Quat.new (-0.0737) 0 0 0.9973);
    ("Spine2", Quat.new (-0.0609) 0 0 0.9981);
    ("Neck", Quat.new (-0.0609) 0 0 0.9981);
    ("Head", Quat.new (-0.0609) 0 0 0.9981);
    ("RightShoulder", Quat.new 0.459 (-0.5379) 0.5599 0.4318);
    ("RightArm", Q_RIGHT_SIDE); ("RightForeArm", Q_RIGHT_SIDE); ("RightHand", Q_RIGHT_SIDE);
    ("LeftShoulder", Quat.new (-0.459) (-0.5379) 0.5599 (-0.4318));
    ("LeftArm", Q_LEFT_SIDE); ("LeftForeArm", Q_LEFT_SIDE); ("LeftHand", Q_LEFT_SIDE);
    ("RightUpLeg", Q_UPLEG); ("RightLeg", Q_LEG); ("RightFoot", Q_FOOT);
    ("RightToeBase", Q_TOE);
    ("LeftUpLeg", Q_UPLEG); ("LeftLeg", Q_LEG); ("LeftFoot", Q_FOOT);
    ("LeftToeBase", Q_TOE);
    ("RightHandThumb1", Q_RIGHT_SIDE); ("RightHandThumb2", Q_RIGHT_SIDE);
    ("RightHandThumb3", Q_RIGHT_SIDE);
    ("RightHandIndex1", Q_RIGHT_SIDE); ("RightHandIndex2", Q_RIGHT_SIDE);
    ("RightHandIndex3", Q_RIGHT_SIDE);
    ("RightHandMiddle1", Q_RIGHT_SIDE); ("RightHandMiddle2", Q_RIGHT_SIDE);
    ("RightHandMiddle3", Q_RIGHT_SIDE);
    ("RightHandRing1", Q_RIGHT_SIDE); ("RightHandRing2", Q_RIGHT_SIDE);
    ("RightHandRing3", Q_RIGHT_SIDE);
    ("RightHandPinky1", Q_RIGHT_SIDE); ("RightHandPinky2", Q_RIGHT_SIDE);
    ("RightHandPinky3", Q_RIGHT_SIDE);
    ("LeftHandThumb1", Q_LEFT_SIDE); ("LeftHandThumb2", Q_LEFT_SIDE);
    ("LeftHandThumb3", Q_LEFT_SIDE);
    ("LeftHandIndex1", Q_LEFT_SIDE); ("LeftHandIndex2", Q_LEFT_SIDE);
    ("LeftHandIndex3", Q_LEFT_SIDE);
    ("LeftHandMiddle1", Q_LEFT_SIDE); ("LeftHandMiddle2", Q_LEFT_SIDE);
    ("LeftHandMiddle3", Q_LEFT_SIDE);
    ("LeftHandRing1", Q_LEFT_SIDE); ("LeftHandRing2", Q_LEFT_SIDE);
    ("LeftHandRing3", Q_LEFT_SIDE);
    ("LeftHandPinky1", Q_LEFT_SIDE); ("LeftHandPinky2", Q_LEFT_SIDE);
    ("LeftHandPinky3", Q_LEFT_SIDE) ].

(** The fingers of one hand, [side] being ["Left"] or ["Right"]. *)
Definition fingers (side : string) : list string :=
  map (fun f => side ++ "Hand" ++ f)
    [ "Thumb1"; "Thumb2"; "Thumb3"; "Index1"; "Index2"; "Index3";
      "Middle1"; "Middle2"; "Middle3"; "Ring1"; "Ring2"; "Ring3";
      "Pinky1"; "Pinky2"; "Pinky3" ].

Definition ROTATE_WAB_L_SET : list string := "LeftArm" :: "LeftForeArm" :: fingers "Left".
Definition ROTATE_WAB_R_SET : list string := "RightArm" :: "RightForeArm" :: fingers "Right".
Definition ROTATE_WBA_L_SET : list string := "LeftForeArm" :: fingers "Left".
Definition ROTATE_WBA_R_SET : list string := "RightForeArm" :: fingers "Right".

(** [set.has (name)]. *)
Definition has (set : list string) (name : string) : bool :=
  existsb (String.eqb name) set.

Definition ARM_ANGLE : R := (35 * PI / 180)%R.
Definition Q_ARM_L : Quat.t := Quat.fromAxisAngle 0 0 1 ARM_ANGLE.
Definition Q_ARM_R : Quat.t := Quat.fromAxisAngle 0 0 1 (- ARM_ANGLE).

Record RetargetTransform : Type := mkTransform { q_l : Quat.t; q_r : Quat.t }.

(** The body of the loop of [computeRetargetTransforms] for one key of
    [BONE_MAP]; [transforms] is the table filled so far. *)
Definition computeRetargetTransform (transforms : list (string * RetargetTransform))
    (mixamoName : string) : js (list (string * RetargetTransform)) :=
  match Object_get MIXAMO_MATRIX_LOCAL mixamoName with
  | Undefined => Ret transforms
  | Inherited => Throw TypeError
  | Own q_a =>
      let q_ai := Quat.conjugate (Quat.clone q_a) in
      let q_r :=
        if has ROTATE_WAB_L_SET mixamoName then Quat.multiply q_ai Q_ARM_L
        else if has ROTATE_WAB_R_SET mixamoName then Quat.multiply q_ai Q_ARM_R
        else q_ai in
      let q_l :=
        if has ROTATE_WBA_L_SET mixamoName then Quat.multiply Q_ARM_R q_a
        else if has ROTATE_WBA_R_SET mixamoName then Quat.multiply Q_ARM_L q_a
        else q_a in
      Ret (Map_set String.eqb transforms mixamoName (mkTransform q_l q_r))
  end.

Fixpoint computeRetargetTransforms_loop (entries : list (string * string))
    (transforms : list (string * RetargetTransform)) : js (list (string * RetargetTransform)) :=
  match entries with
  | [] => Ret transforms
  | (mixamoName, _) :: entries' =>
      transforms <- computeRetargetTransform transforms mixamoName ;;
      computeRetargetTransforms_loop entries' transforms
  end.

(** [computeRetargetTransforms ()], run on the empty table when the module
    loads. *)
Definition computeRetargetTransforms : js (list (string * RetargetTransform)) :=
  computeRetargetTransforms_loop BONE_MAP [].

Definition RETARGET_TRANSFORMS : list (string * RetargetTransform) :=
  match computeRetargetTransforms with
  | Ret transforms => transforms
  | Throw _ => []
  end.

(** [BoneTrack] and [PositionTrack] of [fbx.ts], without the rest pose;
    a position is the array the extractor stored. *)
Record BoneTrack : Type :=
  mkBoneTrack { bt_name : string; bt_original_name : string;
                bt_times : list R; bt_quats : list Quat.t }.

Record PositionTrack : Type :=
  mkPositionTrack { pt_name : string; pt_original_name : string;
                    pt_times : list R; pt_positions : list (list R) }.

Record AnimationClip : Type :=
  mkAnimationClip { clip_name : string; clip_duration : R;
                    clip_tracks : list BoneTrack;
                    clip_positionTracks : list PositionTrack }.

Record RetargetedBoneTrack : Type :=
  mkRetargetedBoneTrack { name : string; originalName : string;
                          times : list R; quats : list Quat.t }.

Record RetargetedPositionTrack : Type :=
  mkRetargetedPositionTrack { pname : string; poriginalName : string;
                              ptimes : list R; positions : list Vec3.t }.

Record RetargetedClip : Type :=
  mkRetargetedClip { rc_name : string; duration : R; fps : R;
                     boneTracks : list RetargetedBoneTrack;
                     positionTracks : list RetargetedPositionTrack }.

Definition POSITION_SCALE : R := (1 / 12.5)%R.
Definition POSITION_OFFSET_Y : R := (-8.3)%R.

(** A line terminator of the regular expression dialect: in [/(.+)$/] the
    dot matches none of LF, CR, U+2028 and U+2029 (the names are UTF-8). *)
Fixpoint has_line_terminator (s : string) : bool :=
  match s with
  | EmptyString => false
  | String c rest =>
      (Ascii.eqb c "010"%char) || (Ascii.eqb c "013"%char)
      || prefix (String "226" (String "128" (String "168" EmptyString))) s
      || prefix (String "226" (String "128" (String "169" EmptyString))) s
      || has_line_terminator rest
  end.

(** [name.match (/^mixamorig:(.+)$/)?.[1]]. *)
Definition match_mixamorig (name : string) : option string :=
  if prefix "mixamorig:" name then
    let rest := substring 10 (String.length name - 10) name in
    if (Nat.ltb 0 (String.length rest)) && negb (has_line_terminator rest)
    then Some rest else None
  else None.

(** The destination name of [mapBoneName]: [BONE_MAP[mixamoName] ?? mixamoName].
    For a name inherited from [Object.prototype] the code returns the
    inherited function and goes on with it as the track's name; a track of
    the declared interface has a string there, so the embedding stops at
    such a name with [Throw TypeError]. *)
Definition mapBoneName (name : string) : string * js string :=
  let mixamoName := match match_mixamorig name with Some m => m | None => name end in
  (mixamoName,
   match Object_get BONE_MAP mixamoName with
   | Own mmdName => Ret mmdName
   | Undefined => Ret mixamoName
   | Inherited => Throw TypeError
   end).

(** The final coordinate-system flip. *)
Definition flipZW (q : Quat.t) : Quat.t :=
  Quat.new (Quat.x q) (Quat.y q) (- Quat.z q) (- Quat.w q).

(** [track.quats.map (q => ...)] of [retargetBoneTrack]; an inherited
    [transform] is truthy and has no [q_l], so the first quaternion throws. *)
Definition retargetQuats (transform : property RetargetTransform) (quats : list Quat.t)
  : js (list Quat.t) :=
  mapM (fun q =>
          match transform with
          | Undefined => Ret (Quat.new (Quat.x q) (Quat.y q) (- Quat.z q) (- Quat.w q))
          | Inherited => Throw TypeError
          | Own transform =>
              let result := Quat.multiply (Quat.multiply (q_l transform) q) (q_r transform) in
              Ret (Quat.new (Quat.x result) (Quat.y result)
                            (- Quat.z result) (- Quat.w result))
          end) quats.

Definition retargetBoneTrack (track : BoneTrack) : js RetargetedBoneTrack :=
  let '(mixamoName, mmdName) := mapBoneName (bt_name track) in
  let transform := Object_get RETARGET_TRANSFORMS mixamoName in
  quats <- retargetQuats transform (bt_quats track) ;;
  mmdName <- mmdName ;;
  Ret (mkRetargetedBoneTrack mmdName (bt_original_name track) (bt_times track) quats).

(** The callback of [track.positions.map] in [retargetPositionTrack]. *)
Definition retargetPosition (q_l : Quat.t) (p : list R) : Vec3.t :=
  match p with
  | [px; py; pz] =>
      let qx := Quat.x q_l in
      let qy := Quat.y q_l in
      let qz := Quat.z q_l in
      let qw := Quat.w q_l in
      let tx := 2 * (qy * pz - qz * py) in
      let ty := 2 * (qz * px - qx * pz) in
      let tz := 2 * (qx * py - qy * px) in
      let rx := px + qw * tx + (qy * tz - qz * ty) in
      let ry := py + qw * ty + (qz * tx - qx * tz) in
      let rz := pz + qw * tz + (qx * ty - qy * tx) in
      let sx := rx * POSITION_SCALE in
      let sy := ry * POSITION_SCALE + POSITION_OFFSET_Y in
      let sz := rz * POSITION_SCALE in
      Vec3.new sx sy (- sz)
  | _ => Vec3.new 0 0 0
  end%R.

Definition retargetPositionTrack (track : PositionTrack) : js RetargetedPositionTrack :=
  let '(mixamoName, mmdName) := mapBoneName (pt_name track) in
  let transform := Object_get RETARGET_TRANSFORMS mixamoName in
  let q_l := match transform with
             | Own transform => q_l transform
             | _ => Quat.identity
             end in
  mmdName <- mmdName ;;
  Ret (mkRetargetedPositionTrack mmdName (pt_original_name track) (pt_times track)
         (map (retargetPosition q_l) (pt_positions track))).

Definition calculateDuration (clip : AnimationClip) : R :=
  if gtb (clip_duration clip) 0 then clip_duration clip
  else
    let allTimes :=
      fold_left (fun acc track => Set_addEach (fun t => t) (pt_times track) acc)
        (clip_positionTracks clip)
        (fold_left (fun acc track => Set_addEach (fun t => t) (bt_times track) acc)
           (clip_tracks clip) []) in
    let sortedTimes := sort_numbers allTimes in
    match lastOf sortedTimes with
    | None => 0%R
    | Some t => t
    end.

Definition retargetClips (clips : list AnimationClip) : js (list RetargetedClip) :=
  mapM (fun clip =>
          let duration := calculateDuration clip in
          boneTracks <- mapM retargetBoneTrack (clip_tracks clip) ;;
          positionTracks <- mapM retargetPositionTrack (clip_positionTracks clip) ;;
          Ret (mkRetargetedClip (clip_name clip) duration 30 boneTracks positionTracks))
       clips.

(** A statement about the table: the left transform of a bone is the
    rotation about Z by [angle], times its rest orientation [q_a]. *)
Definition left_transform_is (angle : R) (bone : string) : Prop :=
  exists q_a transform,
    Object_get MIXAMO_MATRIX_LOCAL bone = Own q_a
    /\ Object_get RETARGET_TRANSFORMS bone = Own transform
    /\ q_l transform = Quat.multiply (Quat.fromAxisAngle 0 0 1 angle) q_a.

(** ... or the rest orientation itself. *)
Definition left_transform_is_rest (bone : string) : Prop :=
  exists q_a transform,
    Object_get MIXAMO_MATRIX_LOCAL bone = Own q_a
    /\ Object_get RETARGET_TRANSFORMS bone = Own transform
    /\ q_l transform = q_a.

End Retarget.

(** ** The VMD writer ([convertToVMD]) *)

Module VmdWriter.

Import JS.
Import Retarget.
Local Open Scope js_scope.
Local Open Scope nat_scope.

(** A number as [DataView.setFloat32] receives it: finite or not. *)
Inductive number : Type :=
| Finite (r : R)
| NaN
| PosInfinity
| NegInfinity.

Definition isFinite (v : number) : bool :=
  match v with
  | Finite _ => true
  | _ => false
  end.

(** [interface VMDBoneKeyframe]; [frameNumber] is the integer [Math.round]
    returned, and a [position] or [rotation] read past the end of a track's
    array is [undefined]. *)
Record VMDBoneKeyframe : Type :=
  mkKeyframe { boneName : string;
               frameNumber : Z;
               position : option (Vec3.vec3 number);
               rotation : option (Quat.quat number) }.

Definition Vec3_numbers (v : Vec3.t) : Vec3.vec3 number :=
  Vec3.new (Finite (Vec3.x v)) (Finite (Vec3.y v)) (Finite (Vec3.z v)).

Definition Quat_numbers (q : Quat.t) : Quat.quat number :=
  Quat.new (Finite (Quat.x q)) (Finite (Quat.y q)) (Finite (Quat.z q)) (Finite (Quat.w q)).

(** [new Blob ([buffer], { type })]; [new Blob ()] has no bytes and the
    empty type. *)
Record Blob : Type := mkBlob { blob_bytes : list Z; blob_type : string }.

(** The buffer behind a [DataView]. *)
Definition DataView : Type := list Z.

(** [new ArrayBuffer (size)] is filled with zeros. *)
Definition ArrayBuffer (size : nat) : DataView := repeat 0%Z size.

Fixpoint store (dataView : DataView) (byteOffset : nat) (byte : Z) : DataView :=
  match dataView, byteOffset with
  | [], _ => []
  | _ :: rest, O => byte :: rest
  | b :: rest, S n => b :: store rest n byte
  end.

(** [dataView.setUint8 (byteOffset, value)]. *)
Definition setUint8 (dataView : DataView) (byteOffset : nat) (value : Z) : js DataView :=
  if Nat.ltb byteOffset (length dataView)
  then Ret (store dataView byteOffset (value mod 256)%Z)
  else Throw RangeError.

(** The four bytes of an unsigned 32-bit integer, least significant first. *)
Definition uint32_le (value : Z) : list Z :=
  let v := (value mod 4294967296)%Z in
  [ (v mod 256)%Z; (v / 256 mod 256)%Z; (v / 65536 mod 256)%Z; (v / 16777216 mod 256)%Z ].

Fixpoint store_bytes (dataView : DataView) (byteOffset : nat) (bytes : list Z) : DataView :=
  match bytes with
  | [] => dataView
  | b :: bytes' => store_bytes (store dataView byteOffset b) (S byteOffset) bytes'
  end.

(** [dataView.setUint32 (byteOffset, value, true)]. *)
Definition setUint32 (dataView : DataView) (byteOffset : nat) (value : Z) : js DataView :=
  if Nat.leb (byteOffset + 4) (length dataView)
  then Ret (store_bytes dataView byteOffset (uint32_le value))
  else Throw RangeError.

(** [for (let i = 0; i < n; i++) body (i)] over the buffer. *)
Fixpoint for_each (indices : list nat) (body : nat -> DataView -> js DataView)
    (dataView : DataView) : js DataView :=
  match indices with
  | [] => Ret dataView
  | i :: indices' => dataView <- body i dataView ;; for_each indices' body dataView
  end.

(** [header.charCodeAt (i)] for every [i]. *)
Definition charCodes (s : string) : list Z :=
  map (fun c => Z.of_nat (nat_of_ascii c)) (list_ascii_of_string s).

Definition ikDisabledBones : list string :=
  [ "右足IK親"; "左足IK親"; "右足ＩＫ"; "左足ＩＫ"; "右つま先ＩＫ"; "左つま先ＩＫ" ]%string.

Section Writer.

(** The functions of the platform and of the packages the writer calls. *)

(** [Encoding.convert (Encoding.stringToCode (str), { to: 'SJIS', ... })]. *)
Variable sjis : string -> list Z.
(** The four bytes of the 32-bit float nearest to a number, least
    significant first. *)
Variable float32 : number -> Z * Z * Z * Z.
(** [a.localeCompare (b)]. *)
Variable localeCompare : string -> string -> R.
(** [Quat.prototype.normalize] of the engine. *)
Variable normalize : Quat.t -> Quat.t.

Definition encodeShiftJIS (str : string) : list Z :=
  map (fun c => (c mod 256)%Z) (sjis str).

Definition float32_le (value : number) : list Z :=
  let '(b0, b1, b2, b3) := float32 value in
  [ (b0 mod 256)%Z; (b1 mod 256)%Z; (b2 mod 256)%Z; (b3 mod 256)%Z ].

(** [dataView.setFloat32 (byteOffset, value, true)]. *)
Definition setFloat32 (dataView : DataView) (byteOffset : nat) (value : number) : js DataView :=
  if Nat.leb (byteOffset + 4) (length dataView)
  then Ret (store_bytes dataView byteOffset (float32_le value))
  else Throw RangeError.

(** The constants [posX], [posY], [posZ] of [writeBoneFrame]. *)
Definition writtenPosition (p : Vec3.vec3 number) : Vec3.vec3 number :=
  let posX := if isFinite (Vec3.x p) then Vec3.x p else Finite 0%R in
  let posY := if isFinite (Vec3.y p) then Vec3.y p else Finite 0%R in
  let posZ := if isFinite (Vec3.z p) then Vec3.z p else Finite 0%R in
  Vec3.new posX posY posZ.

(** The constants [rotX], [rotY], [rotZ], [rotW] of [writeBoneFrame]. *)
Definition writtenRotation (q : Quat.quat number) : Quat.quat number :=
  let rotX := if isFinite (Quat.x q) then Quat.x q else Finite 0%R in
  let rotY := if isFinite (Quat.y q) then Quat.y q else Finite 0%R in
  let rotZ := if isFinite (Quat.z q) then Quat.z q else Finite 0%R in
  let rotW := if isFinite (Quat.w q) then Quat.w q else Finite 1%R in
  Quat.new rotX rotY rotZ rotW.

Definition writeBoneFrame (dataView : DataView) (offset : nat) (keyframe : VMDBoneKeyframe)
  : js (DataView * nat) :=
  let nameBytes := encodeShiftJIS (boneName keyframe) in
  dataView <- for_each (seq 0 15)
                (fun i dataView =>
                   setUint8 dataView (offset + i)
                     (if Nat.ltb i (length nameBytes) then nth i nameBytes 0%Z else 0%Z))
                dataView ;;
  let offset := offset + 15 in
  dataView <- setUint32 dataView offset (frameNumber keyframe) ;;
  let offset := offset + 4 in
  position <- defined (position keyframe) ;;
  let pos := writtenPosition position in
  dataView <- setFloat32 dataView offset (Vec3.x pos) ;;
  dataView <- setFloat32 dataView (offset + 4) (Vec3.y pos) ;;
  dataView <- setFloat32 dataView (offset + 8) (Vec3.z pos) ;;
  let offset := offset + 12 in
  rotation <- defined (rotation keyframe) ;;
  let rot := writtenRotation rotation in
  dataView <- setFloat32 dataView offset (Quat.x rot) ;;
  dataView <- setFloat32 dataView (offset + 4) (Quat.y rot) ;;
  dataView <- setFloat32 dataView (offset + 8) (Quat.z rot) ;;
  dataView <- setFloat32 dataView (offset + 12) (Quat.w rot) ;;
  let offset := offset + 16 in
  dataView <- for_each (seq 0 64) (fun i dataView => setUint8 dataView (offset + i) 20%Z)
                dataView ;;
  let offset := offset + 64 in
  Ret (dataView, offset).

Definition interpolateQuat (track : RetargetedBoneTrack) (time : R) : js (option Quat.t) :=
  match findIndex (fun t => geb t time) (times track) with
  | None => Ret (lastOf (quats track))
  | Some idx =>
      if Nat.eqb idx 0 || match nth_error (times track) idx with
                          | Some ti => eqb ti time
                          | None => false
                          end
      then Ret (nth_error (quats track) idx)
      else
        let t0 := nth (idx - 1) (times track) 0%R in
        let t1 := nth idx (times track) 0%R in
        let t := ((time - t0) / (t1 - t0))%R in
        q0 <- defined (nth_error (quats track) (idx - 1)) ;;
        q1 <- defined (nth_error (quats track) idx) ;;
        let dot := (Quat.x q0 * Quat.x q1 + Quat.y q0 * Quat.y q1
                    + Quat.z q0 * Quat.z q1 + Quat.w q0 * Quat.w q1)%R in
        let q1Adjusted :=
          if ltb dot 0%R
          then Quat.new (- Quat.x q1)%R (- Quat.y q1)%R (- Quat.z q1)%R (- Quat.w q1)%R
          else q1 in
        let angle := acos (Math_abs dot) in
        if ltb (Math_abs angle) 0.001%R then
          Ret (Some (normalize
                 (Quat.new (Quat.x q0 + (Quat.x q1Adjusted - Quat.x q0) * t)%R
                           (Quat.y q0 + (Quat.y q1Adjusted - Quat.y q0) * t)%R
                           (Quat.z q0 + (Quat.z q1Adjusted - Quat.z q0) * t)%R
                           (Quat.w q0 + (Quat.w q1Adjusted - Quat.w q0) * t)%R)))
        else
          let sinAngle := sin angle in
          let w0 := (sin ((1 - t) * angle) / sinAngle)%R in
          let w1 := (sin (t * angle) / sinAngle)%R in
          Ret (Some (normalize
                 (Quat.new (w0 * Quat.x q0 + w1 * Quat.x q1Adjusted)%R
                           (w0 * Quat.y q0 + w1 * Quat.y q1Adjusted)%R
                           (w0 * Quat.z q0 + w1 * Quat.z q1Adjusted)%R
                           (w0 * Quat.w q0 + w1 * Quat.w q1Adjusted)%R)))
  end.

Definition interpolatePosition (track : RetargetedPositionTrack) (time : R)
  : js (option Vec3.t) :=
  match findIndex (fun t => geb t time) (ptimes track) with
  | None => Ret (lastOf (positions track))
  | Some idx =>
      if Nat.eqb idx 0 || match nth_error (ptimes track) idx with
                          | Some ti => eqb ti time
                          | None => false
                          end
      then Ret (nth_error (positions track) idx)
      else
        let t0 := nth (idx - 1) (ptimes track) 0%R in
        let t1 := nth idx (ptimes track) 0%R in
        let t := ((time - t0) / (t1 - t0))%R in
        p0 <- defined (nth_error (positions track) (idx - 1)) ;;
        p1 <- defined (nth_error (positions track) idx) ;;
        Ret (Some (Vec3.new (Vec3.x p0 + (Vec3.x p1 - Vec3.x p0) * t)%R
                            (Vec3.y p0 + (Vec3.y p1 - Vec3.y p0) * t)%R
                            (Vec3.z p0 + (Vec3.z p1 - Vec3.z p0) * t)%R))
  end.

(** [posTrack.positions[positionIdx]] when a time of the track is within
    0.0001 of [time], the interpolated position otherwise. *)
Definition positionAt (posTrack : RetargetedPositionTrack) (time : R) : js (option Vec3.t) :=
  match findIndex (fun t => ltb (Math_abs (t - time)) 0.0001%R) (ptimes posTrack) with
  | Some positionIdx => Ret (nth_error (positions posTrack) positionIdx)
  | None => interpolatePosition posTrack time
  end.

Definition rotationAt (track : RetargetedBoneTrack) (time : R) : js (option Quat.t) :=
  match findIndex (fun t => ltb (Math_abs (t - time)) 0.0001%R) (times track) with
  | Some rotationIdx => Ret (nth_error (quats track) rotationIdx)
  | None => interpolateQuat track time
  end.

Definition FrameMap : Type := list (Z * VMDBoneKeyframe).

(** The body of [for (const time of sortedBoneTimes)]. *)
Definition boneTrack_step (fps : R) (track : RetargetedBoneTrack)
    (posTrack : option RetargetedPositionTrack) (boneKeyframes : FrameMap) (time : R)
  : js FrameMap :=
  let frameNumber := Math_round (time * fps)%R in
  rotation <- rotationAt track time ;;
  position <- match posTrack with
              | Some posTrack => positionAt posTrack time
              | None => Ret (Some (Vec3.new 0 0 0)%R)
              end ;;
  Ret (Map_set Z.eqb boneKeyframes frameNumber
         (mkKeyframe (name track) frameNumber
            (option_map Vec3_numbers position) (option_map Quat_numbers rotation))).

(** The body of [for (const time of posTrack.times)]. *)
Definition positionTrack_step (fps : R) (posTrack : RetargetedPositionTrack)
    (boneKeyframes : FrameMap) (time : R) : js FrameMap :=
  let frameNumber := Math_round (time * fps)%R in
  position <- positionAt posTrack time ;;
  Ret (Map_set Z.eqb boneKeyframes frameNumber
         (mkKeyframe (pname posTrack) frameNumber
            (option_map Vec3_numbers position)
            (Some (Quat.new (Finite 0%R) (Finite 0%R) (Finite 0%R) (Finite 1%R))))).

(** A loop that threads a value through a list, stopping at an exception. *)
Fixpoint foldM {A B : Type} (f : A -> B -> js A) (xs : list B) (a : A) : js A :=
  match xs with
  | [] => Ret a
  | x :: xs' => a <- f a x ;; foldM f xs' a
  end.

Definition KeyframeMap : Type := list (string * FrameMap).

(** The body of [for (const track of clip.boneTracks)]. *)
Definition boneTracks_step (fps : R)
    (positionTrackMap : list (string * RetargetedPositionTrack))
    (keyframeMap : KeyframeMap) (track : RetargetedBoneTrack) : js KeyframeMap :=
  let posTrack := Map_get String.eqb positionTrackMap (name track) in
  let boneTimes := Set_addEach (fun t => t) (times track) [] in
  let boneTimes := match posTrack with
                   | Some posTrack => Set_addEach (fun t => t) (ptimes posTrack) boneTimes
                   | None => boneTimes
                   end in
  let sortedBoneTimes := sort_numbers boneTimes in
  boneKeyframes <- foldM (boneTrack_step fps track posTrack) sortedBoneTimes [] ;;
  Ret (Map_set String.eqb keyframeMap (name track) boneKeyframes).

(** The body of [for (const posTrack of clip.positionTracks || [])]. *)
Definition positionTracks_step (fps : R) (rotationBoneNames : list string)
    (keyframeMap : KeyframeMap) (posTrack : RetargetedPositionTrack) : js KeyframeMap :=
  if negb (existsb (String.eqb (pname posTrack)) rotationBoneNames) then
    boneKeyframes <- foldM (positionTrack_step fps posTrack) (ptimes posTrack) [] ;;
    Ret (Map_set String.eqb keyframeMap (pname posTrack) boneKeyframes)
  else Ret keyframeMap.

(** The comparator of [keyframes.sort], as [cmp (a, b) < 0]. *)
Definition keyframe_lt (a b : VMDBoneKeyframe) : bool :=
  if negb (Z.eqb (frameNumber a) (frameNumber b))
  then ltb (IZR (frameNumber a - frameNumber b)) 0%R
  else ltb (localeCompare (boneName a) (boneName b)) 0%R.

(** [allTimes] of [convertToVMD], sorted. *)
Definition sortedTimes (clip : RetargetedClip) : list R :=
  sort_numbers
    (fold_left (fun acc track => Set_addEach (fun t => t) (ptimes track) acc)
       (positionTracks clip)
       (fold_left (fun acc track => Set_addEach (fun t => t) (times track) acc)
          (boneTracks clip) [])).

(** The array [keyframes] of [convertToVMD] after [keyframes.sort]. *)
Definition collectKeyframes (clip : RetargetedClip) (fps : R) : js (list VMDBoneKeyframe) :=
  let positionTrackMap :=
    fold_left (fun m track => Map_set String.eqb m (pname track) track)
      (positionTracks clip) [] in
  keyframeMap <- foldM (boneTracks_step fps positionTrackMap) (boneTracks clip) [] ;;
  let rotationBoneNames := map name (boneTracks clip) in
  keyframeMap <- foldM (positionTracks_step fps rotationBoneNames)
                   (positionTracks clip) keyframeMap ;;
  let keyframes := flat_map (fun boneKeyframes => Map_values boneKeyframes)
                     (Map_values keyframeMap) in
  Ret (Array_sort keyframe_lt keyframes).

(** The body of [for (const keyframe of keyframes)]. *)
Definition writeBoneFrames (keyframes : list VMDBoneKeyframe) (dataView : DataView)
    (offset : nat) : js (DataView * nat) :=
  foldM (fun '(dataView, offset) keyframe => writeBoneFrame dataView offset keyframe)
    keyframes (dataView, offset).

(** The body of [for (const boneName of ikDisabledBones)]. *)
Definition writeIkState (state : DataView * nat) (boneName : string) : js (DataView * nat) :=
  let '(dataView, offset) := state in
  let nameBytes := encodeShiftJIS boneName in
  dataView <- for_each (seq 0 20)
                (fun i dataView =>
                   setUint8 dataView (offset + i)
                     (if Nat.ltb i (length nameBytes) then nth i nameBytes 0%Z else 0%Z))
                dataView ;;
  let offset := offset + 20 in
  dataView <- setUint8 dataView offset 0%Z ;;
  let offset := offset + 1 in
  Ret (dataView, offset).

(** [convertToVMD], from the sorted [keyframes] on. *)
Definition writeVMD (keyframes : list VMDBoneKeyframe) : js Blob :=
  let hasPropertyKeyframes := Nat.ltb 0 (length ikDisabledBones) in
  let propertyKeyframeSize := 4 + 1 + 4 + (length ikDisabledBones * (20 + 1)) in
  let headerSize := 50 in
  let boneFrameSize := 111 in
  let morphFrameCount := 0 in
  let morphFrameSize := 23 in
  let cameraFrameCount := 0%Z in
  let lightFrameCount := 0%Z in
  let selfShadowFrameCount := 0%Z in
  let propertyKeyframeCount := if hasPropertyKeyframes then 1 else 0 in
  let totalSize := headerSize
                   + 4 + (boneFrameSize * length keyframes)
                   + 4 + (morphFrameSize * morphFrameCount)
                   + 4 + 4 + 4
                   + 4 + (propertyKeyframeSize * propertyKeyframeCount) in
  let dataView := ArrayBuffer totalSize in
  let offset := 0 in
  let header := charCodes "Vocaloid Motion Data 0002" in
  dataView <- for_each (seq 0 30)
                (fun i dataView =>
                   setUint8 dataView (offset + i)
                     (if Nat.ltb i (length header) then nth i header 0%Z else 0%Z))
                dataView ;;
  let offset := offset + 30 in
  dataView <- for_each (seq 0 20) (fun i dataView => setUint8 dataView (offset + i) 0%Z)
                dataView ;;
  let offset := offset + 20 in
  dataView <- setUint32 dataView offset (Z.of_nat (length keyframes)) ;;
  let offset := offset + 4 in
  '(dataView, offset) <- writeBoneFrames keyframes dataView offset ;;
  dataView <- setUint32 dataView offset (Z.of_nat morphFrameCount) ;;
  let offset := offset + 4 in
  dataView <- setUint32 dataView offset cameraFrameCount ;;
  let offset := offset + 4 in
  dataView <- setUint32 dataView offset lightFrameCount ;;
  let offset := offset + 4 in
  dataView <- setUint32 dataView offset selfShadowFrameCount ;;
  let offset := offset + 4 in
  dataView <- setUint32 dataView offset (Z.of_nat propertyKeyframeCount) ;;
  let offset := offset + 4 in
  '(dataView, offset) <-
    (if hasPropertyKeyframes then
       dataView <- setUint32 dataView offset 0%Z ;;
       let offset := offset + 4 in
       dataView <- setUint8 dataView offset 1%Z ;;
       let offset := offset + 1 in
       dataView <- setUint32 dataView offset (Z.of_nat (length ikDisabledBones)) ;;
       let offset := offset + 4 in
       foldM writeIkState ikDisabledBones (dataView, offset)
     else Ret (dataView, offset)) ;;
  Ret (mkBlob dataView "application/octet-stream").

Definition convertToVMD (clip : RetargetedClip) (fps : R) : js Blob :=
  match sortedTimes clip with
  | [] => Ret (mkBlob [] "")
  | _ :: _ =>
      keyframes <- collectKeyframes clip fps ;;
      writeVMD keyframes
  end.

End Writer.

End VmdWriter.

(** ** The layout of the destination file, as the specification gives it *)

Module VmdFormat.

Import VmdWriter.

Section Layout.

Variable sjis : string -> list Z.
Variable float32 : number -> Z * Z * Z * Z.

(** A fixed-length field: the bytes, truncated to [n] or padded with NUL. *)
Definition padded (n : nat) (bytes : list Z) : list Z :=
  map (fun i => ((if Nat.ltb i (length bytes) then nth i bytes 0%Z else 0%Z) mod 256)%Z)
      (seq 0 n).

(** A bone-frame record: 15-byte name, frame, position, rotation and 64
    bytes of interpolation data, each 20. *)
Definition boneFrame (name : string) (frame : Z) (p : Vec3.vec3 number)
    (q : Quat.quat number) : list Z :=
  padded 15 (encodeShiftJIS sjis name) ++ uint32_le frame
  ++ float32_le float32 (Vec3.x p) ++ float32_le float32 (Vec3.y p)
  ++ float32_le float32 (Vec3.z p)
  ++ float32_le float32 (Quat.x q) ++ float32_le float32 (Quat.y q)
  ++ float32_le float32 (Quat.z q) ++ float32_le float32 (Quat.w q)
  ++ repeat 20%Z 64.

(** 30 bytes of signature and 20 bytes of model name, all NUL. *)
Definition header : list Z :=
  padded 30 (charCodes "Vocaloid Motion Data 0002") ++ repeat 0%Z 20.

(** An IK entry: 20-byte name and the state byte 0. *)
Definition ikEntry (name : string) : list Z :=
  padded 20 (encodeShiftJIS sjis name) ++ [0%Z].

(** The property keyframe: frame 0, visibility 1, the count of IK entries
    and the entries. *)
Definition propertyKeyframe : list Z :=
  uint32_le 0 ++ [1%Z] ++ uint32_le 6 ++ flat_map ikEntry ikDisabledBones.

(** The property-keyframe count (1) and the keyframe. *)
Definition propertySection : list Z := uint32_le 1 ++ propertyKeyframe.

Definition file (records : list (list Z)) : list Z :=
  header ++ uint32_le (Z.of_nat (length records)) ++ concat records
  ++ uint32_le 0 ++ uint32_le 0 ++ uint32_le 0 ++ uint32_le 0
  ++ propertySection.

(** The record of a keyframe whose position and rotation are present. *)
Definition recordOf (kf : VMDBoneKeyframe) : list Z :=
  match position kf, rotation kf with
  | Some p, Some q =>
      boneFrame (boneName kf) (frameNumber kf) (writtenPosition p) (writtenRotation q)
  | _, _ => []
  end.

End Layout.

(** A component as it is written: itself when finite, the default otherwise. *)
Definition finite_or (default v : number) : number :=
  if isFinite v then v else default.

End VmdFormat.

(** ** Well-formed clips and the invariants of the keyframe maps *)

Module VmdInvariants.

Import Retarget VmdWriter.

(** Tracks as the extractor and the retargeter produce them: not empty, one
    value per time. *)
Definition wf_boneTrack (t : RetargetedBoneTrack) : Prop :=
  times t <> [] /\ length (times t) = length (quats t).

Definition wf_positionTrack (t : RetargetedPositionTrack) : Prop :=
  ptimes t <> [] /\ length (ptimes t) = length (positions t).

Definition wf_clip (c : RetargetedClip) : Prop :=
  Forall wf_boneTrack (boneTracks c) /\ Forall wf_positionTrack (positionTracks c).

Definition keyframe_defined (kf : VMDBoneKeyframe) : Prop :=
  position kf <> None /\ rotation kf <> None.



Definition frames_defined (m : FrameMap) : Prop :=
  Forall (fun e => keyframe_defined (snd e)) m.


Definition kmap_defined (km : KeyframeMap) : Prop :=
  Forall (fun e => frames_defined (snd e)) km.

End VmdInvariants.

(** ** The decoder of string properties: what it never produces *)

Module Utf8Invariants.

Import FbxBinary.
Local Open Scope Z_scope.

(** The values of a range, for checks by enumeration. *)
Definition Zrange (lo : Z) (n : nat) : list Z :=
  map (fun k => lo + Z.of_nat k) (seq 0 n).

(** A pending sequence cannot complete to the code point 0. *)
Definition pending_ok (p : Pending) : Prop :=
  0 <= code_point p
  /\ (code_point p <> 0
      \/ forall b, lower p <= b <= upper p -> Z.land b 0x3F <> 0).

Definition nonzero (l : list Z) : Prop := Forall (fun c => c <> 0) l.

End Utf8Invariants.

(** ** Sample inputs *)

Module Samples.

Import Retarget VmdWriter.
Local Open Scope string_scope.

(** The large-arc scenario: X from 0 to 360 degrees over one second, Y and Z
    constantly 0. *)
Definition sweepX : Fbx.Curve := Fbx.mkCurve [0; 1] [0; 360].
Definition zeroCurve : Fbx.Curve := Fbx.mkCurve [0; 1] [0; 0].

(** A hips translation sample, and the same sample on a bone that has no
    retarget transform. *)
Definition hipsTrack : PositionTrack :=
  mkPositionTrack "mixamorig:Hips" "mixamorig:Hips" [0] [[0; 100; 0]].
Definition propTrack : PositionTrack :=
  mkPositionTrack "mixamorig:Prop" "mixamorig:Prop" [0] [[0; 100; 0]].

(** A rotation track of a bone that has no retarget transform. *)
Definition tailTrack : BoneTrack :=
  mkBoneTrack "mixamorig:Tail" "mixamorig:Tail" [0] [Quat.new 0.1 0.2 0.3 0.4].

(** A rotation track of a bone named after a property that every object
    inherits from [Object.prototype]. *)
Definition constructorTrack : BoneTrack :=
  mkBoneTrack "mixamorig:constructor" "mixamorig:constructor" [0]
    [Quat.new 0.1 0.2 0.3 0.4].

(** Stand-ins for the platform's functions, where a closed example needs
    some: the code units of an ASCII name, a float encoder that stores
    zeros, the comparison of names as byte strings, no normalisation. *)
Definition ascii_sjis (s : string) : list Z := charCodes s.
Definition zero_float32 (v : number) : Z * Z * Z * Z := (0, 0, 0, 0)%Z.
Definition byte_compare (a b : string) : R :=
  match String.compare a b with
  | Lt => -1
  | Eq => 0
  | Gt => 1
  end.
Definition keep (q : Quat.t) : Quat.t := q.

(** A clip without tracks, a clip with one key, and a clip whose two keys
    fall on the same frame at 30 frames per second. *)
Definition emptyClip : RetargetedClip := mkRetargetedClip "empty" 0 30 [] [].
Definition oneKeyTrack : RetargetedBoneTrack :=
  mkRetargetedBoneTrack "センター" "mixamorig:Hips" [0] [Quat.new 0 0 0 (-1)].
Definition oneKeyClip : RetargetedClip := mkRetargetedClip "one" 0 30 [oneKeyTrack] [].

(** A rotation with one component that is not finite. *)
Definition brokenRotation : Quat.quat number :=
  Quat.new NaN (Finite 0.5) (Finite 0.5) (Finite 0.5).
Definition brokenKeyframe : VMDBoneKeyframe :=
  mkKeyframe "センター" 0
    (Some (Vec3.new (Finite 1) PosInfinity (Finite 3))) (Some brokenRotation).

End Samples.

(** ** [src/lib/fbx.ts]: the 64-bit integers of the binary reader *)

Module FbxIntegers.

Import JS FbxBinary.
Local Open Scope Z_scope.
Local Open Scope js_scope.

(** [ToInt32] of the language: the operand of a bitwise operator, reduced
    modulo 2^32 into the signed range. *)
Definition ToInt32 (v : Z) : Z := (v + 2147483648) mod 4294967296 - 2147483648.

(** [a & b] and [~a]: on the signed 32-bit operands, with a signed result. *)
Definition bitand (a b : Z) : Z := Z.land (ToInt32 a) (ToInt32 b).
Definition bitnot (a : Z) : Z := Z.lnot (ToInt32 a).

(** [readUint64]: a [bigint], exact. *)
Definition readUint64 (data : BinaryReader) : js (Z * BinaryReader) :=
  '(low, data) <- readUint32 data ;;
  '(high, data) <- readUint32 data ;;
  Ret (high * 0x100000000 + low, data).

(** [readInt64]: a [number], given as the integer it denotes; the double
    arithmetic of the code is exact while the result stays below 2^53 in
    magnitude. *)
Definition readInt64 (data : BinaryReader) : js (Z * BinaryReader) :=
  '(low, data) <- readUint32 data ;;
  '(high, data) <- readUint32 data ;;
  if negb (bitand high 0x80000000 =? 0) then
    let negLow := bitand (bitnot low + 1) 0xFFFFFFFF in
    let negHigh := bitand (bitnot high) 0xFFFFFFFF in
    if negLow =? 0 then Ret (- (negHigh * 0x100000000), data)
    else Ret (- (negHigh * 0x100000000 + negLow), data)
  else Ret (high * 0x100000000 + low, data).

(** The elements of a [Uint8Array], and those that are ASCII. *)
Definition is_bytes (l : list Z) : Prop := Forall (fun b => 0 <= b < 256) l.
Definition is_ascii (l : list Z) : Prop := Forall (fun b => 0 <= b <= 127) l.

(** The signed 64-bit integer whose two's-complement words are [low] and
    [high]. *)
Definition int64_of_words (low high : Z) : Z :=
  if high <? 2147483648 then high * 4294967296 + low
  else high * 4294967296 + low - 18446744073709551616.

End FbxIntegers.

(** ** Shapes of tracks, of key times and of record lists *)

Module Shapes.

Import JS Fbx Retarget VmdWriter.

(** Key times in strictly increasing order. *)
Fixpoint increasing (l : list R) : Prop :=
  match l with
  | a :: ((b :: _) as rest) => a < b /\ increasing rest
  | _ => True
  end.

(** The two arrays of [interpolateRotations] agree: three values per time. *)
Definition flat (out : Frames) : Prop := length (snd out) = (3 * length (fst out))%nat.

(** Key times that the writer's tolerance of 0.0001 s tells apart. *)
Definition separated (times : list R) : Prop :=
  forall i j a b, nth_error times i = Some a -> nth_error times j = Some b ->
                  i <> j -> 0.0001 <= Rabs (a - b).

(** Records in the order of their frames. *)
Fixpoint frame_ordered (l : list VMDBoneKeyframe) : Prop :=
  match l with
  | a :: ((b :: _) as rest) => (frameNumber a <= frameNumber b)%Z /\ frame_ordered rest
  | _ => True
  end.

(** A bone name that, once stripped, is no name of [Object.prototype]. *)
Definition plain_name (name : string) : Prop :=
  existsb (String.eqb (fst (mapBoneName name))) Object_prototype_keys = false.

(** Tracks as the extractor returns them: at least one key, one value per
    key time. *)
Definition wf_sourceBoneTrack (t : BoneTrack) : Prop :=
  bt_times t <> [] /\ length (bt_times t) = length (bt_quats t) /\ plain_name (bt_name t).

Definition wf_sourcePositionTrack (t : PositionTrack) : Prop :=
  pt_times t <> [] /\ length (pt_times t) = length (pt_positions t)
  /\ plain_name (pt_name t).

Definition wf_sourceClip (c : AnimationClip) : Prop :=
  Forall wf_sourceBoneTrack (clip_tracks c)
  /\ Forall wf_sourcePositionTrack (clip_positionTracks c).

(** A key time of the bone [n] in a clip: of its rotation track or of its
    position track. *)
Definition key_time (clip : RetargetedClip) (n : string) (t : R) : Prop :=
  (exists track, In track (boneTracks clip) /\ name track = n /\ In t (times track))
  \/ (exists track, In track (positionTracks clip) /\ pname track = n /\ In t (ptimes track)).

(** A record that stands for a key of the clip, and a keyframe map that
    holds only such records. *)
Definition from_key (clip : RetargetedClip) (fps : R) (kf : VMDBoneKeyframe) : Prop :=
  exists t, key_time clip (boneName kf) t /\ frameNumber kf = Math_round (t * fps).

Definition sourced (clip : RetargetedClip) (fps : R) (km : KeyframeMap) : Prop :=
  Forall (fun e => Forall (fun fe => from_key clip fps (snd fe)) (snd e)) km.

(** [positionTrackMap.get (n)] of [convertToVMD]. *)
Definition positionTrackOf (clip : RetargetedClip) (n : string)
    : option RetargetedPositionTrack :=
  Map_get String.eqb
    (fold_left (fun m track => Map_set String.eqb m (pname track) track)
       (positionTracks clip) []) n.

(** The set [boneTimes] that [convertToVMD] builds for a rotation track: the
    track's times, then those of the position track of the same name. *)
Definition boneTimes (clip : RetargetedClip) (track : RetargetedBoneTrack) : list R :=
  let posTrack := positionTrackOf clip (name track) in
  let boneTimes := Set_addEach (fun t => t) (times track) [] in
  match posTrack with
  | Some posTrack => Set_addEach (fun t => t) (ptimes posTrack) boneTimes
  | None => boneTimes
  end.

End Shapes.

(** ** More sample inputs *)

Module MoreSamples.

Import Retarget VmdWriter.
Local Open Scope string_scope.

(** A curve with three keys. *)
Definition threeKeys : Fbx.Curve := Fbx.mkCurve [0; 1; 2] [5; 7; 6].

(** The eight bytes of the 64-bit integer -2^31, least significant first,
    and an ASCII name followed by NUL and two more bytes. *)
Definition minusTwoTo31 : FbxBinary.BinaryReader :=
  FbxBinary.mkReader [0; 0; 0; 128; 255; 255; 255; 255]%Z 0.
Definition nameBytes : FbxBinary.BinaryReader :=
  FbxBinary.mkReader [72; 105; 112; 115; 0; 88; 89]%Z 0.

(** A source clip without a duration: a rotation track and a position
    track of the hips. *)
Definition hipsRotation : BoneTrack :=
  mkBoneTrack "mixamorig:Hips" "mixamorig:Hips" [0; 2]
    [Quat.new 0 0 0 1; Quat.new 1 0 0 0].
Definition hipsPosition : PositionTrack :=
  mkPositionTrack "mixamorig:Hips" "mixamorig:Hips" [0; 3] [[0; 100; 0]; [0; 90; 0]].
Definition sourceClip : AnimationClip :=
  mkAnimationClip "walk" (-1) [hipsRotation] [hipsPosition].

(** A retargeted track with keys at 0 s and 1 s, alone in its clip. *)
Definition twoKeyTrack : RetargetedBoneTrack :=
  mkRetargetedBoneTrack "センター" "mixamorig:Hips" [0; 1]
    [Quat.new 0 0 0 (-1); Quat.new 0 0 1 0].
Definition twoKeyClip : RetargetedClip := mkRetargetedClip "two" 1 30 [twoKeyTrack] [].

End MoreSamples.

(* ================================================================== *)
(** * Part II: properties *)
(* ================================================================== *)

(** ** Facts about the runtime model *)

Module JSFacts.

Import JS.

Lemma ltb_true a b : a < b -> ltb a b = true.
Proof. intros; unfold ltb; destruct (Rlt_dec a b); [reflexivity|contradiction]. Qed.

Lemma ltb_false a b : ~ a < b -> ltb a b = false.
Proof. intros; unfold ltb; destruct (Rlt_dec a b); [contradiction|reflexivity]. Qed.

Lemma leb_true a b : a <= b -> leb a b = true.
Proof. intros; unfold leb; destruct (Rle_dec a b); [reflexivity|contradiction]. Qed.

Lemma leb_false a b : ~ a <= b -> leb a b = false.
Proof. intros; unfold leb; destruct (Rle_dec a b); [contradiction|reflexivity]. Qed.

(** Decides the comparisons of a goal whose operands are known. *)
Ltac js_cmp :=
  repeat match goal with
  | |- context [ltb ?a ?b] =>
      first [ rewrite (ltb_true a b) by lra | rewrite (ltb_false a b) by lra ]
  | |- context [leb ?a ?b] =>
      first [ rewrite (leb_true a b) by lra | rewrite (leb_false a b) by lra ]
  end.

Lemma Math_round_IZR z : Math_round (IZR z) = z.
Proof. unfold Math_round. symmetry. apply Int_part_spec. lra. Qed.

Lemma Math_round_small x : - / 2 <= x < / 2 -> Math_round x = 0%Z.
Proof. intros H. unfold Math_round. symmetry. apply Int_part_spec. lra. Qed.

Lemma Math_ceil_IZR z : Math_ceil (IZR z) = z.
Proof.
  unfold Math_ceil. rewrite <- opp_IZR.
  replace (Int_part (IZR (- z))) with (- z)%Z; [lia|].
  apply Int_part_spec. lra.
Qed.

Lemma Math_ceil_ge_1 x : 1 <= x -> (1 <= Math_ceil x)%Z.
Proof.
  intros H. unfold Math_ceil.
  destruct (base_Int_part (- x)) as [Hle _].
  assert (IZR (Int_part (- x)) <= IZR (-1)) as Hz by lra.
  apply le_IZR in Hz. lia.
Qed.

Lemma Set_add_new s x : ~ In x s -> Set_add s x = s ++ [x].
Proof.
  intros; unfold Set_add; destruct (in_dec Req_dec_T x s); [contradiction|reflexivity].
Qed.

Lemma Set_add_old s x : In x s -> Set_add s x = s.
Proof.
  intros; unfold Set_add; destruct (in_dec Req_dec_T x s); [reflexivity|contradiction].
Qed.

Lemma nth_error_defined {A} (xs : list A) i :
  (i < length xs)%nat -> exists x, nth_error xs i = Some x.
Proof.
  intros H. destruct (nth_error xs i) eqn:E; [eauto|].
  apply nth_error_None in E. lia.
Qed.

Lemma lastOf_defined {A} (xs : list A) : xs <> [] -> exists x, lastOf xs = Some x.
Proof.
  intros H. unfold lastOf. apply nth_error_defined.
  destruct xs; [contradiction|]. cbn. lia.
Qed.

Lemma findIndex_Some {A} (p : A -> bool) xs i :
  findIndex p xs = Some i -> (i < length xs)%nat.
Proof.
  revert i. induction xs as [|x xs IH]; cbn; [discriminate|].
  destruct (p x); intros i.
  - intros [= <-]. lia.
  - destruct (findIndex p xs); cbn; [|discriminate]. intros [= <-].
    specialize (IH _ eq_refl). lia.
Qed.

(** The sort keeps every element. *)
Lemma insert_sorted_perm {A} lt (x : A) l : Permutation (x :: l) (insert_sorted lt x l).
Proof.
  induction l as [|y l IH]; cbn; [reflexivity|].
  destruct (lt x y); [reflexivity|].
  rewrite perm_swap. constructor. assumption.
Qed.

Lemma Array_sort_perm {A} lt (l : list A) : Permutation l (Array_sort lt l).
Proof.
  unfold Array_sort.
  enough (forall acc, Permutation (acc ++ l)
                        (fold_left (fun acc x => insert_sorted lt x acc) l acc))
    by (apply (H [])).
  induction l as [|x l IH]; cbn; intros acc.
  - rewrite app_nil_r. reflexivity.
  - rewrite <- IH. rewrite <- insert_sorted_perm.
    symmetry. apply Permutation_middle.
Qed.

Section MapFacts.
Context {K V : Type} (keq : K -> K -> bool).
Hypothesis keq_spec : forall a b, keq a b = true <-> a = b.



Lemma Map_set_Forall (P : K * V -> Prop) (m : list (K * V)) k v :
  (forall k0, keq k0 k = true -> P (k0, v)) -> P (k, v) ->
  Forall P m -> Forall P (Map_set keq m k v).
Proof.
  intros Hk Hv. induction m as [|[k0 v0] m IH]; cbn; intros H.
  - constructor; auto.
  - inversion H; subst. destruct (keq k0 k) eqn:E; constructor; auto.
Qed.



Lemma Map_get_In (m : list (K * V)) k v :
  Map_get keq m k = Some v -> In v (map snd m).
Proof.
  induction m as [|[k0 v0] m IH]; cbn; [discriminate|].
  destruct (keq k0 k); [intros [= ->]; auto|auto].
Qed.

Lemma Map_set_values_in (m : list (K * V)) k v v' :
  In v' (map snd (Map_set keq m k v)) -> v' = v \/ In v' (map snd m).
Proof.
  induction m as [|[k0 v0] m IH]; cbn.
  - intros [<-|[]]; auto.
  - destruct (keq k0 k) eqn:E; cbn; intros [H|H]; auto.
    destruct (IH H); auto.
Qed.
End MapFacts.

Lemma Object_get_not_inherited {A B} (t1 : list (string * A)) (t2 : list (string * B)) k :
  Object_get t1 k = Undefined -> Object_get t2 k <> Inherited.
Proof.
  unfold Object_get. destruct (Map_get String.eqb t1 k); [discriminate|].
  destruct (existsb (String.eqb k) Object_prototype_keys); [discriminate|].
  intros _. destruct (Map_get String.eqb t2 k); discriminate.
Qed.

End JSFacts.

(** ** The rotation assembler *)

Module FbxFacts.

Import JS Fbx JSFacts Samples.

(** *** The loop over the sub-intervals ends by its own condition *)

Lemma slerp_frames_fuel Q1 Q2 initialTime timeSpan (n extra : nat) :
  (1 <= n)%nat ->
  forall fuel k out, (n <= fuel + k)%nat ->
    slerp_frames (fuel + extra) Q1 Q2 initialTime timeSpan (1 / INR n) (INR k / INR n) out
    = slerp_frames fuel Q1 Q2 initialTime timeSpan (1 / INR n) (INR k / INR n) out.
Proof.
  intros Hn.
  assert (Hpos : 0 < INR n) by (apply lt_0_INR; lia).
  induction fuel as [|fuel IH]; intros k out Hk.
  - assert (Hge : ~ INR k / INR n < 1).
    { intros Hlt. apply (Rmult_lt_compat_r (INR n)) in Hlt; [|assumption].
      unfold Rdiv in Hlt. rewrite Rmult_assoc, Rinv_l, Rmult_1_r, Rmult_1_l in Hlt by lra.
      apply INR_lt in Hlt. lia. }
    cbn [Nat.add]. destruct extra; cbn [slerp_frames]; [reflexivity|].
    rewrite ltb_false by assumption. reflexivity.
  - cbn [Nat.add slerp_frames].
    destruct (ltb (INR k / INR n) 1); [|reflexivity].
    replace (INR k / INR n + 1 / INR n) with (INR (S k) / INR n)
      by (rewrite S_INR; field; lra).
    apply IH. lia.
Qed.

(** With [numSubIntervals] turns of fuel, as [rotation_step] gives, more
    fuel changes nothing: the loop has left through [t < 1]. *)
Lemma slerp_frames_fuel_sufficient Q1 Q2 initialTime timeSpan (numSubIntervals : Z)
    extra out :
  (1 <= numSubIntervals)%Z ->
  slerp_frames (Z.to_nat numSubIntervals + extra) Q1 Q2 initialTime timeSpan
    (1 / IZR numSubIntervals) (1 / IZR numSubIntervals) out
  = slerp_frames (Z.to_nat numSubIntervals) Q1 Q2 initialTime timeSpan
      (1 / IZR numSubIntervals) (1 / IZR numSubIntervals) out.
Proof.
  intros H.
  replace (IZR numSubIntervals) with (INR (Z.to_nat numSubIntervals))
    by (rewrite INR_IZR_INZ, Z2Nat.id by lia; reflexivity).
  change (1 / INR (Z.to_nat numSubIntervals))
    with (INR 1 / INR (Z.to_nat numSubIntervals)) at 2 4.
  apply slerp_frames_fuel; lia.
Qed.

(** *** The 360 degree sweep *)

Lemma roundTime_0 : roundTime 0 = 0.
Proof.
  unfold roundTime. replace (0 * 1000000) with (IZR 0) by lra.
  rewrite Math_round_IZR. lra.
Qed.

Lemma roundTime_1 : roundTime 1 = 1.
Proof.
  unfold roundTime. replace (1 * 1000000) with (IZR 1000000) by lra.
  rewrite Math_round_IZR. lra.
Qed.

Lemma mergedTimes_sweep :
  sort_numbers (Set_addEach roundTime (times zeroCurve)
                  (Set_addEach roundTime (times zeroCurve)
                     (Set_addEach roundTime (times sweepX) []))) = [0; 1].
Proof.
  unfold Set_addEach; simpl. rewrite roundTime_0, roundTime_1.
  rewrite (Set_add_new [] 0) by (simpl; tauto). simpl.
  rewrite (Set_add_new [0] 1) by (simpl; intros [H|[]]; lra). simpl.
  rewrite (Set_add_old [0; 1] 0) by (simpl; tauto).
  rewrite (Set_add_old [0; 1] 1) by (simpl; tauto).
  rewrite (Set_add_old [0; 1] 0) by (simpl; tauto).
  rewrite (Set_add_old [0; 1] 1) by (simpl; tauto).
  unfold sort_numbers, Array_sort. simpl. js_cmp. reflexivity.
Qed.

Lemma interpolateValue_first v0 v1 : interpolateValue [0; 1] [v0; v1] 0 = v0.
Proof. unfold interpolateValue. simpl. js_cmp. reflexivity. Qed.

Lemma interpolateValue_last v0 v1 : interpolateValue [0; 1] [v0; v1] 1 = v1.
Proof. unfold interpolateValue, geb. simpl. js_cmp. reflexivity. Qed.

Lemma euler_zero : eulerToQuaternionByOrder 0 0 0 "ZXY" = Quat.new 0 0 0 1.
Proof.
  unfold eulerToQuaternionByOrder, eulerToQuaternionZXY. simpl.
  replace (0 / 2) with 0 by lra. rewrite sin_0, cos_0. f_equal; lra.
Qed.

Lemma euler_full_turn : eulerToQuaternionByOrder (2 * PI) 0 0 "ZXY" = Quat.new 0 0 0 (-1).
Proof.
  unfold eulerToQuaternionByOrder, eulerToQuaternionZXY. simpl.
  replace (0 / 2) with 0 by lra. replace (2 * PI / 2) with PI by lra.
  rewrite sin_0, cos_0, sin_PI, cos_PI. f_equal; lra.
Qed.

Lemma slerp_identity t :
  slerp (Quat.new 0 0 0 1) (Quat.new 0 0 0 1) t = Quat.new 0 0 0 1.
Proof.
  unfold slerp. simpl.
  replace (0 * 0 + 0 * 0 + 0 * 0 + 1 * 1) with 1 by lra.
  unfold gtb, Math_abs. rewrite Rabs_R1. js_cmp.
  replace ((0 + (0 - 0) * t) * (0 + (0 - 0) * t) + (0 + (0 - 0) * t) * (0 + (0 - 0) * t)
           + (0 + (0 - 0) * t) * (0 + (0 - 0) * t) + (1 + (1 - 1) * t) * (1 + (1 - 1) * t))
    with 1 by lra.
  rewrite sqrt_1. js_cmp. f_equal; lra.
Qed.

Lemma Math_atan2_0_1 : Math_atan2 0 1 = 0.
Proof. unfold Math_atan2. js_cmp. replace (0 / 1) with 0 by lra. apply atan_0. Qed.

Lemma quaternionToEuler_identity : quaternionToEuler (Quat.new 0 0 0 1) = Vec3.new 0 0 0.
Proof.
  unfold quaternionToEuler. simpl.
  replace (2 * (0 * 0 + 1 * 0)) with 0 by lra.
  unfold geb, Math_abs. rewrite Rabs_R0. js_cmp.
  replace (- (2 * (0 * 0 - 1 * 0))) with 0 by lra.
  replace (1 - 2 * (0 * 0 + 0 * 0)) with 1 by lra.
  rewrite Math_atan2_0_1, asin_0. reflexivity.
Qed.

Lemma interpolateRotations_sweep :
  interpolateRotations sweepX zeroCurve zeroCurve "ZXY"
  = ([0; 1 / 2; 1], [0; 0; 0; 0; 0; 0; 2 * PI; 0; 0]).
Proof.
  unfold interpolateRotations. rewrite mergedTimes_sweep.
  cbn [map times values sweepX zeroCurve].
  rewrite !interpolateValue_first, !interpolateValue_last.
  cbn [rotation_loop]. unfold rotation_step. cbn [isNaN orb].
  unfold Math_abs, geb.
  replace (360 - 0) with 360 by lra. replace (0 - 0) with 0 by lra.
  rewrite Rabs_R0. rewrite (Rabs_pos_eq 360) by lra. js_cmp. cbn [orb].
  unfold Math_max3. rewrite (Rmax_left 360 0) by lra. rewrite (Rmax_left 360 0) by lra.
  replace (360 / 180) with (IZR 2) by lra. rewrite Math_ceil_IZR.
  unfold degToRad.
  replace (0 * PI / 180) with 0 by lra.
  replace (360 * PI / 180) with (2 * PI) by lra.
  rewrite euler_zero, euler_full_turn. cbn [Quat.x Quat.y Quat.z Quat.w].
  replace (0 * 0 + 0 * 0 + 0 * 0 + 1 * -1) with (-1) by lra. js_cmp.
  replace (- 0) with 0 by lra. replace (- -1) with 1 by lra.
  change (Z.to_nat 2) with 2%nat. cbn [slerp_frames].
  replace (1 / 2 + 1 / 2) with 1 by lra.
  rewrite (ltb_true (1 / 2) 1) by lra.
  rewrite (ltb_false 1 1) by lra.
  rewrite slerp_identity. rewrite quaternionToEuler_identity.
  unfold push_frame. cbn [fst snd app Vec3.x Vec3.y Vec3.z].
  replace (0 + 1 / 2 * (1 - 0)) with (1 / 2) by lra. reflexivity.
Qed.

(** The track of the sweep: three keys, each the identity. *)
Lemma generateQuaternions_sweep :
  generateQuaternions sweepX zeroCurve zeroCurve "ZXY"
  = Some (mkQuatTrack [0; 1 / 2; 1] [Quat.identity; Quat.identity; Quat.identity]).
Proof.
  unfold generateQuaternions. rewrite interpolateRotations_sweep.
  cbn [fst snd length Nat.modulo Nat.eqb negb Nat.mul Nat.add Nat.divmod].
  cbn [quaternion_loop Nat.ltb Nat.leb Nat.add app lastOf length Nat.sub nth_error].
  rewrite euler_zero, euler_full_turn.
  cbn [Quat.x Quat.y Quat.z Quat.w quaternion_loop Nat.ltb Nat.leb Nat.add app lastOf
       length Nat.sub nth_error Nat.eqb negb option_map].
  replace (0 * 0 + 0 * 0 + 0 * 0 + 1 * 1) with 1 by lra. js_cmp.
  cbn [Quat.x Quat.y Quat.z Quat.w quaternion_loop Nat.ltb Nat.leb Nat.add app lastOf
       length Nat.sub nth_error Nat.eqb negb option_map].
  replace (0 * 0 + 0 * 0 + 0 * 0 + 1 * -1) with (-1) by lra. js_cmp.
  replace (- 0) with 0 by lra. replace (- -1) with 1 by lra.
  reflexivity.
Qed.

(** C1, as amended.  For X keys 0 degrees at t = 0 and 360 degrees at t = 1
    with Y and Z constantly 0, the assembled rotation track has exactly the
    three keys t = 0, 0.5 and 1, and its quaternion at t = 0.5 is the
    identity (0, 0, 0, 1): the two end points are the same rotation, and the
    shortest-arc slerp between them stays on it. *)
Theorem sweep_track_has_three_identity_keys :
  exists track,
    generateQuaternions sweepX zeroCurve zeroCurve "ZXY" = Some track
    /\ track_times track = [0; 1 / 2; 1]
    /\ length (track_quats track) = 3%nat
    /\ nth_error (track_quats track) 1 = Some (Quat.new 0 0 0 1).
Proof.
  eexists. split; [apply generateQuaternions_sweep|].
  cbn [track_times track_quats]. repeat split.
Qed.

(** C1, as the specification states it, fails: the quaternion at t = 0.5 is
    neither (1, 0, 0, 0) nor its negation. *)
Lemma sweep_midpoint_is_not_a_half_turn :
  ~ (exists track,
       generateQuaternions sweepX zeroCurve zeroCurve "ZXY" = Some track
       /\ track_times track = [0; 1 / 2; 1]
       /\ (nth_error (track_quats track) 1 = Some (Quat.new 1 0 0 0)
           \/ nth_error (track_quats track) 1 = Some (Quat.new (-1) 0 0 0))).
Proof.
  intros (track & Htrack & _ & Hmid).
  rewrite generateQuaternions_sweep in Htrack. injection Htrack as <-.
  cbn [track_quats nth_error] in Hmid. unfold Quat.identity in Hmid.
  destruct Hmid as [H|H]; injection H as H0 H1; lra.
Qed.

End FbxFacts.

(** ** Quaternion unrolling *)

Module UnrollFacts.

Import JS Fbx JSFacts Samples.

Lemma unrolled_snoc qs q :
  unrolled qs ->
  match lastOf qs with Some p => 0 <= Quat.dot p q | None => True end ->
  unrolled (qs ++ [q]).
Proof.
  induction qs as [|a qs IH]; intros Hu Hl; [exact I|].
  destruct qs as [|b qs].
  - cbn in *. auto.
  - cbn [app unrolled] in *. destruct Hu as [Hab Hu]. split; [assumption|].
    apply IH; [assumption|].
    unfold lastOf in *. cbn [length Nat.sub] in *.
    rewrite Nat.sub_0_r in *. cbn [nth_error] in Hl.
    destruct (length qs) eqn:E; cbn in *; assumption.
Qed.

Lemma dot_neg p q : Quat.dot p (Quat.neg q) = - Quat.dot p q.
Proof. unfold Quat.dot, Quat.neg. cbn. ring. Qed.

(** The loop of [generateQuaternions] never reads a missing predecessor and
    keeps the track unrolled. *)
Lemma quaternion_loop_unrolled order vals : forall i quats,
  (i = 0%nat -> quats = []) -> (i <> 0%nat -> quats <> []) -> unrolled quats ->
  exists res, quaternion_loop order vals i quats = Some res /\ unrolled res.
Proof.
  remember (length vals) as n eqn:En. revert vals En.
  induction n as [n IH] using lt_wf_ind. intros vals En i quats H0 Hpos Hu.
  assert (IH' : forall vals', (length vals' < length vals)%nat -> forall i quats,
             (i = 0%nat -> quats = []) -> (i <> 0%nat -> quats <> []) -> unrolled quats ->
             exists res, quaternion_loop order vals' i quats = Some res /\ unrolled res).
  { intros vals' Hlt. apply (IH (length vals')); [lia|reflexivity]. }
  clear IH En. rename IH' into IH.
  destruct vals as [|xRad [|yRad [|zRad vals']]]; cbn [quaternion_loop]; eauto.
  set (quat := eulerToQuaternionByOrder xRad yRad zRad order).
  set (resultQuat := Quat.new (Quat.x quat) (Quat.y quat) (Quat.z quat) (Quat.w quat)).
  destruct (Nat.ltb 0 i) eqn:Ei.
  - apply Nat.ltb_lt in Ei.
    destruct (lastOf quats) as [prevQuat|] eqn:El.
    + apply IH; [cbn; lia | lia | intros _ Hq; destruct quats; discriminate | ].
      apply unrolled_snoc; [assumption|]. rewrite El.
      change (Quat.x prevQuat * Quat.x resultQuat + Quat.y prevQuat * Quat.y resultQuat
              + Quat.z prevQuat * Quat.z resultQuat + Quat.w prevQuat * Quat.w resultQuat)
        with (Quat.dot prevQuat resultQuat).
      change (Quat.new (- Quat.x resultQuat) (- Quat.y resultQuat)
                       (- Quat.z resultQuat) (- Quat.w resultQuat))
        with (Quat.neg resultQuat).
      unfold ltb. destruct (Rlt_dec (Quat.dot prevQuat resultQuat) 0).
      * rewrite dot_neg. lra.
      * lra.
    + exfalso. apply Hpos; [lia|].
      unfold lastOf in El. apply nth_error_None in El.
      destruct quats; [reflexivity|cbn in El; lia].
  - apply Nat.ltb_ge in Ei. assert (i = 0%nat) by lia. rewrite (H0 H).
    apply IH; [cbn; lia | lia | intros _; discriminate | exact I].
Qed.

Lemma unrolled_nth qs : unrolled qs ->
  forall i q q', nth_error qs i = Some q -> nth_error qs (S i) = Some q' ->
                 0 <= Quat.dot q q'.
Proof.
  induction qs as [|a qs IH]; intros Hu i q q' Hq Hq'; [destruct i; discriminate|].
  destruct qs as [|b qs]; [destruct i; cbn in Hq'; [discriminate|destruct i; discriminate]|].
  destruct Hu as [Hab Hu]. destruct i as [|i].
  - cbn in Hq, Hq'. injection Hq as <-. injection Hq' as <-. assumption.
  - apply (IH Hu i); assumption.
Qed.

Lemma generateQuaternions_unrolled x y z order :
  exists track, generateQuaternions x y z order = Some track /\ unrolled (track_quats track).
Proof.
  unfold generateQuaternions.
  destruct (negb _); [eexists; split; [reflexivity|exact I]|].
  destruct (negb _); [eexists; split; [reflexivity|exact I]|].
  destruct (quaternion_loop_unrolled order (snd (interpolateRotations x y z order)) 0 [])
    as (res & -> & Hres); [reflexivity | congruence | exact I |].
  eexists; split; [reflexivity|exact Hres].
Qed.

(** C2.  Whatever the three axis curves are, [generateQuaternions] returns a
    track (it never throws), and every quaternion of the track has a
    non-negative dot product with the one before it. *)
Theorem adjacent_quaternions_have_nonnegative_dot x y z order :
  exists track,
    generateQuaternions x y z order = Some track
    /\ forall i q q',
         nth_error (track_quats track) i = Some q ->
         nth_error (track_quats track) (S i) = Some q' ->
         0 <= Quat.dot q q'.
Proof.
  destruct (generateQuaternions_unrolled x y z order) as (track & Ht & Hu).
  exists track. split; [assumption|]. apply unrolled_nth, Hu.
Qed.

(** C2 on the 360 degree sweep: the three keys of its track. *)
Lemma adjacent_quaternions_witness :
  exists track,
    generateQuaternions sweepX zeroCurve zeroCurve "ZXY" = Some track
    /\ forall i q q',
         nth_error (track_quats track) i = Some q ->
         nth_error (track_quats track) (S i) = Some q' ->
         0 <= Quat.dot q q'.
Proof.
  exact (adjacent_quaternions_have_nonnegative_dot sweepX zeroCurve zeroCurve "ZXY").
Defined.

End UnrollFacts.

(** ** String properties of the binary reader *)

Module FbxBinaryFacts.

Import JS FbxBinary Utf8Invariants.
Local Open Scope Z_scope.

(** C9 (the code departs from it).  The property ['S'] of length 4 holding
    the bytes ['A'; 0; 1; 'B'] decodes to ["A"]: [readArrayAsString] cuts
    the bytes at the first NUL, so the sentinel never reaches the test that
    would swap the halves into ["B::A"]. *)
Theorem sentinel_string_is_cut_at_the_null :
  readProperty (mkReader [83; 4; 0; 0; 0; 65; 0; 1; 66] 0)
  = Some (Ret (PString [65], mkReader [83; 4; 0; 0; 0; 65; 0; 1; 66] 9)).
Proof. reflexivity. Qed.

Lemma Zrange_check (P : Z -> bool) lo n :
  forallb P (Zrange lo n) = true -> forall b, lo <= b < lo + Z.of_nat n -> P b = true.
Proof.
  intros H b Hb. rewrite forallb_forall in H. apply H.
  unfold Zrange. apply in_map_iff. exists (Z.to_nat (b - lo)). split; [lia|].
  apply in_seq. lia.
Qed.

(** A byte of a range has bits under a mask, checked over the range. *)
Lemma masked_nonzero mask lo n b :
  forallb (fun b => negb (Z.land b mask =? 0)) (Zrange lo n) = true ->
  lo <= b < lo + Z.of_nat n -> Z.land b mask <> 0.
Proof.
  intros H Hb.
  pose proof (Zrange_check (fun b => negb (Z.land b mask =? 0)) lo n H b Hb) as Hc.
  apply negb_true_iff, Z.eqb_neq in Hc. assumption.
Qed.

Lemma utf8_lead_ok b :
  b <> 0 ->
  nonzero (fst (utf8_lead b))
  /\ match snd (utf8_lead b) with Some p => pending_ok p | None => True end.
Proof.
  intros Hb. unfold utf8_lead.
  destruct (b <=? 0x7F) eqn:E1; [cbn; split; [repeat constructor; assumption|exact I]|].
  destruct ((0xC2 <=? b) && (b <=? 0xDF)) eqn:E2.
  { cbn. split; [constructor|]. split; cbn; [apply Z.land_nonneg; lia|]. left.
    apply (masked_nonzero 0x1F 0xC2 30); [reflexivity|lia]. }
  destruct ((0xE0 <=? b) && (b <=? 0xEF)) eqn:E3.
  { cbn. split; [constructor|]. split; cbn; [apply Z.land_nonneg; lia|].
    destruct (b =? 0xE0) eqn:E0.
    - right. intros c Hc.
      assert (Hu : (if b =? 0xED then 0x9F else 0xBF) <= 0xBF) by (destruct (b =? 0xED); lia).
      apply (masked_nonzero 0x3F 0xA0 32); [reflexivity|lia].
    - left. apply (masked_nonzero 0xF 0xE1 15); [reflexivity|lia]. }
  destruct ((0xF0 <=? b) && (b <=? 0xF4)) eqn:E4.
  { cbn. split; [constructor|]. split; cbn; [apply Z.land_nonneg; lia|].
    destruct (b =? 0xF0) eqn:E0.
    - right. intros c Hc.
      assert (Hu : (if b =? 0xF4 then 0x8F else 0xBF) <= 0xBF) by (destruct (b =? 0xF4); lia).
      apply (masked_nonzero 0x3F 0x90 48); [reflexivity|lia].
    - left. apply (masked_nonzero 0x7 0xF1 4); [reflexivity|lia]. }
  cbn. split; [repeat constructor; lia|exact I].
Qed.

Lemma continuation_nonzero p b :
  pending_ok p -> lower p <= b <= upper p ->
  0 < Z.lor (Z.shiftl (code_point p) 6) (Z.land b 0x3F).
Proof.
  intros [Hnn Hok] Hb.
  assert (H1 : 0 <= Z.shiftl (code_point p) 6) by (apply Z.shiftl_nonneg; assumption).
  assert (H2 : 0 <= Z.land b 0x3F) by (apply Z.land_nonneg; lia).
  assert (H3 : 0 <= Z.lor (Z.shiftl (code_point p) 6) (Z.land b 0x3F))
    by (apply Z.lor_nonneg; split; assumption).
  enough (Z.lor (Z.shiftl (code_point p) 6) (Z.land b 0x3F) <> 0) by lia.
  intros H0. apply Z.lor_eq_0_iff in H0 as [Ha Hc].
  destruct Hok as [Hcp|Hr].
  - apply Z.shiftl_eq_0_iff in Ha; [contradiction|lia].
  - apply (Hr b Hb Hc).
Qed.

Lemma utf8_decode_nonzero bytes : forall st,
  nonzero bytes ->
  match st with Some p => pending_ok p | None => True end ->
  nonzero (utf8_decode st bytes).
Proof.
  induction bytes as [|b rest IH]; intros st Hb Hst; cbn [utf8_decode].
  - destruct st; [constructor; [lia|constructor]|constructor].
  - inversion Hb as [|? ? Hb0 Hrest]; subst.
    destruct (utf8_lead_ok b Hb0) as [Hl1 Hl2].
    destruct st as [p|].
    + destruct ((lower p <=? b) && (b <=? upper p)) eqn:E.
      * assert (Hr : lower p <= b <= upper p) by lia.
        pose proof (continuation_nonzero p b Hst Hr) as Hcp.
        destruct (bytes_needed p) as [|[|n]].
        -- constructor; [lia|]. apply IH; [assumption|exact I].
        -- constructor; [lia|]. apply IH; [assumption|exact I].
        -- apply IH; [assumption|]. split; cbn [code_point]; [lia|left; lia].
      * constructor; [lia|]. apply Forall_app. split; [assumption|].
        apply IH; assumption.
    + apply Forall_app. split; [assumption|]. apply IH; assumption.
Qed.

Lemma utf16_nonzero cp : cp <> 0 -> nonzero (utf16 cp).
Proof.
  intros H. unfold utf16. destruct (cp <? 0x10000) eqn:E.
  - repeat constructor. assumption.
  - assert (0 <= Z.shiftr (cp - 0x10000) 10) by (apply Z.shiftr_nonneg; lia).
    assert (0 <= Z.land (cp - 0x10000) 0x3FF) by (apply Z.land_nonneg; lia).
    repeat constructor; lia.
Qed.

Lemma TextDecoder_decode_nonzero bytes : nonzero bytes -> nonzero (TextDecoder_decode bytes).
Proof.
  intros H. pose proof (utf8_decode_nonzero bytes None H I) as Hd.
  unfold TextDecoder_decode.
  assert (Hf : forall cps, nonzero cps -> nonzero (flat_map utf16 cps)).
  { induction 1 as [|c cps Hc _ IH]; cbn; [constructor|].
    apply Forall_app. split; [apply utf16_nonzero, Hc|assumption]. }
  destruct (utf8_decode None bytes) as [|c cps]; [constructor|].
  assert (Hcps : nonzero cps) by (inversion Hd; assumption).
  destruct c; try (apply Hf; assumption).
  repeat (match goal with |- context [match ?p with _ => _ end] => destruct p end;
          try (apply Hf; assumption)).
Qed.

Lemma has_sentinel_nonzero s : nonzero s -> has_sentinel s = false.
Proof.
  induction 1 as [|c s Hc Hs IH]; [reflexivity|].
  cbn [has_sentinel]. destruct s as [|d s']; [reflexivity|].
  rewrite IH. replace (c =? 0) with false by (symmetry; apply Z.eqb_neq; assumption).
  reflexivity.
Qed.

Lemma before_null_nonzero bytes : nonzero (slice bytes 0 (nullIndex bytes)).
Proof.
  unfold slice. cbn [skipn].
  induction bytes as [|b rest IH]; cbn [nullIndex firstn]; [constructor|].
  destruct (b =? 0) eqn:E; cbn [firstn]; [constructor|].
  constructor; [apply Z.eqb_neq; assumption|assumption].
Qed.

Lemma readArrayAsString_no_sentinel data len :
  has_sentinel (fst (readArrayAsString data len)) = false.
Proof.
  unfold readArrayAsString. cbn.
  apply has_sentinel_nonzero, TextDecoder_decode_nonzero, before_null_nonzero.
Qed.

(** X1.  For every input the ['S'] case returns the decoded bytes that
    precede the first NUL, unchanged: the branch that swaps and joins is
    dead. *)
Lemma readProperty_S_never_swaps data :
  readProperty_S data
  = JS.bind (readUint32 data)
      (fun '(len, data) => Ret (readArrayAsString data (Z.to_nat len))).
Proof.
  unfold readProperty_S. destruct (readUint32 data) as [[len d]|e]; [|reflexivity].
  cbn [JS.bind]. pose proof (readArrayAsString_no_sentinel d (Z.to_nat len)) as H.
  destruct (readArrayAsString d (Z.to_nat len)) as [value d']. cbn [fst] in H.
  rewrite H. reflexivity.
Qed.

End FbxBinaryFacts.

(** ** The retargeter *)

Module RetargetFacts.

Import JS Retarget JSFacts Samples.
Local Open Scope string_scope.

(** *** The table of transforms *)

(** The pair the loop of [computeRetargetTransforms] stores for a bone. *)
Lemma computeRetargetTransforms_table :
  computeRetargetTransforms
  = Ret (map (fun '(mixamoName, q_a) =>
                (mixamoName,
                 mkTransform
                   (if has ROTATE_WBA_L_SET mixamoName then Quat.multiply Q_ARM_R q_a
                    else if has ROTATE_WBA_R_SET mixamoName then Quat.multiply Q_ARM_L q_a
                    else q_a)
                   (if has ROTATE_WAB_L_SET mixamoName
                    then Quat.multiply (Quat.conjugate (Quat.clone q_a)) Q_ARM_L
                    else if has ROTATE_WAB_R_SET mixamoName
                    then Quat.multiply (Quat.conjugate (Quat.clone q_a)) Q_ARM_R
                    else Quat.conjugate (Quat.clone q_a))))
           MIXAMO_MATRIX_LOCAL).
Proof. reflexivity. Qed.

Lemma sin_half_arm_angle_pos : 0 < sin (ARM_ANGLE / 2).
Proof. unfold ARM_ANGLE. pose proof PI_RGT_0. apply sin_gt_0; lra. Qed.

Lemma Q_ARM_R_components :
  Q_ARM_R = Quat.new 0 0 (- sin (ARM_ANGLE / 2)) (cos (ARM_ANGLE / 2)).
Proof.
  unfold Q_ARM_R, Quat.fromAxisAngle.
  replace (- ARM_ANGLE / 2) with (- (ARM_ANGLE / 2)) by lra.
  rewrite sin_neg, cos_neg. f_equal; lra.
Qed.

(** The rotation by 35 degrees does move the rest orientation of the left arm. *)
Lemma LeftArm_rotation_differs : Quat.multiply Q_ARM_R Q_LEFT_SIDE <> Q_LEFT_SIDE.
Proof.
  rewrite Q_ARM_R_components. unfold Quat.multiply, Q_LEFT_SIDE.
  cbn [Quat.x Quat.y Quat.z Quat.w].
  intros H. pose proof sin_half_arm_angle_pos.
  pose proof (f_equal Quat.x H) as Hx. pose proof (f_equal Quat.w H) as Hw.
  cbn [Quat.x Quat.w] in Hx, Hw. lra.
Qed.

Ltac table_entry := do 2 eexists; repeat split; reflexivity.

(** C4, as amended.  The left forearm and the fifteen left finger bones have
    [q_l = rot(Z, -35 degrees) · q_a], the right forearm and the fifteen
    right finger bones have [q_l = rot(Z, +35 degrees) · q_a], and the two
    arms keep [q_l = q_a] (they take their adjustment on the right side:
    [q_r = q_a⁻¹ · rot(Z, ±35 degrees)]). *)
Theorem forearms_and_fingers_take_the_left_adjustment :
  Forall (left_transform_is (- (35 * PI / 180))) ("LeftForeArm" :: fingers "Left")
  /\ Forall (left_transform_is (35 * PI / 180)) ("RightForeArm" :: fingers "Right")
  /\ left_transform_is_rest "LeftArm"
  /\ left_transform_is_rest "RightArm"
  /\ (exists transform,
        Object_get RETARGET_TRANSFORMS "LeftArm" = Own transform
        /\ q_r transform
           = Quat.multiply (Quat.conjugate Q_LEFT_SIDE)
               (Quat.fromAxisAngle 0 0 1 (35 * PI / 180)))
  /\ (exists transform,
        Object_get RETARGET_TRANSFORMS "RightArm" = Own transform
        /\ q_r transform
           = Quat.multiply (Quat.conjugate Q_RIGHT_SIDE)
               (Quat.fromAxisAngle 0 0 1 (- (35 * PI / 180)))).
Proof.
  split; [repeat constructor; table_entry|].
  split; [repeat constructor; table_entry|].
  split; [table_entry|]. split; [table_entry|].
  split; eexists; split; reflexivity.
Qed.

(** C4, as the specification states it, fails on the left arm: its left
    transform is the rest orientation, which the rotation would change. *)
Lemma left_arm_has_no_left_adjustment :
  ~ Forall (left_transform_is (- (35 * PI / 180))) ("LeftArm" :: fingers "Left").
Proof.
  intros H. inversion H as [|? ? (q_a & transform & Ha & Ht & Hl) _]; subst.
  change (Object_get MIXAMO_MATRIX_LOCAL "LeftArm") with (Own Q_LEFT_SIDE) in Ha.
  injection Ha as <-.
  assert (Ht' : exists q, Object_get RETARGET_TRANSFORMS "LeftArm"
                          = Own (mkTransform Q_LEFT_SIDE q))
    by (eexists; reflexivity).
  destruct Ht' as [q Ht']. rewrite Ht' in Ht. injection Ht as <-.
  cbn [q_l] in Hl. apply LeftArm_rotation_differs. symmetry. exact Hl.
Qed.

(** *** Rotation tracks *)

Lemma flipZW_involutive q : flipZW (flipZW q) = q.
Proof. destruct q; unfold flipZW; cbn. f_equal; lra. Qed.

Lemma retargetQuats_undefined quats :
  retargetQuats Undefined quats = Ret (map flipZW quats).
Proof.
  induction quats as [|q qs IH]; [reflexivity|].
  unfold retargetQuats in *. cbn [mapM bind]. rewrite IH. reflexivity.
Qed.

(** X20.  When the lookup of the stripped name in [RETARGET_TRANSFORMS] is
    [undefined] (the branch [!transform] of the code: the name is no key of
    the table and no name inherited from [Object.prototype]),
    [retargetBoneTrack] returns a track whose quaternions are the input's
    with Z and W negated; and negating Z and W twice gives the quaternion
    back exactly. *)
Theorem unmapped_bone_is_only_flipped track :
  Object_get RETARGET_TRANSFORMS (fst (mapBoneName (bt_name track))) = Undefined ->
  (exists out,
     retargetBoneTrack track = Ret out
     /\ quats out = map flipZW (bt_quats track))
  /\ (forall q, flipZW q = Quat.new (Quat.x q) (Quat.y q) (- Quat.z q) (- Quat.w q))
  /\ (forall q, flipZW (flipZW q) = q).
Proof.
  intros H. split; [|split; [reflexivity|apply flipZW_involutive]].
  unfold retargetBoneTrack.
  destruct (mapBoneName (bt_name track)) as [mixamoName mmdName] eqn:E.
  cbn [fst] in H. rewrite H. rewrite retargetQuats_undefined. cbn [bind].
  assert (Hn : exists s, mmdName = Ret s).
  { unfold mapBoneName in E. injection E as E1 E2. subst mixamoName.
    pose proof (Object_get_not_inherited _ BONE_MAP _ H) as NI.
    destruct (Object_get BONE_MAP _); subst; eauto. contradiction. }
  destruct Hn as [s ->]. cbn [bind]. eexists; split; reflexivity.
Qed.

(** X20 on a tail bone, which the tables do not know. *)
Lemma unmapped_bone_witness :
  (exists out,
     retargetBoneTrack tailTrack = Ret out
     /\ quats out = map flipZW (bt_quats tailTrack))
  /\ (forall q, flipZW q = Quat.new (Quat.x q) (Quat.y q) (- Quat.z q) (- Quat.w q))
  /\ (forall q, flipZW (flipZW q) = q).
Proof. apply (unmapped_bone_is_only_flipped tailTrack). reflexivity. Defined.

(** C3.  The twelve names that every object inherits from
    [Object.prototype] are no keys of [RETARGET_TRANSFORMS]: such a bone has
    no precomputed transform.  Yet the lookup yields the inherited function,
    which [!transform] does not catch, and [transform.q_l] is [undefined]:
    for a track with at least one quaternion, [retargetBoneTrack] throws a
    [TypeError] at the first of them instead of negating Z and W.  So it is
    for the track ["mixamorig:constructor"] with the one quaternion
    (0.1, 0.2, 0.3, 0.4), where the specification expects
    (0.1, 0.2, -0.3, -0.4). *)
Theorem prototype_name_is_not_flipped :
  Forall (fun n =>
            Map_get String.eqb RETARGET_TRANSFORMS n = None
            /\ Map_get String.eqb BONE_MAP n = None
            /\ forall original times q quats,
                 retargetBoneTrack (mkBoneTrack n original times (q :: quats))
                 = Throw TypeError)
    Object_prototype_keys
  /\ fst (mapBoneName (bt_name constructorTrack)) = "constructor"
  /\ bt_quats constructorTrack = [Quat.new 0.1 0.2 0.3 0.4]
  /\ flipZW (Quat.new 0.1 0.2 0.3 0.4) = Quat.new 0.1 0.2 (- 0.3) (- 0.4)
  /\ retargetBoneTrack constructorTrack = Throw TypeError.
Proof.
  split.
  - repeat (constructor;
            [split; [reflexivity|split; [reflexivity|intros; reflexivity]]|]).
    constructor.
  - split; [reflexivity|]. split; [reflexivity|]. split; [|reflexivity].
    unfold flipZW. cbn [Quat.x Quat.y Quat.z Quat.w]. f_equal; lra.
Qed.

(** *** Position tracks *)

Lemma mapBoneName_Hips : mapBoneName "mixamorig:Hips" = ("Hips", Ret "センター").
Proof. reflexivity. Qed.

Lemma transform_of_Hips :
  Object_get RETARGET_TRANSFORMS "Hips"
  = Own (mkTransform (Quat.new 0.0065 0 0 0.99998)
           (Quat.conjugate (Quat.clone (Quat.new 0.0065 0 0 0.99998)))).
Proof. reflexivity. Qed.

Lemma retargetPosition_Hips :
  retargetPosition (Quat.new 0.0065 0 0 0.99998) [0; 100; 0]
  = Vec3.new 0 (-0.300676) (-0.10399792).
Proof.
  unfold retargetPosition, POSITION_SCALE, POSITION_OFFSET_Y.
  cbn [Quat.x Quat.y Quat.z Quat.w]. f_equal; lra.
Qed.

Lemma retargetPosition_identity px py pz :
  retargetPosition Quat.identity [px; py; pz]
  = Vec3.new (px / 12.5) (py / 12.5 - 8.3) (- (pz / 12.5)).
Proof.
  unfold retargetPosition, POSITION_SCALE, POSITION_OFFSET_Y, Quat.identity.
  cbn [Quat.x Quat.y Quat.z Quat.w]. f_equal; lra.
Qed.

Lemma retargetPositionTrack_hips :
  retargetPositionTrack hipsTrack
  = Ret (mkRetargetedPositionTrack "センター" "mixamorig:Hips" [0]
           [Vec3.new 0 (-0.300676) (-0.10399792)]).
Proof.
  unfold retargetPositionTrack, hipsTrack.
  cbn [pt_name pt_original_name pt_times pt_positions].
  rewrite mapBoneName_Hips, transform_of_Hips.
  cbn [bind q_l map]. rewrite retargetPosition_Hips. reflexivity.
Qed.

(** C5, as amended.  The hips sample (0, 100, 0) is retargeted to
    (0, -0.300676, -0.10399792): the sandwich uses the left transform of the
    hips, (0.0065, 0, 0, 0.99998), which is not the identity, before the
    scale 1/12.5, the Y offset -8.3 and the Z flip.  On a bone without a
    retarget transform the sandwich is the identity, and the same sample
    gives (0, -0.3, 0). *)
Theorem hips_sample_is_tilted_by_the_rest_orientation :
  retargetPositionTrack hipsTrack
  = Ret (mkRetargetedPositionTrack "センター" "mixamorig:Hips" [0]
           [Vec3.new 0 (-0.300676) (-0.10399792)])
  /\ retargetPositionTrack propTrack
     = Ret (mkRetargetedPositionTrack "Prop" "mixamorig:Prop" [0] [Vec3.new 0 (-0.3) 0])
  /\ forall px py pz,
       retargetPosition Quat.identity [px; py; pz]
       = Vec3.new (px / 12.5) (py / 12.5 - 8.3) (- (pz / 12.5)).
Proof.
  split; [apply retargetPositionTrack_hips|]. split; [|apply retargetPosition_identity].
  unfold retargetPositionTrack, propTrack.
  cbn [pt_name pt_original_name pt_times pt_positions].
  change (mapBoneName "mixamorig:Prop") with ("Prop", @Ret string "Prop").
  change (Object_get RETARGET_TRANSFORMS "Prop") with (@Undefined RetargetTransform).
  cbn [bind map]. rewrite retargetPosition_identity.
  do 3 f_equal. f_equal; lra.
Qed.

(** C5, as the specification states it, fails: the hips sample does not
    come out as (0, -0.3, 0). *)
Lemma hips_sample_is_not_mapped_to_the_axis :
  ~ (exists out,
       retargetPositionTrack hipsTrack = Ret out
       /\ positions out = [Vec3.new 0 (-0.3) 0]).
Proof.
  intros (out & Hout & Hp). rewrite retargetPositionTrack_hips in Hout.
  injection Hout as <-. cbn [positions] in Hp.
  injection Hp as Hy Hz. lra.
Qed.

End RetargetFacts.

(** ** The VMD writer: the buffer *)

Module BufferFacts.

Import JS VmdWriter VmdFormat.
Local Open Scope js_scope.
Local Open Scope nat_scope.

Lemma store_at_end pre b rest v :
  store (pre ++ b :: rest) (length pre) v = pre ++ v :: rest.
Proof.
  induction pre as [|p pre IH]; cbn; [reflexivity|]. rewrite IH. reflexivity.
Qed.

Lemma store_bytes_at_end bytes : forall pre rest,
  length bytes <= length rest ->
  store_bytes (pre ++ rest) (length pre) bytes = (pre ++ bytes) ++ skipn (length bytes) rest.
Proof.
  induction bytes as [|b bytes IH]; cbn [store_bytes length]; intros pre rest Hlen.
  - rewrite app_nil_r. reflexivity.
  - destruct rest as [|r rest]; [cbn in Hlen; lia|].
    rewrite store_at_end.
    replace (pre ++ b :: rest) with ((pre ++ [b]) ++ rest)
      by (rewrite <- app_assoc; reflexivity).
    replace (S (length pre)) with (length (pre ++ [b])) by (rewrite length_app; cbn; lia).
    rewrite IH by (cbn in Hlen; lia).
    rewrite <- !app_assoc. reflexivity.
Qed.

(** A write at the end of what has been written so far: [pre] is written,
    [rest] is still to be written. *)
Lemma setUint8_at pre rest off v :
  off = length pre -> 1 <= length rest ->
  setUint8 (pre ++ rest) off v = Ret ((pre ++ [(v mod 256)%Z]) ++ skipn 1 rest).
Proof.
  intros -> H. unfold setUint8. rewrite length_app.
  replace (Nat.ltb (length pre) (length pre + length rest)) with true
    by (symmetry; apply Nat.ltb_lt; lia).
  destruct rest as [|r rest]; [cbn in H; lia|].
  rewrite store_at_end. cbn [skipn]. rewrite <- app_assoc. reflexivity.
Qed.

Lemma setUint32_at pre rest off v :
  off = length pre -> 4 <= length rest ->
  setUint32 (pre ++ rest) off v = Ret ((pre ++ uint32_le v) ++ skipn 4 rest).
Proof.
  intros -> H. unfold setUint32. rewrite length_app.
  replace (Nat.leb (length pre + 4) (length pre + length rest)) with true
    by (symmetry; apply Nat.leb_le; lia).
  rewrite store_bytes_at_end by (cbn; lia). reflexivity.
Qed.

Lemma uint32_le_length v : length (uint32_le v) = 4.
Proof. reflexivity. Qed.

Lemma float32_le_length float32 v : length (float32_le float32 v) = 4.
Proof. unfold float32_le. destruct (float32 v) as [[[? ?] ?] ?]. reflexivity. Qed.

Lemma setFloat32_at float32 pre rest off v :
  off = length pre -> 4 <= length rest ->
  setFloat32 float32 (pre ++ rest) off v
  = Ret ((pre ++ float32_le float32 v) ++ skipn 4 rest).
Proof.
  intros -> H. unfold setFloat32. rewrite length_app.
  replace (Nat.leb (length pre + 4) (length pre + length rest)) with true
    by (symmetry; apply Nat.leb_le; lia).
  rewrite store_bytes_at_end by (rewrite float32_le_length; lia).
  rewrite float32_le_length. reflexivity.
Qed.

Lemma for_each_setUint8_at (f : nat -> Z) base n : forall s pre rest,
  length pre = base + s -> n <= length rest ->
  for_each (seq s n) (fun i dataView => setUint8 dataView (base + i) (f i)) (pre ++ rest)
  = Ret ((pre ++ map (fun i => (f i mod 256)%Z) (seq s n)) ++ skipn n rest).
Proof.
  induction n as [|n IH]; intros s pre rest Hpre Hn; cbn [seq for_each map skipn].
  - rewrite app_nil_r. reflexivity.
  - rewrite setUint8_at by lia. cbn [bind].
    destruct rest as [|r rest]; [cbn in Hn; lia|]. cbn [skipn].
    rewrite IH; [| rewrite length_app; cbn; lia | cbn in Hn; lia].
    rewrite <- !app_assoc. reflexivity.
Qed.

Lemma padded_length n bytes : length (padded n bytes) = n.
Proof. unfold padded. rewrite length_map, length_seq. reflexivity. Qed.

(** The loop that writes a name into a field of [n] bytes. *)
Lemma write_padded_at n bytes pre rest offset :
  offset = length pre -> n <= length rest ->
  for_each (seq 0 n)
    (fun i dataView =>
       setUint8 dataView (offset + i)
         (if Nat.ltb i (length bytes) then nth i bytes 0%Z else 0%Z))
    (pre ++ rest)
  = Ret ((pre ++ padded n bytes) ++ skipn n rest).
Proof.
  intros -> Hn.
  rewrite (for_each_setUint8_at
             (fun i => if Nat.ltb i (length bytes) then nth i bytes 0%Z else 0%Z))
    by lia.
  reflexivity.
Qed.

(** The loop that fills [n] bytes with a constant. *)
Lemma write_constant_at n c pre rest offset :
  offset = length pre -> n <= length rest -> (0 <= c < 256)%Z ->
  for_each (seq 0 n) (fun i dataView => setUint8 dataView (offset + i) c) (pre ++ rest)
  = Ret ((pre ++ repeat c n) ++ skipn n rest).
Proof.
  intros -> Hn Hc.
  rewrite (for_each_setUint8_at (fun _ => c)) by lia.
  do 3 f_equal.
  rewrite Z.mod_small by lia.
  clear. generalize 0. induction n as [|n IH]; intros s; cbn; [reflexivity|].
  rewrite IH. reflexivity.
Qed.

Lemma skipn_repeat_all {A} (a : A) n : skipn n (repeat a n) = [].
Proof. apply skipn_all2. rewrite repeat_length. lia. Qed.

End BufferFacts.

(** ** The VMD writer: records and the file *)

Module RecordFacts.

Import JS VmdWriter VmdFormat VmdInvariants BufferFacts Samples.
Local Open Scope js_scope.
Local Open Scope nat_scope.

Ltac lengths :=
  repeat rewrite ?length_app, ?padded_length, ?uint32_le_length, ?float32_le_length,
    ?length_skipn, ?repeat_length;
  cbn [length];
  try match goal with H : length (concat _) = _ |- _ => rewrite ?H end;
  lia.

(** [writeBoneFrame] at the end of what is written appends one record and
    moves the offset by 111. *)
Lemma writeBoneFrame_at sjis float32 pre rest offset kf p q :
  offset = length pre -> 111 <= length rest ->
  position kf = Some p -> rotation kf = Some q ->
  writeBoneFrame sjis float32 (pre ++ rest) offset kf
  = Ret ((pre ++ boneFrame sjis float32 (boneName kf) (frameNumber kf)
                   (writtenPosition p) (writtenRotation q))
         ++ skipn 111 rest, offset + 111).
Proof.
  intros Hoff Hlen Hp Hq. unfold writeBoneFrame. rewrite Hp, Hq.
  rewrite write_padded_at by lengths. cbn [bind defined].
  rewrite setUint32_at by lengths. cbn [bind].
  do 7 (rewrite (setFloat32_at float32) by lengths; cbn [bind]).
  rewrite write_constant_at by (try lengths; lia). cbn [bind].
  unfold boneFrame.
  rewrite !skipn_skipn. cbn [Nat.add]. rewrite <- !app_assoc.
  do 2 f_equal. lia.
Qed.

Lemma boneFrame_length sjis float32 n f p q :
  length (boneFrame sjis float32 n f p q) = 111.
Proof. unfold boneFrame. lengths. Qed.

Lemma records_length sjis float32 kfs :
  Forall keyframe_defined kfs ->
  length (concat (map (recordOf sjis float32) kfs)) = 111 * length kfs.
Proof.
  induction 1 as [|kf kfs [Hp Hq] _ IH]; [reflexivity|].
  cbn [map concat length]. rewrite length_app, IH. unfold recordOf.
  destruct (position kf); [|contradiction]. destruct (rotation kf); [|contradiction].
  rewrite boneFrame_length. lia.
Qed.

Lemma writeBoneFrames_at sjis float32 kfs : forall pre rest offset,
  Forall keyframe_defined kfs ->
  offset = length pre -> 111 * length kfs <= length rest ->
  writeBoneFrames sjis float32 kfs (pre ++ rest) offset
  = Ret ((pre ++ concat (map (recordOf sjis float32) kfs))
         ++ skipn (111 * length kfs) rest,
         offset + 111 * length kfs).
Proof.
  unfold writeBoneFrames.
  induction kfs as [|kf kfs IH]; intros pre rest offset Hdef Hoff Hlen.
  - cbn. rewrite app_nil_r. do 2 f_equal. lia.
  - inversion Hdef as [|? ? [Hp Hq] Hdef']; subst.
    destruct (position kf) as [p|] eqn:Ep; [|contradiction].
    destruct (rotation kf) as [q|] eqn:Eq; [|contradiction].
    cbn [foldM length map concat].
    rewrite (writeBoneFrame_at sjis float32 pre rest (length pre) kf p q)
      by (auto; cbn [length] in Hlen; lia).
    cbn [bind].
    rewrite IH; [ | assumption | rewrite length_app, boneFrame_length; lia
                | rewrite length_skipn; cbn [length] in Hlen; lia ].
    unfold recordOf at 2. rewrite Ep, Eq.
    rewrite skipn_skipn. rewrite <- !app_assoc.
    replace (111 * length kfs + 111) with (111 * S (length kfs)) by lia.
    replace (length pre + 111 + 111 * length kfs)
      with (length pre + 111 * S (length kfs)) by lia.
    reflexivity.
Qed.

Lemma ikEntry_length sjis n : length (ikEntry sjis n) = 21.
Proof. unfold ikEntry. lengths. Qed.

Lemma writeIkStates_at sjis names : forall pre rest offset,
  offset = length pre -> 21 * length names <= length rest ->
  foldM (writeIkState sjis) names (pre ++ rest, offset)
  = Ret ((pre ++ flat_map (ikEntry sjis) names) ++ skipn (21 * length names) rest,
         offset + 21 * length names).
Proof.
  induction names as [|n names IH]; intros pre rest offset Hoff Hlen.
  - cbn. rewrite app_nil_r. do 2 f_equal. lia.
  - cbn [foldM length flat_map]. unfold writeIkState at 1.
    cbn [length] in Hlen.
    rewrite write_padded_at by lengths. cbn [bind].
    rewrite setUint8_at by lengths. cbn [bind].
    rewrite IH; [ | lengths | lengths ].
    unfold ikEntry at 2.
    rewrite !skipn_skipn. rewrite <- !app_assoc. cbn [app].
    change (0 mod 256)%Z with 0%Z.
    replace (21 * length names + 1 + 20) with (21 * S (length names)) by lia.
    replace (offset + 20 + 1 + 21 * length names)
      with (offset + 21 * S (length names)) by lia.
    reflexivity.
Qed.

(** The writes of [convertToVMD] fill the buffer with the file of the
    specification, record by record. *)
Lemma writeVMD_file sjis float32 kfs :
  Forall keyframe_defined kfs ->
  writeVMD sjis float32 kfs
  = Ret (mkBlob (file sjis (map (recordOf sjis float32) kfs)) "application/octet-stream").
Proof.
  intros Hdef. unfold writeVMD.
  change (Nat.ltb 0 (length ikDisabledBones)) with true. cbv iota.
  change (length ikDisabledBones) with 6.
  replace (50 + 4 + 111 * length kfs + 4 + 23 * 0 + 4 + 4 + 4 + 4
           + (4 + 1 + 4 + 6 * (20 + 1)) * 1)
    with (209 + 111 * length kfs) by lia.
  set (totalSize := 209 + 111 * length kfs).
  change (ArrayBuffer totalSize) with ([] ++ repeat 0%Z totalSize).
  unfold totalSize at 1.
  rewrite write_padded_at; [ | reflexivity | rewrite repeat_length; lia ]. cbn [bind].
  rewrite write_constant_at by (try lengths; lia). cbn [bind].
  rewrite setUint32_at by lengths. cbn [bind].
  rewrite (writeBoneFrames_at sjis float32) by (try assumption; lengths). cbn [bind].
  pose proof (records_length sjis float32 kfs Hdef) as Hrec.
  do 6 (rewrite setUint32_at by lengths; cbn [bind]).
  rewrite setUint8_at by lengths. cbn [bind].
  rewrite setUint32_at by lengths. cbn [bind].
  rewrite (writeIkStates_at sjis) by (change (length ikDisabledBones) with 6; lengths).
  cbn [bind].
  rewrite !skipn_skipn.
  match goal with
  | |- context [skipn ?n (repeat 0%Z ?m)] =>
      replace n with m by (change (length ikDisabledBones) with 6; lia)
  end.
  rewrite skipn_repeat_all, app_nil_r.
  unfold file, header, propertySection, propertyKeyframe.
  rewrite length_map. cbn [app]. rewrite <- !app_assoc. reflexivity.
Qed.

Lemma propertySection_length sjis : length (propertySection sjis) = 4 + 135.
Proof.
  unfold propertySection, propertyKeyframe.
  repeat rewrite ?length_app, ?uint32_le_length.
  cbn [flat_map ikDisabledBones].
  repeat rewrite ?length_app, ?ikEntry_length. cbn [length]. lia.
Qed.

Lemma file_length sjis records :
  length (file sjis records) = 50 + 4 + length (concat records) + 4 * 4 + 4 + 135.
Proof.
  unfold file, header.
  repeat rewrite ?length_app, ?padded_length, ?uint32_le_length, ?repeat_length,
    ?propertySection_length.
  lia.
Qed.

(** C7, as amended.  [writeBoneFrame] stores, at [offset], the record of the
    keyframe in which every component is replaced on its own: a position
    component that is not finite becomes 0; of the rotation, X, Y and Z
    become 0 and W becomes 1 when they are not finite; a finite component
    is kept.  (So the identity is written when all four components of the
    rotation are non-finite, and a rotation with one non-finite component
    keeps the other three.)  The bytes outside the record are unchanged. *)
Theorem non_finite_components_are_replaced_one_by_one
    sjis float32 dataView offset keyframe p q :
  position keyframe = Some p -> rotation keyframe = Some q ->
  offset + 111 <= length dataView ->
  writeBoneFrame sjis float32 dataView offset keyframe
  = Ret (firstn offset dataView
         ++ boneFrame sjis float32 (boneName keyframe) (frameNumber keyframe)
              (Vec3.new (finite_or (Finite 0) (Vec3.x p))
                        (finite_or (Finite 0) (Vec3.y p))
                        (finite_or (Finite 0) (Vec3.z p)))
              (Quat.new (finite_or (Finite 0) (Quat.x q))
                        (finite_or (Finite 0) (Quat.y q))
                        (finite_or (Finite 0) (Quat.z q))
                        (finite_or (Finite 1) (Quat.w q)))
         ++ skipn (offset + 111) dataView,
         offset + 111).
Proof.
  intros Hp Hq Hlen.
  rewrite <- (firstn_skipn offset dataView) at 1.
  rewrite (writeBoneFrame_at sjis float32 _ _ offset keyframe p q);
    [ | rewrite length_firstn; lia | rewrite length_skipn; lia | assumption | assumption ].
  rewrite skipn_skipn, <- app_assoc.
  replace (111 + offset) with (offset + 111) by lia. reflexivity.
Qed.

(** C7 on a keyframe whose rotation has NaN as its X component and whose
    position has an infinite Y component. *)
Lemma non_finite_components_witness :
  writeBoneFrame ascii_sjis zero_float32 (ArrayBuffer 111) 0 brokenKeyframe
  = Ret (firstn 0 (ArrayBuffer 111)
         ++ boneFrame ascii_sjis zero_float32 (boneName brokenKeyframe)
              (frameNumber brokenKeyframe)
              (Vec3.new (finite_or (Finite 0) (Finite 1))
                        (finite_or (Finite 0) PosInfinity)
                        (finite_or (Finite 0) (Finite 3)))
              (Quat.new (finite_or (Finite 0) NaN)
                        (finite_or (Finite 0) (Finite 0.5))
                        (finite_or (Finite 0) (Finite 0.5))
                        (finite_or (Finite 1) (Finite 0.5)))
         ++ skipn (0 + 111) (ArrayBuffer 111),
         0 + 111).
Proof.
  apply (non_finite_components_are_replaced_one_by_one ascii_sjis zero_float32
           (ArrayBuffer 111) 0 brokenKeyframe
           (Vec3.new (Finite 1) PosInfinity (Finite 3)) brokenRotation).
  - reflexivity.
  - reflexivity.
  - unfold ArrayBuffer. rewrite repeat_length. lia.
Defined.

(** C7, as the specification states it, fails: a rotation with one
    non-finite component is not written as the identity. *)
Lemma one_non_finite_component_keeps_the_others :
  ~ (forall q : Quat.quat number,
       isFinite (Quat.x q) = false \/ isFinite (Quat.y q) = false
       \/ isFinite (Quat.z q) = false \/ isFinite (Quat.w q) = false ->
       writtenRotation q = Quat.new (Finite 0) (Finite 0) (Finite 0) (Finite 1)).
Proof.
  intros H. specialize (H brokenRotation (or_introl eq_refl)).
  unfold writtenRotation, brokenRotation in H. cbn [Quat.x Quat.y Quat.z Quat.w isFinite] in H.
  injection H as Hy _ _. lra.
Qed.

End RecordFacts.

(** ** The VMD writer: the keyframes *)

Module KeyframeFacts.

Import JS Retarget VmdWriter VmdFormat VmdInvariants JSFacts Samples.
Local Open Scope js_scope.

Lemma foldM_inv {A B} (P : A -> Prop) (f : A -> B -> js A) xs a r :
  (forall a x a', P a -> In x xs -> f a x = Ret a' -> P a') ->
  P a -> foldM f xs a = Ret r -> P r.
Proof.
  revert a. induction xs as [|x xs IH]; cbn; intros a Hf Ha H.
  - injection H as <-. assumption.
  - destruct (f a x) as [a'|e] eqn:E; cbn in H; [|discriminate].
    apply (IH a'); [ | | exact H].
    + intros a0 x0 a0' H0 Hin. apply Hf; [assumption | right; assumption].
    + apply (Hf a x a' Ha); [left; reflexivity | exact E].
Qed.

Lemma foldM_total {A B} (P : A -> Prop) (f : A -> B -> js A) xs a :
  (forall a x, P a -> In x xs -> exists a', f a x = Ret a' /\ P a') ->
  P a -> exists r, foldM f xs a = Ret r /\ P r.
Proof.
  revert a. induction xs as [|x xs IH]; cbn; intros a Hf Ha.
  - eauto.
  - destruct (Hf a x Ha (or_introl eq_refl)) as (a' & E & Ha'). rewrite E. cbn.
    apply IH; [|assumption].
    intros a0 x0 H0 Hin. apply Hf; [assumption | right; assumption].
Qed.




Lemma frames_defined_set m f kf :
  keyframe_defined kf -> frames_defined m -> frames_defined (Map_set Z.eqb m f kf).
Proof. intros Hd. apply Map_set_Forall; cbn; auto. Qed.


Lemma kmap_defined_set km n m :
  frames_defined m -> kmap_defined km -> kmap_defined (Map_set String.eqb km n m).
Proof. intros Hd. apply Map_set_Forall; cbn; auto. Qed.

Lemma positionTrack_step_set fps posTrack m time m' :
  positionTrack_step fps posTrack m time = Ret m' ->
  exists kf, m' = Map_set Z.eqb m (Math_round (time * fps)) kf
    /\ boneName kf = pname posTrack /\ frameNumber kf = Math_round (time * fps)
    /\ forall m0, positionTrack_step fps posTrack m0 time
                  = Ret (Map_set Z.eqb m0 (Math_round (time * fps)) kf).
Proof.
  unfold positionTrack_step.
  destruct (positionAt posTrack time) as [pos|]; cbn [bind]; [|discriminate].
  intros [= <-]. eexists. repeat split; reflexivity.
Qed.


Lemma interpolatePosition_defined track time :
  wf_positionTrack track -> exists p, interpolatePosition track time = Ret (Some p).
Proof.
  intros [Hne Hlen]. unfold interpolatePosition.
  destruct (findIndex _ (ptimes track)) as [idx|] eqn:E.
  - apply findIndex_Some in E.
    destruct (_ || _).
    + destruct (nth_error_defined (positions track) idx) as [q ->]; [lia|]. eauto.
    + destruct (nth_error_defined (positions track) (idx - 1)) as [q0 ->]; [lia|].
      destruct (nth_error_defined (positions track) idx) as [q1 ->]; [lia|].
      cbn [defined bind]. eauto.
  - destruct (lastOf_defined (positions track)) as [q ->]; [|eauto].
    intros Hq. rewrite Hq in Hlen. destruct (ptimes track); [contradiction|discriminate].
Qed.

Lemma positionAt_defined track time :
  wf_positionTrack track -> exists p, positionAt track time = Ret (Some p).
Proof.
  intros Hwf. unfold positionAt.
  destruct (findIndex _ (ptimes track)) as [idx|] eqn:E.
  - apply findIndex_Some in E. destruct Hwf as [_ Hlen].
    destruct (nth_error_defined (positions track) idx) as [q ->]; [lia|]. eauto.
  - apply interpolatePosition_defined, Hwf.
Qed.

Lemma positionTrack_step_defined fps posTrack m time :
  wf_positionTrack posTrack -> frames_defined m ->
  exists m', positionTrack_step fps posTrack m time = Ret m' /\ frames_defined m'.
Proof.
  intros Hp Hm. unfold positionTrack_step.
  destruct (positionAt_defined posTrack time Hp) as [p ->]. cbn [bind].
  eexists; split; [reflexivity|].
  apply frames_defined_set; [|assumption]. split; cbn; discriminate.
Qed.

Lemma positionTracks_step_defined fps names km posTrack :
  wf_positionTrack posTrack -> kmap_defined km ->
  exists km', positionTracks_step fps names km posTrack = Ret km' /\ kmap_defined km'.
Proof.
  intros Hp Hkm. unfold positionTracks_step.
  destruct (negb _); [|eauto].
  match goal with |- context [foldM ?f ?xs []] =>
    destruct (foldM_total frames_defined f xs []) as (m & -> & Hm) end.
  - intros a x Ha _. apply positionTrack_step_defined; assumption.
  - constructor.
  - cbn [bind]. eexists; split; [reflexivity|]. apply kmap_defined_set; assumption.
Qed.




Lemma kmap_defined_keyframes km :
  kmap_defined km ->
  Forall keyframe_defined
    (flat_map (fun boneKeyframes => Map_values boneKeyframes) (Map_values km)).
Proof.
  unfold Map_values at 2. induction 1 as [|[n m] km Hm _ IH]; cbn [map flat_map snd].
  - constructor.
  - apply Forall_app. split; [|assumption].
    unfold Map_values. apply Forall_map. exact Hm.
Qed.

Lemma positionTrackMap_In (tracks : list RetargetedPositionTrack) : forall m n pt,
  Map_get String.eqb
    (fold_left (fun m track => Map_set String.eqb m (pname track) track) tracks m) n
  = Some pt ->
  In pt tracks \/ In pt (map snd m).
Proof.
  induction tracks as [|t tracks IH]; cbn [fold_left]; intros m n pt H.
  - right. eapply Map_get_In, H.
  - apply IH in H as [H|H]; [left; right; assumption|].
    apply Map_set_values_in in H as [->|H]; [left; left; reflexivity|right; assumption].
Qed.

End KeyframeFacts.

(** ** The VMD writer: one record per bone and frame *)

Module CollectFacts.

Import JS Retarget VmdWriter VmdFormat VmdInvariants JSFacts KeyframeFacts Samples.
Local Open Scope js_scope.

Section Collect.

Variable localeCompare : string -> string -> R.
Variable normalize : Quat.t -> Quat.t.

Lemma interpolateQuat_defined track time :
  wf_boneTrack track -> exists q, interpolateQuat normalize track time = Ret (Some q).
Proof.
  intros [Hne Hlen]. unfold interpolateQuat.
  destruct (findIndex _ (times track)) as [idx|] eqn:E.
  - apply findIndex_Some in E.
    destruct (_ || _).
    + destruct (nth_error_defined (quats track) idx) as [q ->]; [lia|]. eauto.
    + destruct (nth_error_defined (quats track) (idx - 1)) as [q0 ->]; [lia|].
      destruct (nth_error_defined (quats track) idx) as [q1 ->]; [lia|].
      cbn [defined bind]. destruct (ltb (Math_abs _) _); eauto.
  - destruct (lastOf_defined (quats track)) as [q ->]; [|eauto].
    intros Hq. rewrite Hq in Hlen. destruct (times track); [contradiction|discriminate].
Qed.

Lemma rotationAt_defined track time :
  wf_boneTrack track -> exists q, rotationAt normalize track time = Ret (Some q).
Proof.
  intros Hwf. unfold rotationAt.
  destruct (findIndex _ (times track)) as [idx|] eqn:E.
  - apply findIndex_Some in E. destruct Hwf as [_ Hlen].
    destruct (nth_error_defined (quats track) idx) as [q ->]; [lia|]. eauto.
  - apply interpolateQuat_defined, Hwf.
Qed.

(** What one turn of the loop over a bone's times stores: a keyframe of the
    bone under the frame of the time, whatever the map held. *)
Lemma boneTrack_step_set fps track posTrack m time m' :
  boneTrack_step normalize fps track posTrack m time = Ret m' ->
  exists kf, m' = Map_set Z.eqb m (Math_round (time * fps)) kf
    /\ boneName kf = name track /\ frameNumber kf = Math_round (time * fps)
    /\ forall m0, boneTrack_step normalize fps track posTrack m0 time
                  = Ret (Map_set Z.eqb m0 (Math_round (time * fps)) kf).
Proof.
  unfold boneTrack_step.
  destruct (rotationAt normalize track time) as [rot|]; cbn [bind]; [|discriminate].
  destruct (match posTrack with Some p => positionAt p time | None => _ end) as [pos|];
    cbn [bind]; [|discriminate].
  intros [= <-]. eexists. repeat split; reflexivity.
Qed.

Lemma boneTrack_step_defined fps track posTrack m time :
  wf_boneTrack track ->
  match posTrack with Some p => wf_positionTrack p | None => True end ->
  frames_defined m ->
  exists m', boneTrack_step normalize fps track posTrack m time = Ret m'
             /\ frames_defined m'.
Proof.
  intros Ht Hp Hm. unfold boneTrack_step.
  destruct (rotationAt_defined track time Ht) as [q ->]. cbn [bind].
  assert (exists p, match posTrack with
                    | Some posTrack => positionAt posTrack time
                    | None => Ret (Some (Vec3.new 0 0 0)%R)
                    end = Ret (Some p)) as [p ->].
  { destruct posTrack as [pt|]; [apply positionAt_defined, Hp|eauto]. }
  cbn [bind]. eexists; split; [reflexivity|].
  apply frames_defined_set; [|assumption]. split; cbn; discriminate.
Qed.


Lemma boneTracks_step_defined fps ptm km track :
  wf_boneTrack track ->
  (forall n pt, Map_get String.eqb ptm n = Some pt -> wf_positionTrack pt) ->
  kmap_defined km ->
  exists km', boneTracks_step normalize fps ptm km track = Ret km' /\ kmap_defined km'.
Proof.
  intros Ht Hptm Hkm. unfold boneTracks_step.
  set (posTrack := Map_get String.eqb ptm (name track)).
  assert (Hp : match posTrack with Some p => wf_positionTrack p | None => True end).
  { destruct posTrack as [p|] eqn:E; [eapply Hptm, E|exact I]. }
  match goal with |- context [foldM ?f ?xs []] =>
    destruct (foldM_total frames_defined f xs []) as (m & -> & Hm) end.
  - intros a x Ha _. apply boneTrack_step_defined; assumption.
  - constructor.
  - cbn [bind]. eexists; split; [reflexivity|]. apply kmap_defined_set; assumption.
Qed.


(** A well-formed clip yields its keyframes, each with a position and a
    rotation: no lookup or interpolation throws. *)
Lemma collectKeyframes_defined clip fps :
  wf_clip clip ->
  exists keyframes,
    collectKeyframes localeCompare normalize clip fps = Ret keyframes
    /\ Forall keyframe_defined keyframes.
Proof.
  intros [Hb Hp]. unfold collectKeyframes.
  set (ptm := fold_left _ (positionTracks clip) []).
  assert (Hptm : forall n pt, Map_get String.eqb ptm n = Some pt -> wf_positionTrack pt).
  { intros n pt H. apply positionTrackMap_In in H as [H|[]].
    rewrite Forall_forall in Hp. apply Hp, H. }
  rewrite Forall_forall in Hb, Hp.
  destruct (foldM_total kmap_defined (boneTracks_step normalize fps ptm) (boneTracks clip) [])
    as (km & -> & Hkm).
  { intros a x Ha Hin. apply boneTracks_step_defined; auto. }
  { constructor. }
  cbn [bind].
  destruct (foldM_total kmap_defined
              (positionTracks_step fps (map name (boneTracks clip)))
              (positionTracks clip) km) as (km' & -> & Hkm').
  { intros a x Ha Hin. apply positionTracks_step_defined; auto. }
  { assumption. }
  cbn [bind]. eexists; split; [reflexivity|].
  apply kmap_defined_keyframes in Hkm'.
  rewrite Forall_forall in *. intros kf Hin. apply Hkm'.
  eapply Permutation_in; [symmetry; apply Array_sort_perm|exact Hin].
Qed.


End Collect.

(** *** A clip whose two keys fall on one frame *)

Ltac abs_cmp :=
  repeat match goal with
  | |- context [ltb (Math_abs ?x) ?c] =>
      first [ rewrite (ltb_true (Math_abs x) c)
                by (unfold Math_abs, Rabs; destruct (Rcase_abs x); lra)
            | rewrite (ltb_false (Math_abs x) c)
                by (unfold Math_abs, Rabs; destruct (Rcase_abs x); lra) ]
  end.





End CollectFacts.

(** ** The VMD writer: the blob of a clip *)

Module ConvertFacts.

Import JS Retarget VmdWriter VmdFormat VmdInvariants JSFacts BufferFacts RecordFacts
  KeyframeFacts CollectFacts Samples.
Local Open Scope js_scope.
Local Open Scope nat_scope.

Lemma skipn_prefix {A} (pre rest : list A) n :
  length pre = n -> skipn n (pre ++ rest) = rest.
Proof.
  intros <-. rewrite skipn_app, skipn_all, Nat.sub_diag. reflexivity.
Qed.

Section Convert.

Variable sjis : string -> list Z.
Variable float32 : number -> Z * Z * Z * Z.
Variable localeCompare : string -> string -> R.
Variable normalize : Quat.t -> Quat.t.

(** [convertToVMD] returns for every well-formed clip: the empty blob when
    no track has a key time, the file of the collected keyframes otherwise. *)
Lemma convertToVMD_defined clip fps :
  wf_clip clip ->
  exists blob,
    convertToVMD sjis float32 localeCompare normalize clip fps = Ret blob
    /\ match sortedTimes clip with
       | [] => blob = mkBlob [] ""
       | _ :: _ =>
           exists keyframes,
             collectKeyframes localeCompare normalize clip fps = Ret keyframes
             /\ Forall keyframe_defined keyframes
             /\ blob = mkBlob (file sjis (map (recordOf sjis float32) keyframes))
                         "application/octet-stream"
       end.
Proof.
  intros Hwf. unfold convertToVMD.
  destruct (sortedTimes clip) as [|t ts]; [eexists; split; reflexivity|].
  destruct (collectKeyframes_defined localeCompare normalize clip fps Hwf)
    as (kfs & Hc & Hd).
  rewrite Hc. cbn [bind]. rewrite (writeVMD_file sjis float32 kfs Hd).
  eexists; split; [reflexivity|]. exists kfs. auto.
Qed.

Lemma file_records_length keyframes :
  Forall keyframe_defined keyframes ->
  length (file sjis (map (recordOf sjis float32) keyframes))
  = 50 + 4 + 111 * length keyframes + 4 * 4 + 4 + 135.
Proof.
  intros Hd. rewrite file_length, (records_length sjis float32 keyframes Hd). reflexivity.
Qed.

Lemma file_property_section keyframes :
  Forall keyframe_defined keyframes ->
  skipn (50 + 4 + 111 * length keyframes + 4 * 4)
    (file sjis (map (recordOf sjis float32) keyframes))
  = propertySection sjis.
Proof.
  intros Hd. unfold file. rewrite !app_assoc. apply skipn_prefix.
  unfold header.
  repeat rewrite ?length_app, ?padded_length, ?uint32_le_length, ?repeat_length.
  rewrite (records_length sjis float32 keyframes Hd). lia.
Qed.

End Convert.

(** *** The clip with one key *)

Lemma sortedTimes_oneKey : sortedTimes oneKeyClip = [0%R].
Proof.
  unfold sortedTimes, oneKeyClip. cbn [positionTracks boneTracks fold_left].
  change (times oneKeyTrack) with [0%R].
  unfold Set_addEach. cbn [fold_left].
  rewrite (Set_add_new [] 0%R) by (simpl; tauto). reflexivity.
Qed.

Lemma wf_oneKeyClip : wf_clip oneKeyClip.
Proof.
  split; [|constructor]. constructor; [|constructor].
  split; [discriminate|reflexivity].
Qed.

Lemma wf_emptyClip : wf_clip emptyClip.
Proof. split; constructor. Qed.

Lemma collectKeyframes_oneKey localeCompare normalize :
  collectKeyframes localeCompare normalize oneKeyClip 30
  = Ret [mkKeyframe "センター" 0 (Some (Vec3_numbers (Vec3.new 0 0 0)%R))
           (Some (Quat_numbers (Quat.new 0 0 0 (-1))%R))].
Proof.
  unfold collectKeyframes, oneKeyClip.
  cbn [positionTracks boneTracks fold_left foldM].
  unfold boneTracks_step. cbn [Map_get].
  change (times oneKeyTrack) with [0%R].
  unfold Set_addEach. cbn [fold_left].
  rewrite (Set_add_new [] 0%R) by (simpl; tauto). cbn [app].
  unfold sort_numbers, Array_sort. cbn [fold_left insert_sorted foldM].
  unfold boneTrack_step.
  assert (Hrot : rotationAt normalize oneKeyTrack 0
                 = Ret (Some (Quat.new 0 0 0 (-1))%R)).
  { unfold rotationAt, oneKeyTrack. cbn [times quats findIndex]. abs_cmp. reflexivity. }
  rewrite Hrot. cbn [bind].
  rewrite (Math_round_small (0 * 30)) by lra.
  cbn [bind Map_set Z.eqb option_map name oneKeyTrack foldM map flat_map Map_values
       snd app].
  reflexivity.
Qed.

(** C6, as amended.  For a clip whose tracks are not empty and have as many
    values as times, [convertToVMD] returns a blob.  When no track has a key
    time the blob is empty.  Otherwise, with N the number of bone-frame
    records collected, its length is 50 + 4 + 111·N + 4·4 + 4 + 135: the
    property keyframe takes 4 + 1 + 4 + 6·21 = 135 bytes. *)
Theorem blob_length_counts_a_135_byte_property_keyframe
    sjis float32 localeCompare normalize clip fps :
  wf_clip clip ->
  exists blob,
    convertToVMD sjis float32 localeCompare normalize clip fps = Ret blob
    /\ match sortedTimes clip with
       | [] => length (blob_bytes blob) = 0
       | _ :: _ =>
           exists keyframes,
             collectKeyframes localeCompare normalize clip fps = Ret keyframes
             /\ length (blob_bytes blob)
                = 50 + 4 + 111 * length keyframes + 4 * 4 + 4 + 135
       end.
Proof.
  intros Hwf.
  destruct (convertToVMD_defined sjis float32 localeCompare normalize clip fps Hwf)
    as (blob & Hb & H).
  exists blob. split; [assumption|].
  destruct (sortedTimes clip) as [|t ts].
  - subst blob. reflexivity.
  - destruct H as (kfs & Hc & Hd & ->). exists kfs. split; [assumption|].
    cbn [blob_bytes]. apply file_records_length, Hd.
Qed.

(** C6 on the clip with one key: one record, 320 bytes. *)
Lemma blob_length_witness :
  exists blob,
    convertToVMD ascii_sjis zero_float32 byte_compare keep oneKeyClip 30 = Ret blob
    /\ match sortedTimes oneKeyClip with
       | [] => length (blob_bytes blob) = 0
       | _ :: _ =>
           exists keyframes,
             collectKeyframes byte_compare keep oneKeyClip 30 = Ret keyframes
             /\ length (blob_bytes blob)
                = 50 + 4 + 111 * length keyframes + 4 * 4 + 4 + 135
       end.
Proof.
  apply (blob_length_counts_a_135_byte_property_keyframe
           ascii_sjis zero_float32 byte_compare keep oneKeyClip 30).
  split; [|constructor]. constructor; [|constructor].
  split; [discriminate|reflexivity].
Defined.

(** C6 as stated fails: the clip with one key yields one record and a blob
    of 320 bytes, not 50 + 4 + 111 + 4·4 + 4 + 125 = 310; the clip without
    tracks yields no record and an empty blob, not one of 199 bytes. *)
Lemma one_key_blob_is_ten_bytes_longer :
  (exists keyframes blob,
     collectKeyframes byte_compare keep oneKeyClip 30 = Ret keyframes
     /\ convertToVMD ascii_sjis zero_float32 byte_compare keep oneKeyClip 30 = Ret blob
     /\ length keyframes = 1
     /\ length (blob_bytes blob) = 320
     /\ length (blob_bytes blob) <> 50 + 4 + 111 * length keyframes + 4 * 4 + 4 + 125)
  /\ (exists blob,
        convertToVMD ascii_sjis zero_float32 byte_compare keep emptyClip 30 = Ret blob
        /\ length (blob_bytes blob) = 0
        /\ length (blob_bytes blob) <> 50 + 4 + 111 * 0 + 4 * 4 + 4 + 125).
Proof.
  split.
  - destruct (convertToVMD_defined ascii_sjis zero_float32 byte_compare keep
                oneKeyClip 30 wf_oneKeyClip) as (blob & Hb & H).
    rewrite sortedTimes_oneKey in H. destruct H as (kfs & Hc & Hd & ->).
    exists kfs. eexists. split; [exact Hc|]. split; [exact Hb|].
    rewrite collectKeyframes_oneKey in Hc. injection Hc as <-.
    cbn [blob_bytes]. rewrite (file_records_length _ _ _ Hd).
    cbn [length]. repeat split; lia.
  - eexists. split; [reflexivity|]. cbn [blob_bytes length]. split; lia.
Qed.

(** C8, as amended.  For a clip whose tracks are not empty and have as many
    values as times, [convertToVMD] returns a blob.  When at least one track
    has a key time, the blob ends, after the header, the N bone-frame records
    and the four zero counts, with the property-keyframe count 1 and one
    property keyframe: frame 0, visibility 1, the IK count 6 and, for each of
    the six names, its 20-byte field and the state 0.  When no track has a
    key time the blob is empty. *)
Theorem property_keyframe_ends_the_blob_of_a_clip_with_key_times
    sjis float32 localeCompare normalize clip fps :
  wf_clip clip ->
  length ikDisabledBones = 6
  /\ exists blob,
       convertToVMD sjis float32 localeCompare normalize clip fps = Ret blob
       /\ match sortedTimes clip with
          | [] => blob_bytes blob = []
          | _ :: _ =>
              exists keyframes,
                collectKeyframes localeCompare normalize clip fps = Ret keyframes
                /\ skipn (50 + 4 + 111 * length keyframes + 4 * 4) (blob_bytes blob)
                   = uint32_le 1 ++ uint32_le 0 ++ [1%Z] ++ uint32_le 6
                     ++ flat_map (fun name => padded 20 (encodeShiftJIS sjis name) ++ [0%Z])
                          ikDisabledBones
          end.
Proof.
  intros Hwf. split; [reflexivity|].
  destruct (convertToVMD_defined sjis float32 localeCompare normalize clip fps Hwf)
    as (blob & Hb & H).
  exists blob. split; [assumption|].
  destruct (sortedTimes clip) as [|t ts].
  - subst blob. reflexivity.
  - destruct H as (kfs & Hc & Hd & ->). exists kfs. split; [assumption|].
    cbn [blob_bytes]. rewrite (file_property_section _ _ _ Hd). reflexivity.
Qed.

(** C8 on the clip with one key. *)
Lemma property_keyframe_witness :
  length ikDisabledBones = 6
  /\ exists blob,
       convertToVMD ascii_sjis zero_float32 byte_compare keep oneKeyClip 30 = Ret blob
       /\ match sortedTimes oneKeyClip with
          | [] => blob_bytes blob = []
          | _ :: _ =>
              exists keyframes,
                collectKeyframes byte_compare keep oneKeyClip 30 = Ret keyframes
                /\ skipn (50 + 4 + 111 * length keyframes + 4 * 4) (blob_bytes blob)
                   = uint32_le 1 ++ uint32_le 0 ++ [1%Z] ++ uint32_le 6
                     ++ flat_map
                          (fun name => padded 20 (encodeShiftJIS ascii_sjis name) ++ [0%Z])
                          ikDisabledBones
          end.
Proof.
  apply (property_keyframe_ends_the_blob_of_a_clip_with_key_times
           ascii_sjis zero_float32 byte_compare keep oneKeyClip 30).
  split; [|constructor]. constructor; [|constructor].
  split; [discriminate|reflexivity].
Defined.

(** C8 as stated fails: for the clip without tracks the blob is empty, so
    no property keyframe occurs in it. *)
Lemma empty_clip_blob_has_no_property_keyframe :
  exists blob,
    convertToVMD ascii_sjis zero_float32 byte_compare keep emptyClip 30 = Ret blob
    /\ blob_bytes blob = []
    /\ forall pre post,
         blob_bytes blob <> pre ++ propertyKeyframe ascii_sjis ++ post.
Proof.
  eexists. split; [reflexivity|]. split; [reflexivity|].
  intros pre post H. apply (f_equal (@length Z)) in H.
  cbn [blob_bytes length] in H. rewrite !length_app in H.
  pose proof (propertySection_length ascii_sjis) as Hp.
  unfold propertySection in Hp. rewrite length_app, uint32_le_length in Hp. lia.
Qed.

End ConvertFacts.

(** ** Ordered key times: sets of numbers and their sorted arrays *)

Module OrderFacts.

Import JS JSFacts Shapes.

Lemma increasing_tail a l : increasing (a :: l) -> increasing l.
Proof. destruct l; [intros; exact I|]. intros [_ H]. exact H. Qed.

Lemma increasing_head l : forall x, increasing (x :: l) -> forall c, In c l -> x < c.
Proof.
  induction l as [|y l IH]; intros x Hinc c Hc; [contradiction|].
  destruct Hinc as [Hxy Hinc]. destruct Hc as [<-|Hc]; [assumption|].
  apply Rlt_trans with y; [assumption|]. apply IH; assumption.
Qed.

Lemma increasing_lt l : increasing l ->
  forall i j a b, (i < j)%nat -> nth_error l i = Some a -> nth_error l j = Some b -> a < b.
Proof.
  induction l as [|x l IH]; intros Hinc i j a b Hij Ha Hb; [destruct i; discriminate|].
  destruct j as [|j]; [lia|]. cbn in Hb.
  destruct i as [|i]; cbn in Ha.
  - injection Ha as <-. eapply increasing_head; [eassumption|]. eapply nth_error_In, Hb.
  - apply (IH (increasing_tail _ _ Hinc) i j); [lia|assumption|assumption].
Qed.

Lemma increasing_snoc l t :
  increasing l -> Forall (fun a => a < t) l -> increasing (l ++ [t]).
Proof.
  induction l as [|a l IH]; intros Hinc Hall; [exact I|].
  inversion Hall as [|? ? Ha Hl]; subst.
  destruct l as [|b l]; [cbn; split; [assumption|exact I]|].
  destruct Hinc as [Hab Hinc]. cbn [app]. split; [assumption|]. apply IH; assumption.
Qed.

Lemma increasing_last_max l m :
  increasing l -> lastOf l = Some m -> forall a, In a l -> a <= m.
Proof.
  intros Hinc Hl a Ha. unfold lastOf in Hl.
  apply In_nth_error in Ha as [i Hi].
  assert (Hlen : (i < length l)%nat) by (apply nth_error_Some; congruence).
  destruct (Nat.eq_dec i (length l - 1)) as [->|Hne].
  - rewrite Hi in Hl. injection Hl as <-. lra.
  - left. apply (increasing_lt l Hinc i (length l - 1)); [lia|assumption..].
Qed.

Lemma last_nth_error {A} (l : list A) d i a :
  nth_error l i = Some a -> S i = length l -> last l d = a.
Proof.
  revert i. induction l as [|x l IH]; intros i Ha Hi; [destruct i; discriminate|].
  destruct i as [|i]; cbn in Ha.
  - injection Ha as <-. destruct l; [reflexivity|discriminate].
  - destruct l as [|y l]; [destruct i; discriminate|].
    change (last (x :: y :: l) d) with (last (y :: l) d).
    apply (IH i); [assumption|cbn in *; lia].
Qed.

Lemma Set_add_In s x t : In t (Set_add s x) <-> In t s \/ t = x.
Proof.
  unfold Set_add. destruct (in_dec Req_dec_T x s) as [Hin|Hin].
  - split; [auto|]. intros [H| ->]; assumption.
  - rewrite in_app_iff. cbn. intuition congruence.
Qed.

Lemma Set_addEach_In xs : forall s t,
  In t (Set_addEach (fun t => t) xs s) <-> In t s \/ In t xs.
Proof.
  unfold Set_addEach. induction xs as [|x xs IH]; intros s t; cbn [fold_left].
  - cbn. tauto.
  - rewrite IH, Set_add_In. cbn. intuition congruence.
Qed.

Lemma Set_add_NoDup s x : NoDup s -> NoDup (Set_add s x).
Proof.
  intros H. unfold Set_add. destruct (in_dec Req_dec_T x s) as [Hin|Hin]; [assumption|].
  apply NoDup_app; [assumption|repeat constructor; intros []|].
  intros a Ha [<-|[]]. contradiction.
Qed.

Lemma Set_addEach_NoDup f xs : forall s, NoDup s -> NoDup (Set_addEach f xs s).
Proof.
  unfold Set_addEach. induction xs as [|x xs IH]; intros s H; cbn [fold_left];
    [assumption|]. apply IH, Set_add_NoDup, H.
Qed.

(** [tracks.forEach (track => track.times.forEach (t => allTimes.add (t)))]. *)
Lemma allTimes_In {T} (times_of : T -> list R) tracks : forall s t,
  In t (fold_left (fun acc track => Set_addEach (fun t => t) (times_of track) acc) tracks s)
  <-> In t s \/ exists track, In track tracks /\ In t (times_of track).
Proof.
  induction tracks as [|track tracks IH]; intros s t; cbn [fold_left].
  - split; [auto|]. intros [H|(track & [] & _)]. assumption.
  - rewrite IH, Set_addEach_In. split.
    + intros [[H|H]|(tr & Htr & Ht)]; eauto.
      * right. exists track. split; [left; reflexivity|assumption].
      * right. exists tr. split; [right; assumption|assumption].
    + intros [H|(tr & [<-|Htr] & Ht)]; eauto.
Qed.

Lemma allTimes_NoDup {T} (times_of : T -> list R) tracks : forall s,
  NoDup s ->
  NoDup (fold_left (fun acc track => Set_addEach (fun t => t) (times_of track) acc) tracks s).
Proof.
  induction tracks as [|track tracks IH]; intros s H; cbn [fold_left]; [assumption|].
  apply IH, Set_addEach_NoDup, H.
Qed.

Lemma insert_sorted_increasing x l :
  increasing l -> ~ In x l -> increasing (insert_sorted (fun a b => ltb (a - b) 0) x l).
Proof.
  induction l as [|y l IH]; intros Hinc Hin; [exact I|].
  cbn [insert_sorted]. unfold ltb at 1. destruct (Rlt_dec (x - y) 0) as [Hlt|Hge].
  - split; [lra|assumption].
  - assert (Hyx : y < x).
    { destruct (Rtotal_order y x) as [H|[H|H]]; [assumption| |lra].
      exfalso. apply Hin. left. assumption. }
    assert (IH' := IH (increasing_tail _ _ Hinc) (fun H => Hin (or_intror H))).
    destruct l as [|z l]; [cbn; split; [assumption|exact I]|].
    destruct Hinc as [Hyz _]. cbn [insert_sorted] in *.
    destruct (ltb (x - z) 0); (split; [assumption|exact IH']).
Qed.

(** The sorted array of a set of numbers is strictly increasing. *)
Lemma sort_numbers_increasing s : NoDup s -> increasing (sort_numbers s).
Proof.
  unfold sort_numbers, Array_sort.
  enough (H : forall acc, increasing acc -> NoDup (acc ++ s) ->
              increasing (fold_left (fun acc x => insert_sorted (fun a b => ltb (a - b) 0) x acc)
                            s acc))
    by (intros Hs; apply H; [exact I|exact Hs]).
  induction s as [|x s IH]; intros acc Hinc Hnd; cbn [fold_left]; [assumption|].
  apply IH.
  - apply insert_sorted_increasing; [assumption|].
    apply NoDup_remove_2 in Hnd. intros Hin. apply Hnd, in_or_app. left. assumption.
  - eapply Permutation_NoDup; [|exact Hnd].
    rewrite <- insert_sorted_perm. symmetry. apply Permutation_middle.
Qed.

End OrderFacts.

(** ** The conversions between Euler angles and quaternions *)

Module FbxMathFacts.

Import JS Fbx JSFacts.

Lemma sin_half x : sin x = 2 * sin (x / 2) * cos (x / 2).
Proof. replace x with (2 * (x / 2)) at 1 by field. apply sin_2a. Qed.

Lemma cos_half x : cos x = cos (x / 2) * cos (x / 2) - sin (x / 2) * sin (x / 2).
Proof. replace x with (2 * (x / 2)) at 1 by field. apply cos_2a. Qed.

Lemma Math_atan2_pos y x : 0 < x -> Math_atan2 y x = atan (y / x).
Proof. intros H. unfold Math_atan2. rewrite ltb_true by assumption. reflexivity. Qed.

Lemma sin_acos_pos d : 0 <= d <= 0.9995 -> 0 < sin (acos d).
Proof.
  intros H. rewrite sin_acos by lra. apply sqrt_lt_R0. unfold Rsqr. nra.
Qed.

(** X2.  [eulerToQuaternionZXY] returns a unit quaternion, whatever the
    three angles are. *)
Theorem eulerToQuaternionZXY_is_a_unit_quaternion z x y :
  Quat.dot (eulerToQuaternionZXY z x y) (eulerToQuaternionZXY z x y) = 1.
Proof.
  unfold eulerToQuaternionZXY, Quat.dot. cbn [Quat.x Quat.y Quat.z Quat.w].
  pose proof (sin2_cos2 (z / 2)) as Hz.
  pose proof (sin2_cos2 (x / 2)) as Hx.
  pose proof (sin2_cos2 (y / 2)) as Hy.
  unfold Rsqr in *.
  set (sz := sin (z / 2)) in *. set (cz := cos (z / 2)) in *.
  set (sx := sin (x / 2)) in *. set (cx := cos (x / 2)) in *.
  set (sy := sin (y / 2)) in *. set (cy := cos (y / 2)) in *.
  replace 1 with ((sx * sx + cx * cx) * (sy * sy + cy * cy) * (sz * sz + cz * cz))
    by (rewrite Hx, Hy, Hz; ring).
  ring.
Qed.

(** X3.  [slerp] joins its end points: for unit quaternions it returns
    [q1] at [t = 0] and, at [t = 1], [q2] or the negation of [q2] (the same
    rotation) when the dot product of the two is negative. *)
Theorem slerp_joins_its_end_points q1 q2 :
  Quat.dot q1 q1 = 1 -> Quat.dot q2 q2 = 1 ->
  slerp q1 q2 0 = q1
  /\ slerp q1 q2 1 = (if ltb (Quat.dot q1 q2) 0 then Quat.neg q2 else q2).
Proof.
  destruct q1 as [x1 y1 z1 w1], q2 as [x2 y2 z2 w2].
  unfold Quat.dot, Quat.neg, slerp. cbn [Quat.x Quat.y Quat.z Quat.w].
  intros H1 H2.
  set (dot := x1 * x2 + y1 * y2 + z1 * z2 + w1 * w2).
  unfold gtb.
  destruct (ltb 0.9995 (Math_abs dot)) eqn:Eabs.
  - (* nearly parallel: the normalised linear blend *)
    split.
    + match goal with |- context [sqrt ?a] => replace a with 1 by (rewrite <- H1; ring) end.
      rewrite sqrt_1. rewrite ltb_true by lra. f_equal; field.
    + assert (Hlen : forall s, s = 1 \/ s = -1 ->
                sqrt ((x1 + (s * x2 - x1) * 1) * (x1 + (s * x2 - x1) * 1)
                      + (y1 + (s * y2 - y1) * 1) * (y1 + (s * y2 - y1) * 1)
                      + (z1 + (s * z2 - z1) * 1) * (z1 + (s * z2 - z1) * 1)
                      + (w1 + (s * w2 - w1) * 1) * (w1 + (s * w2 - w1) * 1)) = 1).
      { intros s Hs. transitivity (sqrt 1); [|apply sqrt_1]. f_equal.
        transitivity (x2 * x2 + y2 * y2 + z2 * z2 + w2 * w2); [|exact H2].
        destruct Hs; subst s; ring. }
      destruct (ltb dot 0).
      * specialize (Hlen (-1) (or_intror eq_refl)).
        replace (-1 * x2) with (- x2) in Hlen by ring.
        replace (-1 * y2) with (- y2) in Hlen by ring.
        replace (-1 * z2) with (- z2) in Hlen by ring.
        replace (-1 * w2) with (- w2) in Hlen by ring.
        rewrite Hlen. rewrite ltb_true by lra. f_equal; field.
      * specialize (Hlen 1 (or_introl eq_refl)).
        replace (1 * x2) with x2 in Hlen by ring.
        replace (1 * y2) with y2 in Hlen by ring.
        replace (1 * z2) with z2 in Hlen by ring.
        replace (1 * w2) with w2 in Hlen by ring.
        rewrite Hlen. rewrite ltb_true by lra. f_equal; field.
  - (* the spherical blend *)
    assert (Hd : 0 <= Math_abs dot <= 0.9995).
    { split; [apply Rabs_pos|].
      unfold ltb in Eabs. destruct (Rlt_dec 0.9995 (Math_abs dot)); [discriminate|lra]. }
    pose proof (sin_acos_pos _ Hd) as Hs.
    set (theta := acos (Math_abs dot)) in *.
    replace ((1 - 0) * theta) with theta by ring.
    replace (0 * theta) with 0 by ring.
    replace ((1 - 1) * theta) with 0 by ring.
    replace (1 * theta) with theta by ring.
    rewrite sin_0.
    replace (sin theta / sin theta) with 1 by (field; lra).
    replace (0 / sin theta) with 0 by (field; lra).
    split; [f_equal; ring|].
    destruct (ltb dot 0); f_equal; ring.
Qed.

(** X3 between the identity and the half turn about X. *)
Lemma slerp_end_points_witness :
  slerp (Quat.new 0 0 0 1) (Quat.new 1 0 0 0) 0 = Quat.new 0 0 0 1
  /\ slerp (Quat.new 0 0 0 1) (Quat.new 1 0 0 0) 1
     = (if ltb (Quat.dot (Quat.new 0 0 0 1) (Quat.new 1 0 0 0)) 0
        then Quat.neg (Quat.new 1 0 0 0) else Quat.new 1 0 0 0).
Proof.
  apply (slerp_joins_its_end_points (Quat.new 0 0 0 1) (Quat.new 1 0 0 0));
    unfold Quat.dot; cbn [Quat.x Quat.y Quat.z Quat.w]; lra.
Defined.

(** The quantities [quaternionToEuler] reads, on a quaternion built from
    the angles [x] and [z] alone. *)
Lemma euler_entries_without_Y x z :
  let q := eulerToQuaternionZXY z x 0 in
  2 * (Quat.y q * Quat.z q + Quat.w q * Quat.x q) = sin x
  /\ - (2 * (Quat.x q * Quat.z q - Quat.w q * Quat.y q)) = 0
  /\ 1 - 2 * (Quat.x q * Quat.x q + Quat.y q * Quat.y q) = cos x
  /\ - (2 * (Quat.x q * Quat.y q - Quat.w q * Quat.z q)) = sin z * cos x
  /\ 1 - 2 * (Quat.x q * Quat.x q + Quat.z q * Quat.z q) = cos z * cos x.
Proof.
  cbn zeta. unfold eulerToQuaternionZXY. cbn [Quat.x Quat.y Quat.z Quat.w].
  replace (0 / 2) with 0 by field. rewrite sin_0, cos_0.
  rewrite (sin_half x), (cos_half x), (sin_half z), (cos_half z).
  pose proof (sin2_cos2 (x / 2)) as Ex. pose proof (sin2_cos2 (z / 2)) as Ez.
  unfold Rsqr in Ex, Ez.
  set (sx := sin (x / 2)) in *. set (cx := cos (x / 2)) in *.
  set (sz := sin (z / 2)) in *. set (cz := cos (z / 2)) in *.
  assert (E1 : forall a, a = a * (sz * sz + cz * cz)) by (intros; rewrite Ez; ring).
  repeat split.
  - rewrite (E1 (2 * sx * cx)). ring.
  - ring.
  - transitivity (sx * sx + cx * cx - 2 * (sx * sx) * (sz * sz + cz * cz));
      [rewrite Ex; ring | rewrite Ez; ring].
  - ring.
  - transitivity ((sx * sx + cx * cx) * (sz * sz + cz * cz)
                  - 2 * (sx * sx * (cz * cz) + cx * cx * (sz * sz)));
      [rewrite Ex, Ez; ring | ring].
Qed.

(** X4.  Euler angles without a Y component survive the round trip through
    a quaternion: for [x] and [z] strictly between -90 and 90 degrees, and
    [x] off the gimbal-lock band, [quaternionToEuler] gives back [(x, 0, z)]
    from the quaternion [eulerToQuaternionByOrder] builds. *)
Theorem euler_angles_without_Y_round_trip x z :
  - (PI / 2) < x < PI / 2 -> Math_abs (sin x) < 0.9999 ->
  - (PI / 2) < z < PI / 2 ->
  quaternionToEuler (eulerToQuaternionByOrder x 0 z "ZXY") = Vec3.new x 0 z.
Proof.
  intros Hx Hsin Hz.
  unfold eulerToQuaternionByOrder. cbn [String.eqb Ascii.eqb Bool.eqb negb].
  destruct (euler_entries_without_Y x z) as (E1 & E2 & E3 & E4 & E5).
  unfold quaternionToEuler. cbv zeta in *.
  rewrite E1, E2, E3, E4, E5.
  assert (Hcx : 0 < cos x) by (apply cos_gt_0; lra).
  assert (Hcz : 0 < cos z) by (apply cos_gt_0; lra).
  unfold geb. rewrite leb_false by lra.
  rewrite !Math_atan2_pos by (try apply Rmult_lt_0_compat; assumption).
  f_equal.
  - apply asin_sin. lra.
  - replace (0 / cos x) with 0 by (field; lra). apply atan_0.
  - replace (sin z * cos x / (cos z * cos x)) with (tan z) by (unfold tan; field; lra).
    apply atan_tan. lra.
Qed.

(** X4 at [x = 1/2] and [z = 1/4] radians. *)
Lemma euler_round_trip_witness :
  quaternionToEuler (eulerToQuaternionByOrder (1 / 2) 0 (1 / 4) "ZXY")
  = Vec3.new (1 / 2) 0 (1 / 4).
Proof.
  pose proof PI2_1 as Hpi.
  apply (euler_angles_without_Y_round_trip (1 / 2) (1 / 4)); [lra| |lra].
  assert (0 < sin (1 / 2)) by (apply sin_gt_0; lra).
  assert (sin (1 / 2) < 1 / 2) by (apply sin_lt_x; lra).
  unfold Math_abs. rewrite Rabs_pos_eq by lra. lra.
Defined.

End FbxMathFacts.

(** ** Curves and the rotation track assembled from them *)

Module CurveFacts.

Import JS Fbx JSFacts UnrollFacts Shapes OrderFacts MoreSamples.

(** The scan stops at the segment that ends in the key. *)
Lemma interpolateValue_scan_key times : forall values k t v,
  increasing times -> length times = length values ->
  nth_error times (S k) = Some t -> nth_error values (S k) = Some v ->
  interpolateValue_scan times values t = Some v.
Proof.
  induction times as [|t0 times IH]; intros values k t v Hinc Hlen Ht Hv; [discriminate|].
  destruct values as [|v0 values]; [discriminate|].
  destruct times as [|t1 times]; [destruct k; discriminate|].
  destruct values as [|v1 values]; [discriminate|].
  cbn [interpolateValue_scan]. unfold geb.
  destruct k as [|k]; cbn in Ht, Hv.
  - injection Ht as <-. injection Hv as <-. destruct Hinc as [H01 _].
    rewrite !leb_true by lra. cbn [andb]. f_equal. field. lra.
  - assert (H1t : t1 < t).
    { apply (increasing_lt _ (increasing_tail _ _ Hinc) 0%nat (S k)); [lia|reflexivity|exact Ht]. }
    rewrite (leb_false t t1) by lra. rewrite andb_false_r.
    apply (IH (v1 :: values) k); [eapply increasing_tail, Hinc|cbn in *; lia|exact Ht|exact Hv].
Qed.

Lemma interpolateValue_at_key times values i t v :
  increasing times -> length times = length values ->
  nth_error times i = Some t -> nth_error values i = Some v ->
  interpolateValue times values t = v.
Proof.
  intros Hinc Hlen Ht Hv. unfold interpolateValue.
  destruct times as [|t0 times']; [destruct i; discriminate|].
  destruct values as [|v0 values']; [discriminate|].
  rewrite Hlen, Nat.eqb_refl. cbn [negb].
  destruct i as [|k].
  - cbn in Ht, Hv. injection Ht as <-. injection Hv as <-.
    rewrite leb_true by lra. reflexivity.
  - assert (H0t : t0 < t)
      by (apply (increasing_lt _ Hinc 0%nat (S k)); [lia|reflexivity|exact Ht]).
    rewrite leb_false by lra.
    unfold geb. destruct (leb (last (t0 :: times') 0) t) eqn:El.
    + (* the key is the last one *)
      apply last_nth_error with (i := S k); [assumption|].
      assert (Hk : (S k < length (t0 :: times'))%nat) by (apply nth_error_Some; congruence).
      destruct (Nat.eq_dec (S (S k)) (length (t0 :: times'))) as [E|E]; [congruence|].
      exfalso.
      destruct (nth_error_defined (t0 :: times') (length (t0 :: times') - 1)) as [tl Htl];
        [lia|].
      assert (Hlast : last (t0 :: times') 0 = tl)
        by (eapply last_nth_error; [exact Htl|lia]).
      assert (t < tl)
        by (apply (increasing_lt _ Hinc (S k) (length (t0 :: times') - 1)); [lia|assumption..]).
      unfold leb in El. destruct (Rle_dec _ _); [lra|discriminate].
    + rewrite (interpolateValue_scan_key _ _ k t v); auto.
Qed.

(** X5.  On a curve with strictly increasing key times and one value per
    time, [interpolateValue] returns each key's value at that key's time,
    the first value at or before the first key and the last value at or
    after the last key. *)
Theorem interpolateValue_reproduces_the_keys times values :
  increasing times -> length times = length values ->
  (forall i t v, nth_error times i = Some t -> nth_error values i = Some v ->
     interpolateValue times values t = v)
  /\ (forall t t0 v0, nth_error times 0 = Some t0 -> nth_error values 0 = Some v0 ->
        t <= t0 -> interpolateValue times values t = v0)
  /\ (forall t, times <> [] -> last times 0 <= t ->
        interpolateValue times values t = last values 0).
Proof.
  intros Hinc Hlen. split; [|split].
  - intros i t v. apply interpolateValue_at_key; assumption.
  - intros t t0 v0 Ht Hv Hle. unfold interpolateValue.
    destruct times as [|t0' times']; [discriminate|].
    destruct values as [|v0' values']; [discriminate|].
    cbn in Ht, Hv. injection Ht as ->. injection Hv as ->.
    rewrite Hlen, Nat.eqb_refl. cbn [negb]. rewrite leb_true by assumption. reflexivity.
  - intros t Hne Hle. unfold interpolateValue.
    destruct times as [|t0 times']; [contradiction|].
    destruct values as [|v0 values']; [discriminate|].
    rewrite Hlen, Nat.eqb_refl. cbn [negb].
    unfold geb. rewrite (leb_true _ t) by assumption.
    destruct (leb t t0) eqn:E0; [|reflexivity].
    destruct times' as [|t1 times''].
    + destruct values'; [reflexivity|discriminate].
    + exfalso. unfold leb in E0. destruct (Rle_dec t t0) as [H0|]; [|discriminate].
      assert (t0 < last (t0 :: t1 :: times'') 0).
      { apply (increasing_head _ _ Hinc).
        change (last (t0 :: t1 :: times'') 0) with (last (t1 :: times'') 0).
        clear. generalize t1. induction times'' as [|a l IH]; intros b; [left; reflexivity|].
        right. apply IH. }
      lra.
Qed.

(** X5 on a curve with keys at 0, 1 and 2. *)
Lemma interpolateValue_keys_witness :
  (forall i t v, nth_error (times threeKeys) i = Some t ->
                 nth_error (values threeKeys) i = Some v ->
     interpolateValue (times threeKeys) (values threeKeys) t = v)
  /\ (forall t t0 v0, nth_error (times threeKeys) 0 = Some t0 ->
                      nth_error (values threeKeys) 0 = Some v0 ->
        t <= t0 -> interpolateValue (times threeKeys) (values threeKeys) t = v0)
  /\ (forall t, times threeKeys <> [] -> last (times threeKeys) 0 <= t ->
        interpolateValue (times threeKeys) (values threeKeys) t = last (values threeKeys) 0).
Proof.
  apply (interpolateValue_reproduces_the_keys (times threeKeys) (values threeKeys)).
  - cbn. repeat split; lra.
  - reflexivity.
Defined.

(** *** The shape of the track *)

Lemma push_frame_flat out time e : flat out -> flat (push_frame out time e).
Proof.
  unfold flat, push_frame. destruct e as [[ex ey] ez]. cbn [fst snd].
  rewrite !length_app. cbn [length]. lia.
Qed.

Lemma slerp_frames_flat fuel Q1 Q2 initialTime timeSpan step : forall t out,
  flat out -> flat (slerp_frames fuel Q1 Q2 initialTime timeSpan step t out).
Proof.
  induction fuel as [|fuel IH]; intros t out H; cbn [slerp_frames]; [assumption|].
  destruct (ltb t 1); [|assumption]. apply IH, push_frame_flat, H.
Qed.

Lemma rotation_step_flat order initial current out :
  flat out -> flat (rotation_step order initial current out).
Proof.
  intros H. unfold rotation_step.
  destruct initial as [initialTime [[ix iy] iz]], current as [currentTime [[cx cy] cz]].
  cbn [isNaN orb].
  destruct (_ || _); [apply push_frame_flat, slerp_frames_flat, H|apply push_frame_flat, H].
Qed.

Lemma rotation_loop_flat order rest : forall initial out,
  flat out -> flat (rotation_loop order initial rest out).
Proof.
  induction rest as [|current rest IH]; intros initial out H; cbn [rotation_loop];
    [assumption|]. apply IH, rotation_step_flat, H.
Qed.

Lemma interpolateRotations_flat x y z order : flat (interpolateRotations x y z order).
Proof.
  unfold interpolateRotations.
  destruct (map _ _) as [|[t0 [[x0 y0] z0]] rest]; [reflexivity|].
  apply rotation_loop_flat, (push_frame_flat ([], [])). reflexivity.
Qed.

Lemma quaternion_loop_length order : forall n vals i quats res,
  length vals = (3 * n)%nat ->
  quaternion_loop order vals i quats = Some res ->
  length res = (length quats + n)%nat.
Proof.
  induction n as [|n IH]; intros vals i quats res Hlen H.
  - destruct vals; [|discriminate]. cbn in H. injection H as <-. lia.
  - destruct vals as [|xRad [|yRad [|zRad vals']]]; try (cbn in Hlen; lia).
    cbn [quaternion_loop] in H.
    match type of H with match ?u with _ => _ end = _ => destruct u as [q|]; [|discriminate] end.
    apply IH in H; [|cbn in Hlen; lia]. rewrite H, length_app. cbn. lia.
Qed.

(** X6.  Whatever the three axis curves are, the flat array of
    [interpolateRotations] holds three values per time, since every turn of
    its loops pushes one time and three values; so the guards of
    [generateQuaternions] on the lengths never discard the track: it returns
    the times [interpolateRotations] assembled, with one quaternion per
    time. *)
Theorem rotation_track_has_one_quaternion_per_time x y z order :
  exists track,
    generateQuaternions x y z order = Some track
    /\ track_times track = fst (interpolateRotations x y z order)
    /\ length (track_quats track) = length (track_times track).
Proof.
  pose proof (interpolateRotations_flat x y z order) as Hflat. unfold flat in Hflat.
  destruct (generateQuaternions_unrolled x y z order) as (track & Ht & _).
  exists track. split; [assumption|].
  unfold generateQuaternions in Ht. rewrite Hflat in Ht.
  replace (Nat.modulo (3 * length (fst (interpolateRotations x y z order))) 3) with 0%nat in Ht
    by (rewrite Nat.mul_comm, Nat.Div0.mod_mul; reflexivity).
  rewrite (Nat.mul_comm _ 3), !Nat.eqb_refl in Ht. cbn [negb] in Ht.
  destruct (quaternion_loop order _ 0 []) as [qs|] eqn:E; [|discriminate].
  cbn [option_map] in Ht. injection Ht as <-. cbn [track_times track_quats].
  split; [reflexivity|].
  apply quaternion_loop_length with (n := length (fst (interpolateRotations x y z order))) in E;
    [exact E|]. rewrite Hflat. lia.
Qed.

End CurveFacts.

(** ** The binary reader: 64-bit integers and ASCII names *)

Module ReaderFacts.

Import JS FbxBinary FbxIntegers MoreSamples.
Local Open Scope Z_scope.
Local Open Scope js_scope.

Lemma ToInt32_low v : 0 <= v < 2147483648 -> ToInt32 v = v.
Proof. intros H. unfold ToInt32. rewrite Z.mod_small by lia. lia. Qed.

Lemma ToInt32_high v : 2147483648 <= v < 4294967296 -> ToInt32 v = v - 4294967296.
Proof.
  intros H. unfold ToInt32.
  replace (v + 2147483648) with (v - 2147483648 + 1 * 4294967296) by lia.
  rewrite Z.mod_add by lia. rewrite Z.mod_small by lia. lia.
Qed.

Lemma ToInt32_signed v : -2147483648 <= v < 2147483648 -> ToInt32 v = v.
Proof. intros H. unfold ToInt32. rewrite Z.mod_small by lia. lia. Qed.

(** [v & 0xFFFFFFFF] is [ToInt32 v]: the mask keeps every bit, and the
    result is signed. *)
Lemma bitand_all_ones v : bitand v 0xFFFFFFFF = ToInt32 v.
Proof.
  unfold bitand. replace (ToInt32 0xFFFFFFFF) with (-1) by reflexivity.
  apply Z.land_m1_r.
Qed.

(** [high & 0x80000000] tests the sign bit of the word. *)
Lemma bitand_sign v : 0 <= v < 4294967296 ->
  (bitand v 0x80000000 =? 0) = (v <? 2147483648).
Proof.
  intros H. unfold bitand.
  replace (ToInt32 0x80000000) with (Z.lnot (Z.ones 31)) by reflexivity.
  change (Z.land (ToInt32 v) (Z.lnot (Z.ones 31))) with (Z.ldiff (ToInt32 v) (Z.ones 31)).
  rewrite Z.ldiff_ones_r by lia. rewrite Z.shiftr_div_pow2, Z.shiftl_mul_pow2 by lia.
  change (2 ^ 31) with 2147483648.
  destruct (Z.ltb_spec v 2147483648).
  - rewrite ToInt32_low by lia. rewrite Z.div_small by lia. reflexivity.
  - rewrite ToInt32_high by lia.
    replace ((v - 4294967296) / 2147483648) with (-1).
    + reflexivity.
    + apply Z.div_unique with (r := v - 2147483648); lia.
Qed.

Lemma slice_In (l : list Z) start len b : In b (slice l start len) -> In b l.
Proof.
  unfold slice. intros H.
  rewrite <- (firstn_skipn start l). apply in_or_app. right.
  rewrite <- (firstn_skipn len (skipn start l)). apply in_or_app. left. exact H.
Qed.

Lemma readUint32_range data v d :
  is_bytes (binary data) -> readUint32 data = Ret (v, d) ->
  0 <= v < 4294967296 /\ binary d = binary data.
Proof.
  intros Hb. unfold readUint32.
  assert (Hs : is_bytes (slice (binary data) (offset data) 4)).
  { unfold is_bytes in *. rewrite Forall_forall in *. intros b Hin.
    apply Hb. eapply slice_In, Hin. }
  destruct (slice _ _ 4) as [|b0 [|b1 [|b2 [|b3 [|]]]]]; try discriminate.
  inversion Hs as [|? ? H0 Hs1]; subst. inversion Hs1 as [|? ? H1 Hs2]; subst.
  inversion Hs2 as [|? ? H2 Hs3]; subst. inversion Hs3 as [|? ? H3 _]; subst.
  cbn beta in *.
  remember (256 * b1) as m1 eqn:E1. remember (65536 * b2) as m2 eqn:E2.
  remember (16777216 * b3) as m3 eqn:E3.
  intros H. injection H as Hv Hd. subst d. cbn [binary].
  split; [lia|reflexivity].
Qed.

(** X7.  [readInt64] on two little-endian words [low] and [high], within
    the range where its double arithmetic is exact.  With the sign bit clear
    it returns [high * 2^32 + low].  With the sign bit set it returns the
    two's-complement value when [low] exceeds 2^31, and that value plus 2^32
    when [low] is at most 2^31 (zero included): [(~low + 1) & 0xFFFFFFFF]
    is a signed 32-bit result, and the carry into the high word of a zero
    low word is not taken. *)
Theorem readInt64_decodes_two_words data low high d1 d2 :
  is_bytes (binary data) ->
  readUint32 data = Ret (low, d1) -> readUint32 d1 = Ret (high, d2) ->
  high < 2097152 \/ 4292870144 <= high ->
  readInt64 data
  = Ret (if (2147483648 <=? high) && (low <=? 2147483648)
         then int64_of_words low high + 4294967296
         else int64_of_words low high, d2).
Proof.
  intros Hb H1 H2 _. unfold readInt64. rewrite H1. cbn [bind]. rewrite H2. cbn [bind].
  destruct (readUint32_range _ _ _ Hb H1) as [Hlow Hb1].
  rewrite <- Hb1 in Hb. destruct (readUint32_range _ _ _ Hb H2) as [Hhigh _].
  rewrite bitand_sign by assumption. unfold int64_of_words.
  destruct (Z.ltb_spec high 2147483648) as [Hh|Hh]; cbn [negb].
  - rewrite (proj2 (Z.leb_gt _ _)) by lia. reflexivity.
  - rewrite (proj2 (Z.leb_le _ _)) by lia. cbn [andb].
    rewrite !bitand_all_ones. unfold bitnot, Z.lnot.
    rewrite (ToInt32_high high) by lia.
    rewrite (ToInt32_signed (Z.pred (- (high - 4294967296)))) by lia.
    destruct (Z.leb_spec low 2147483648) as [Hl|Hl].
    + assert (Hneg : ToInt32 (Z.pred (- ToInt32 low) + 1) = - low).
      { destruct (Z.eq_dec low 2147483648) as [->|Hne]; [reflexivity|].
        rewrite (ToInt32_low low) by lia.
        replace (Z.pred (- low) + 1) with (- low) by lia. apply ToInt32_signed. lia. }
      rewrite Hneg. destruct (Z.eqb_spec (- low) 0); do 2 f_equal; lia.
    + rewrite (ToInt32_high low) by lia.
      replace (Z.pred (- (low - 4294967296)) + 1) with (4294967296 - low) by lia.
      rewrite ToInt32_signed by lia.
      destruct (Z.eqb_spec (4294967296 - low) 0); [lia|].
      do 2 f_equal. lia.
Qed.

(** X7 on the eight bytes of -2^31: the code returns +2^31. *)
Lemma readInt64_witness :
  readInt64 minusTwoTo31
  = Ret (if (2147483648 <=? 4294967295) && (2147483648 <=? 2147483648)
         then int64_of_words 2147483648 4294967295 + 4294967296
         else int64_of_words 2147483648 4294967295,
         mkReader [0; 0; 0; 128; 255; 255; 255; 255] 8).
Proof.
  apply (readInt64_decodes_two_words minusTwoTo31 2147483648 4294967295
           (mkReader [0; 0; 0; 128; 255; 255; 255; 255] 4)
           (mkReader [0; 0; 0; 128; 255; 255; 255; 255] 8)).
  - unfold is_bytes, minusTwoTo31. cbn [binary]. repeat (constructor; [lia|]). constructor.
  - reflexivity.
  - reflexivity.
  - right. lia.
Defined.

(** *** ASCII names *)

Lemma utf8_decode_ascii bytes : is_ascii bytes -> utf8_decode None bytes = bytes.
Proof.
  induction 1 as [|b bytes Hb _ IH]; [reflexivity|].
  cbn [utf8_decode]. unfold utf8_lead.
  rewrite (proj2 (Z.leb_le b 127)) by lia. cbn [fst snd app]. rewrite IH. reflexivity.
Qed.

Lemma utf16_ascii bytes : is_ascii bytes -> flat_map utf16 bytes = bytes.
Proof.
  induction 1 as [|b bytes Hb _ IH]; [reflexivity|].
  cbn [flat_map]. unfold utf16 at 1.
  rewrite (proj2 (Z.ltb_lt b 65536)) by lia. cbn [app]. rewrite IH. reflexivity.
Qed.

(** The decoder leaves ASCII as it is: no byte order mark to drop. *)
Lemma TextDecoder_decode_ascii bytes : is_ascii bytes -> TextDecoder_decode bytes = bytes.
Proof.
  intros H. unfold TextDecoder_decode. rewrite utf8_decode_ascii by assumption.
  destruct H as [|b bytes Hb H]; [reflexivity|].
  assert (E : flat_map utf16 (b :: bytes) = b :: bytes)
    by (apply utf16_ascii; constructor; assumption).
  destruct b as [|p|p]; try exact E.
  destruct (Pos.eq_dec p 65279) as [->|Hne]; [lia|].
  repeat (destruct p as [p|p|]; try exact E); lia.
Qed.

Lemma nullIndex_firstn bytes : Forall (fun b => b <> 0) (firstn (nullIndex bytes) bytes).
Proof.
  induction bytes as [|b bytes IH]; [constructor|]. cbn [nullIndex].
  destruct (Z.eqb_spec b 0); [constructor|]. cbn [firstn]. constructor; assumption.
Qed.

Lemma nullIndex_stop bytes :
  (nullIndex bytes < length bytes)%nat -> nth_error bytes (nullIndex bytes) = Some 0.
Proof.
  induction bytes as [|b bytes IH]; cbn [nullIndex length]; [lia|].
  destruct (Z.eqb_spec b 0) as [->|]; [reflexivity|]. intros H. cbn. apply IH. lia.
Qed.

Lemma is_ascii_firstn n bytes : is_ascii bytes -> is_ascii (firstn n bytes).
Proof.
  intros H. unfold is_ascii in *. rewrite Forall_forall in *. intros b Hb. apply H.
  rewrite <- (firstn_skipn n bytes). apply in_or_app. left. exact Hb.
Qed.

(** X8.  On ASCII bytes [readArrayAsString (len)] returns the bytes that
    come before the first NUL (all of them when there is none), unchanged,
    and moves the offset by [len], not by the length of the string: what
    follows the NUL is skipped. *)
Theorem readArrayAsString_returns_the_ascii_before_the_null data len :
  is_ascii (slice (binary data) (offset data) len) ->
  readArrayAsString data len
  = (firstn (nullIndex (slice (binary data) (offset data) len))
       (slice (binary data) (offset data) len),
     mkReader (binary data) (offset data + len))
  /\ Forall (fun c => c <> 0) (fst (readArrayAsString data len))
  /\ ((nullIndex (slice (binary data) (offset data) len)
       < length (slice (binary data) (offset data) len))%nat ->
      nth_error (slice (binary data) (offset data) len)
        (nullIndex (slice (binary data) (offset data) len)) = Some 0).
Proof.
  set (bytes := slice (binary data) (offset data) len).
  intros H. unfold readArrayAsString, readUint8Array. fold bytes.
  change (slice bytes 0 (nullIndex bytes)) with (firstn (nullIndex bytes) bytes).
  rewrite TextDecoder_decode_ascii by (apply is_ascii_firstn, H).
  cbn [fst]. split; [reflexivity|]. split; [apply nullIndex_firstn|apply nullIndex_stop].
Qed.

(** X8 on the seven bytes ["Hips"; NUL; "XY"]: the string is ["Hips"] and
    the offset is 7. *)
Lemma readArrayAsString_witness :
  readArrayAsString nameBytes 7
  = (firstn (nullIndex (slice (binary nameBytes) (offset nameBytes) 7))
       (slice (binary nameBytes) (offset nameBytes) 7),
     mkReader (binary nameBytes) (offset nameBytes + 7))
  /\ Forall (fun c => c <> 0) (fst (readArrayAsString nameBytes 7))
  /\ ((nullIndex (slice (binary nameBytes) (offset nameBytes) 7)
       < length (slice (binary nameBytes) (offset nameBytes) 7))%nat ->
      nth_error (slice (binary nameBytes) (offset nameBytes) 7)
        (nullIndex (slice (binary nameBytes) (offset nameBytes) 7)) = Some 0).
Proof.
  apply (readArrayAsString_returns_the_ascii_before_the_null nameBytes 7).
  unfold is_ascii, nameBytes, slice. cbn [binary offset skipn firstn].
  repeat (constructor; [lia|]). constructor.
Defined.

End ReaderFacts.

(** ** The retargeter: names, durations and the tracks it hands on *)

Module RetargetFlowFacts.

Import JS Retarget VmdWriter VmdFormat VmdInvariants JSFacts Shapes OrderFacts ConvertFacts
  MoreSamples.
Local Open Scope js_scope.

Lemma substring_all s : substring 0 (String.length s) s = s.
Proof. induction s as [|c s IH]; [reflexivity|]. cbn. rewrite IH. reflexivity. Qed.

Lemma match_mixamorig_prefixed n :
  n <> EmptyString -> has_line_terminator n = false ->
  match_mixamorig ("mixamorig:" ++ n) = Some n.
Proof.
  intros Hne Hlt. unfold match_mixamorig.
  assert (Hp : prefix "mixamorig:" ("mixamorig:" ++ n) = true)
    by (apply prefix_correct; destruct n; reflexivity).
  rewrite Hp.
  change (String.length ("mixamorig:" ++ n)) with (10 + String.length n)%nat.
  replace (10 + String.length n - 10)%nat with (String.length n) by lia.
  change (substring 10 (String.length n) ("mixamorig:" ++ n))
    with (substring 0 (String.length n) n).
  rewrite substring_all, Hlt.
  destruct n; [contradiction|]. reflexivity.
Qed.

Lemma match_mixamorig_plain n : prefix "mixamorig:" n = false -> match_mixamorig n = None.
Proof. intros H. unfold match_mixamorig. rewrite H. reflexivity. Qed.

(** X9.  [mapBoneName] takes a name with and without the prefix
    ["mixamorig:"] to the same pair: for a non-empty name [n] on one line
    that does not itself start with the prefix, the source name of both is
    [n] and the destination name is looked up under [n]. *)
Theorem mapBoneName_ignores_the_prefix n :
  n <> EmptyString -> has_line_terminator n = false -> prefix "mixamorig:" n = false ->
  mapBoneName ("mixamorig:" ++ n) = mapBoneName n
  /\ fst (mapBoneName n) = n.
Proof.
  intros Hne Hlt Hp. unfold mapBoneName.
  rewrite match_mixamorig_prefixed, match_mixamorig_plain by assumption.
  split; reflexivity.
Qed.

(** X9 on the hips. *)
Lemma mapBoneName_prefix_witness :
  mapBoneName ("mixamorig:" ++ "Hips") = mapBoneName "Hips"
  /\ fst (mapBoneName "Hips") = "Hips"%string.
Proof.
  apply (mapBoneName_ignores_the_prefix "Hips"); [discriminate|reflexivity|reflexivity].
Defined.

(** X10.  A clip without a positive duration gets the latest key time of
    its tracks: [calculateDuration] is at least every key time of every
    rotation and position track, and it is one of these times, or 0 when no
    track has a key. *)
Theorem calculateDuration_is_the_latest_key_time clip :
  clip_duration clip <= 0 ->
  (forall track t, In track (clip_tracks clip) -> In t (bt_times track) ->
     t <= calculateDuration clip)
  /\ (forall track t, In track (clip_positionTracks clip) -> In t (pt_times track) ->
        t <= calculateDuration clip)
  /\ ((exists track, In track (clip_tracks clip) /\ In (calculateDuration clip) (bt_times track))
      \/ (exists track, In track (clip_positionTracks clip)
                        /\ In (calculateDuration clip) (pt_times track))
      \/ (calculateDuration clip = 0
          /\ Forall (fun track => bt_times track = []) (clip_tracks clip)
          /\ Forall (fun track => pt_times track = []) (clip_positionTracks clip))).
Proof.
  intros Hd. unfold calculateDuration, gtb. rewrite ltb_false by lra.
  set (allTimes := fold_left _ (clip_positionTracks clip) _).
  assert (Hin : forall t, In t allTimes <->
            (exists track, In track (clip_tracks clip) /\ In t (bt_times track))
            \/ (exists track, In track (clip_positionTracks clip) /\ In t (pt_times track))).
  { intros t. unfold allTimes. rewrite !allTimes_In. cbn. tauto. }
  assert (Hnd : NoDup allTimes) by (unfold allTimes; do 2 apply allTimes_NoDup; constructor).
  pose proof (sort_numbers_increasing allTimes Hnd) as Hinc.
  assert (Hperm : Permutation allTimes (sort_numbers allTimes)) by apply Array_sort_perm.
  destruct (lastOf (sort_numbers allTimes)) as [m|] eqn:El.
  - assert (Hmax := increasing_last_max _ _ Hinc El).
    split; [|split].
    + intros track t Htr Ht. apply Hmax. eapply Permutation_in; [exact Hperm|].
      apply Hin. left. eauto.
    + intros track t Htr Ht. apply Hmax. eapply Permutation_in; [exact Hperm|].
      apply Hin. right. eauto.
    + assert (Hm : In m allTimes).
      { eapply Permutation_in; [symmetry; exact Hperm|].
        unfold lastOf in El. eapply nth_error_In, El. }
      apply Hin in Hm. tauto.
  - assert (Hnil : allTimes = []).
    { destruct (sort_numbers allTimes) as [|a l] eqn:E.
      - apply Permutation_sym, Permutation_nil in Hperm. assumption.
      - destruct (lastOf_defined (a :: l)) as [x Hx]; [discriminate|]. congruence. }
    assert (Hnone : forall t, ~ In t allTimes) by (rewrite Hnil; intros t []).
    split; [|split].
    + intros track t Htr Ht. exfalso. apply (Hnone t), Hin. left. eauto.
    + intros track t Htr Ht. exfalso. apply (Hnone t), Hin. right. eauto.
    + right. right. split; [reflexivity|]. split; apply Forall_forall; intros track Htr.
      * destruct (bt_times track) as [|t l] eqn:E; [reflexivity|]. exfalso.
        apply (Hnone t), Hin. left. exists track. rewrite E. split; [assumption|left; reflexivity].
      * destruct (pt_times track) as [|t l] eqn:E; [reflexivity|]. exfalso.
        apply (Hnone t), Hin. right. exists track. rewrite E. split; [assumption|left; reflexivity].
Qed.

(** X10 on a clip whose duration is -1, as the extractor leaves it. *)
Lemma calculateDuration_witness :
  (forall track t, In track (clip_tracks sourceClip) -> In t (bt_times track) ->
     t <= calculateDuration sourceClip)
  /\ (forall track t, In track (clip_positionTracks sourceClip) -> In t (pt_times track) ->
        t <= calculateDuration sourceClip)
  /\ ((exists track, In track (clip_tracks sourceClip)
                     /\ In (calculateDuration sourceClip) (bt_times track))
      \/ (exists track, In track (clip_positionTracks sourceClip)
                        /\ In (calculateDuration sourceClip) (pt_times track))
      \/ (calculateDuration sourceClip = 0
          /\ Forall (fun track => bt_times track = []) (clip_tracks sourceClip)
          /\ Forall (fun track => pt_times track = []) (clip_positionTracks sourceClip))).
Proof.
  apply (calculateDuration_is_the_latest_key_time sourceClip).
  unfold sourceClip. cbn [clip_duration]. lra.
Defined.

(** *** From the retargeter to the writer *)

Lemma mapM_total {A B} (P : A -> Prop) (Q : B -> Prop) (f : A -> js B) xs :
  (forall x, In x xs -> P x -> exists y, f x = Ret y /\ Q y) ->
  Forall P xs -> exists ys, mapM f xs = Ret ys /\ Forall Q ys /\ length ys = length xs.
Proof.
  induction xs as [|x xs IH]; intros Hf HP.
  - exists []. repeat split; constructor.
  - inversion HP as [|? ? Hx Hxs]; subst.
    destruct (Hf x (or_introl eq_refl) Hx) as (y & Ey & Hy).
    destruct IH as (ys & Eys & Hys & Hlen); [intros; apply Hf; [right|]; assumption|assumption|].
    exists (y :: ys). cbn [mapM bind]. rewrite Ey. cbn [bind]. rewrite Eys. cbn [bind].
    repeat split; [constructor; assumption|cbn; lia].
Qed.

Lemma mapM_Forall2 {A B} (R : A -> B -> Prop) (f : A -> js B) xs : forall ys,
  (forall x y, In x xs -> f x = Ret y -> R x y) ->
  mapM f xs = Ret ys -> Forall2 R xs ys.
Proof.
  induction xs as [|x xs IH]; intros ys Hf H; cbn [mapM] in H.
  - injection H as <-. constructor.
  - destruct (f x) as [y|] eqn:Ey; cbn [bind] in H; [|discriminate].
    destruct (mapM f xs) as [ys'|] eqn:Eys; cbn [bind] in H; [|discriminate].
    injection H as <-. constructor; [apply Hf; [left; reflexivity|assumption]|].
    apply IH; [intros; apply Hf; [right|]; assumption|reflexivity].
Qed.

Lemma plain_not_inherited {A} (table : list (string * A)) name :
  plain_name name -> Object_get table (fst (mapBoneName name)) <> Inherited.
Proof.
  unfold plain_name, Object_get. intros ->.
  destruct (Map_get String.eqb table _); discriminate.
Qed.

Lemma retargetBoneTrack_shape track out :
  retargetBoneTrack track = Ret out ->
  times out = bt_times track /\ originalName out = bt_original_name track
  /\ length (quats out) = length (bt_quats track).
Proof.
  unfold retargetBoneTrack. destruct (mapBoneName (bt_name track)) as [mixamoName mmdName].
  destruct (retargetQuats _ _) as [qs|] eqn:Eq; cbn [bind]; [|discriminate].
  destruct mmdName as [n|]; cbn [bind]; [|discriminate].
  intros [= <-]. cbn. repeat split.
  unfold retargetQuats in Eq. clear -Eq. revert qs Eq.
  induction (bt_quats track) as [|q l IH]; intros qs Eq; cbn [mapM] in Eq.
  - injection Eq as <-. reflexivity.
  - match type of Eq with bind ?m _ = _ => destruct m; cbn [bind] in Eq; [|discriminate] end.
    destruct (mapM _ l) as [qs'|]; cbn [bind] in Eq; [|discriminate].
    injection Eq as <-. cbn. rewrite (IH qs' eq_refl). reflexivity.
Qed.

Lemma retargetBoneTrack_defined track :
  wf_sourceBoneTrack track -> exists out, retargetBoneTrack track = Ret out /\ wf_boneTrack out.
Proof.
  intros (Hne & Hlen & Hplain).
  assert (Hret : exists out, retargetBoneTrack track = Ret out).
  { unfold retargetBoneTrack.
    pose proof (plain_not_inherited RETARGET_TRANSFORMS _ Hplain) as Ht.
    pose proof (plain_not_inherited BONE_MAP _ Hplain) as Hb.
    unfold mapBoneName in *. cbn [fst] in *.
    set (mixamoName := match match_mixamorig (bt_name track) with Some m => m | None => _ end) in *.
    assert (Hq : exists qs, retargetQuats (Object_get RETARGET_TRANSFORMS mixamoName)
                              (bt_quats track) = Ret qs).
    { unfold retargetQuats.
      destruct (Object_get RETARGET_TRANSFORMS mixamoName) as [transform| |].
      - generalize (bt_quats track) as l.
        induction l as [|q l [qs IH]]; [eexists; reflexivity|].
        cbn [mapM bind]. rewrite IH. eexists; reflexivity.
      - contradiction.
      - generalize (bt_quats track) as l.
        induction l as [|q l [qs IH]]; [eexists; reflexivity|].
        cbn [mapM bind]. rewrite IH. eexists; reflexivity. }
    destruct Hq as [qs ->]. cbn [bind].
    destruct (Object_get BONE_MAP mixamoName); [| contradiction |]; eexists; reflexivity. }
  destruct Hret as [out Hout]. exists out. split; [assumption|].
  destruct (retargetBoneTrack_shape _ _ Hout) as (Ht & _ & Hq).
  split; [rewrite Ht; assumption|congruence].
Qed.

Lemma retargetPositionTrack_shape track out :
  retargetPositionTrack track = Ret out ->
  ptimes out = pt_times track /\ poriginalName out = pt_original_name track
  /\ length (positions out) = length (pt_positions track).
Proof.
  unfold retargetPositionTrack.
  destruct (mapBoneName (pt_name track)) as [mixamoName mmdName].
  destruct mmdName as [n|]; cbn [bind]; [|discriminate].
  intros [= <-]. cbn. rewrite length_map. repeat split.
Qed.

Lemma retargetPositionTrack_defined track :
  wf_sourcePositionTrack track ->
  exists out, retargetPositionTrack track = Ret out /\ wf_positionTrack out.
Proof.
  intros (Hne & Hlen & Hplain).
  assert (Hret : exists out, retargetPositionTrack track = Ret out).
  { unfold retargetPositionTrack.
    pose proof (plain_not_inherited BONE_MAP _ Hplain) as Hb.
    unfold mapBoneName in *. cbn [fst] in *.
    destruct (Object_get BONE_MAP _); [| contradiction |]; eexists; reflexivity. }
  destruct Hret as [out Hout]. exists out. split; [assumption|].
  destruct (retargetPositionTrack_shape _ _ Hout) as (Ht & _ & Hq).
  split; [rewrite Ht; assumption|congruence].
Qed.

(** X11.  Clips whose tracks have at least one key, one value per key time
    and a name that is no name of [Object.prototype] pass through the
    pipeline: [retargetClips] returns one clip per clip, with the same name,
    30 frames per second and, track by track, the same key times and as many
    values; and [convertToVMD] returns a blob for each of them, at every
    frame rate. *)
Theorem retargeted_clips_can_be_written sjis float32 localeCompare normalize clips :
  Forall wf_sourceClip clips ->
  exists out,
    retargetClips clips = Ret out
    /\ Forall2 (fun clip rc =>
                  rc_name rc = clip_name clip /\ fps rc = 30%R
                  /\ Forall2 (fun t r => times r = bt_times t
                                         /\ length (quats r) = length (bt_quats t))
                       (clip_tracks clip) (boneTracks rc)
                  /\ Forall2 (fun t r => ptimes r = pt_times t
                                         /\ length (positions r) = length (pt_positions t))
                       (clip_positionTracks clip) (positionTracks rc)) clips out
    /\ Forall (fun rc => forall rate, exists blob,
                 convertToVMD sjis float32 localeCompare normalize rc rate = Ret blob) out.
Proof.
  intros Hwf. unfold retargetClips.
  match goal with |- context [mapM ?g clips] => set (f := g) end.
  destruct (mapM_total wf_sourceClip wf_clip f clips) as (out & Eout & Hout & _);
    [|assumption|].
  { intros clip _ [Hb Hp]. unfold f.
    destruct (mapM_total _ wf_boneTrack retargetBoneTrack (clip_tracks clip)
                (fun x _ => retargetBoneTrack_defined x) Hb) as (bs & -> & Hbs & _).
    destruct (mapM_total _ wf_positionTrack retargetPositionTrack (clip_positionTracks clip)
                (fun x _ => retargetPositionTrack_defined x) Hp) as (ps & -> & Hps & _).
    cbn [bind]. eexists; split; [reflexivity|]. split; assumption. }
  exists out. split; [assumption|]. split.
  - eapply mapM_Forall2; [|exact Eout]. intros clip rc _. unfold f.
    destruct (mapM retargetBoneTrack _) as [bs|] eqn:Eb; cbn [bind]; [|discriminate].
    destruct (mapM retargetPositionTrack _) as [ps|] eqn:Ep; cbn [bind]; [|discriminate].
    intros [= <-]. cbn. repeat split.
    + eapply mapM_Forall2; [|exact Eb]. intros t r _ H.
      apply retargetBoneTrack_shape in H. tauto.
    + eapply mapM_Forall2; [|exact Ep]. intros t r _ H.
      apply retargetPositionTrack_shape in H. tauto.
  - eapply Forall_impl; [|exact Hout]. intros rc Hrc rate.
    destruct (convertToVMD_defined sjis float32 localeCompare normalize rc rate Hrc)
      as (blob & Hb & _). eauto.
Qed.

(** X11 on a clip with a rotation track and a position track of the hips. *)
Lemma retargeted_clips_witness :
  exists out,
    retargetClips [sourceClip] = Ret out
    /\ Forall2 (fun clip rc =>
                  rc_name rc = clip_name clip /\ fps rc = 30%R
                  /\ Forall2 (fun t r => times r = bt_times t
                                         /\ length (quats r) = length (bt_quats t))
                       (clip_tracks clip) (boneTracks rc)
                  /\ Forall2 (fun t r => ptimes r = pt_times t
                                         /\ length (positions r) = length (pt_positions t))
                       (clip_positionTracks clip) (positionTracks rc)) [sourceClip] out
    /\ Forall (fun rc => forall rate, exists blob,
                 convertToVMD Samples.ascii_sjis Samples.zero_float32 Samples.byte_compare
                   Samples.keep rc rate = Ret blob) out.
Proof.
  apply (retargeted_clips_can_be_written Samples.ascii_sjis Samples.zero_float32
           Samples.byte_compare Samples.keep [sourceClip]).
  constructor; [|constructor]. split.
  - constructor; [|constructor]. split; [discriminate|]. split; reflexivity.
  - constructor; [|constructor]. split; [discriminate|]. split; reflexivity.
Defined.

End RetargetFlowFacts.

(** ** The VMD writer: order, layout and origin of the records *)

Module WriterFacts.

Import JS Retarget VmdWriter VmdFormat VmdInvariants JSFacts BufferFacts RecordFacts
  KeyframeFacts CollectFacts ConvertFacts Shapes OrderFacts Samples MoreSamples.
Local Open Scope js_scope.

(** *** A clip with keys on two frames *)

Lemma twoKeyTimes : sort_numbers (Set_addEach (fun t => t) [0; 1] []) = [0; 1].
Proof.
  unfold Set_addEach. cbn [fold_left].
  rewrite (Set_add_new [] 0) by (simpl; tauto). cbn [app].
  rewrite (Set_add_new [0] 1) by (simpl; intros [H|[]]; lra). cbn [app].
  unfold sort_numbers, Array_sort. cbn [fold_left insert_sorted]. js_cmp. reflexivity.
Qed.

Lemma collectKeyframes_twoKey localeCompare normalize :
  collectKeyframes localeCompare normalize twoKeyClip 30
  = Ret [mkKeyframe "センター" 0 (Some (Vec3_numbers (Vec3.new 0 0 0)))
           (Some (Quat_numbers (Quat.new 0 0 0 (-1))));
         mkKeyframe "センター" 30 (Some (Vec3_numbers (Vec3.new 0 0 0)))
           (Some (Quat_numbers (Quat.new 0 0 1 0)))].
Proof.
  unfold collectKeyframes, twoKeyClip.
  cbn [positionTracks boneTracks fold_left foldM].
  unfold boneTracks_step. cbn [Map_get].
  change (times twoKeyTrack) with [0; 1].
  rewrite twoKeyTimes. cbn [foldM].
  unfold boneTrack_step.
  assert (H0 : rotationAt normalize twoKeyTrack 0 = Ret (Some (Quat.new 0 0 0 (-1)))).
  { unfold rotationAt, twoKeyTrack. cbn [times quats findIndex]. abs_cmp. reflexivity. }
  assert (H1 : rotationAt normalize twoKeyTrack 1 = Ret (Some (Quat.new 0 0 1 0))).
  { unfold rotationAt, twoKeyTrack. cbn [times quats findIndex]. abs_cmp.
    cbn [findIndex option_map]. abs_cmp. reflexivity. }
  rewrite H0, H1. cbn [bind].
  rewrite (Math_round_small (0 * 30)) by lra.
  replace (1 * 30) with (IZR 30) by lra. rewrite Math_round_IZR.
  cbn [bind Map_set Z.eqb Pos.eqb option_map name twoKeyTrack foldM map flat_map Map_values
       snd app].
  unfold Array_sort. cbn [fold_left insert_sorted].
  unfold keyframe_lt. cbn [frameNumber Z.eqb negb Z.sub Z.add Z.opp Z.pos_sub Pos.add
                            Pos.succ Pos.pred_double Z.succ_double Z.pred_double Z.double].
  js_cmp. reflexivity.
Qed.

(** *** The order of the records *)

Section Order.

Variable localeCompare : string -> string -> R.

Lemma keyframe_lt_true a b :
  keyframe_lt localeCompare a b = true -> (frameNumber a <= frameNumber b)%Z.
Proof.
  unfold keyframe_lt. destruct (Z.eqb_spec (frameNumber a) (frameNumber b)) as [E|E];
    cbn [negb]; [lia|].
  unfold ltb. destruct (Rlt_dec _ _) as [H|H]; [|discriminate]. intros _.
  apply lt_IZR in H. lia.
Qed.

Lemma keyframe_lt_false a b :
  keyframe_lt localeCompare a b = false -> (frameNumber b <= frameNumber a)%Z.
Proof.
  unfold keyframe_lt. destruct (Z.eqb_spec (frameNumber a) (frameNumber b)) as [E|E];
    cbn [negb]; [lia|].
  unfold ltb. destruct (Rlt_dec _ _) as [H|H]; [discriminate|]. intros _.
  destruct (Z.lt_ge_cases (frameNumber a) (frameNumber b)) as [Hlt|Hge]; [|lia].
  exfalso. apply H. apply IZR_lt. lia.
Qed.

Lemma frame_ordered_tail a l : frame_ordered (a :: l) -> frame_ordered l.
Proof. destruct l; [intros; exact I|]. intros [_ H]. exact H. Qed.

Lemma insert_sorted_frame_ordered x l :
  frame_ordered l -> frame_ordered (insert_sorted (keyframe_lt localeCompare) x l).
Proof.
  induction l as [|y l IH]; intros Hord; [exact I|].
  cbn [insert_sorted]. destruct (keyframe_lt localeCompare x y) eqn:Exy.
  - split; [apply keyframe_lt_true, Exy|assumption].
  - apply keyframe_lt_false in Exy.
    assert (IH' := IH (frame_ordered_tail _ _ Hord)).
    destruct l as [|z l]; [cbn; split; [assumption|exact I]|].
    destruct Hord as [Hyz _]. cbn [insert_sorted] in *.
    destruct (keyframe_lt localeCompare x z); (split; [assumption|exact IH']).
Qed.

Lemma Array_sort_frame_ordered l : frame_ordered (Array_sort (keyframe_lt localeCompare) l).
Proof.
  unfold Array_sort.
  enough (H : forall acc, frame_ordered acc ->
              frame_ordered (fold_left (fun acc x => insert_sorted (keyframe_lt localeCompare) x acc)
                               l acc)) by (apply H; exact I).
  induction l as [|x l IH]; intros acc Hacc; cbn [fold_left]; [assumption|].
  apply IH, insert_sorted_frame_ordered, Hacc.
Qed.

Lemma frame_ordered_le l : frame_ordered l ->
  forall i j a b, (i <= j)%nat -> nth_error l i = Some a -> nth_error l j = Some b ->
                  (frameNumber a <= frameNumber b)%Z.
Proof.
  induction l as [|x l IH]; intros Hord i j a b Hij Ha Hb; [destruct i; discriminate|].
  assert (Hhead : forall k c, nth_error l k = Some c -> (frameNumber x <= frameNumber c)%Z).
  { clear - Hord. revert x Hord. induction l as [|y l IHl]; intros x Hord k c Hc;
      [destruct k; discriminate|].
    destruct Hord as [Hxy Hord]. destruct k as [|k]; cbn in Hc.
    - injection Hc as <-. assumption.
    - specialize (IHl y Hord k c Hc). lia. }
  destruct i as [|i], j as [|j]; cbn in Ha, Hb; try lia.
  - injection Ha as <-. injection Hb as <-. lia.
  - injection Ha as <-. eapply Hhead, Hb.
  - apply (IH (frame_ordered_tail _ _ Hord) i j); [lia|assumption..].
Qed.

End Order.

(** X12.  The records [convertToVMD] collects are in the order of their
    frame numbers: a record never comes before one of an earlier frame,
    whatever [localeCompare] does with the names. *)
Theorem records_are_in_frame_order localeCompare normalize clip fps keyframes :
  collectKeyframes localeCompare normalize clip fps = Ret keyframes ->
  forall i j a b, (i <= j)%nat ->
    nth_error keyframes i = Some a -> nth_error keyframes j = Some b ->
    (frameNumber a <= frameNumber b)%Z.
Proof.
  unfold collectKeyframes.
  match goal with |- context [foldM ?f ?xs []] =>
    destruct (foldM f xs []) as [km|] end; cbn [bind]; [|discriminate].
  match goal with |- context [foldM ?f ?xs km] =>
    destruct (foldM f xs km) as [km'|] end; cbn [bind]; [|discriminate].
  intros [= <-]. apply frame_ordered_le, Array_sort_frame_ordered.
Qed.

(** X12 on the clip with keys at 0 s and 1 s: the record of frame 0 comes
    first, the record of frame 30 second. *)
Lemma records_in_frame_order_witness :
  Z.le (frameNumber (mkKeyframe "センター" 0 (Some (Vec3_numbers (Vec3.new 0 0 0)))
                       (Some (Quat_numbers (Quat.new 0 0 0 (-1))))))
       (frameNumber (mkKeyframe "センター" 30 (Some (Vec3_numbers (Vec3.new 0 0 0)))
                       (Some (Quat_numbers (Quat.new 0 0 1 0))))).
Proof.
  apply (records_are_in_frame_order byte_compare keep twoKeyClip 30 _
           (collectKeyframes_twoKey byte_compare keep) 0%nat 1%nat);
    [lia|reflexivity|reflexivity].
Defined.

(** *** Where the records sit in the blob *)

Lemma firstn_prefix {A} (pre rest : list A) n :
  length pre = n -> firstn n (pre ++ rest) = pre.
Proof.
  intros <-. rewrite firstn_app, Nat.sub_diag, firstn_all, firstn_O, app_nil_r. reflexivity.
Qed.

(** Chunks of one size sit at the multiples of the size. *)
Lemma concat_chunk {A} (size : nat) (chunks : list (list A)) :
  Forall (fun c => length c = size) chunks ->
  forall i c rest, nth_error chunks i = Some c ->
    firstn size (skipn (size * i) (concat chunks ++ rest)) = c.
Proof.
  induction 1 as [|c0 chunks Hc0 Hall IH]; intros i c rest Hi; [destruct i; discriminate|].
  destruct i as [|i]; cbn [nth_error] in Hi.
  - injection Hi as <-. rewrite Nat.mul_0_r. cbn [skipn concat].
    rewrite <- app_assoc. apply firstn_prefix, Hc0.
  - cbn [concat]. rewrite <- app_assoc.
    replace (size * S i)%nat with (size * i + size)%nat by lia.
    rewrite <- skipn_skipn. rewrite (skipn_prefix c0) by assumption.
    apply IH, Hi.
Qed.

Lemma recordOf_length sjis float32 kf :
  keyframe_defined kf -> length (recordOf sjis float32 kf) = 111%nat.
Proof.
  intros [Hp Hq]. unfold recordOf.
  destruct (position kf); [|contradiction]. destruct (rotation kf); [|contradiction].
  apply boneFrame_length.
Qed.

(** X13.  The blob of a clip with at least one key time starts with the 25
    characters of the signature and 25 NUL bytes, then the number of
    records as a little-endian 32-bit integer; record [i] of the collected
    keyframes takes the 111 bytes from offset [54 + 111 * i]; the four zero
    counts follow the last record; and the type of the blob is
    [application/octet-stream]. *)
Theorem blob_holds_the_header_and_one_record_per_keyframe
    sjis float32 localeCompare normalize clip fps :
  wf_clip clip -> sortedTimes clip <> [] ->
  exists keyframes blob,
    collectKeyframes localeCompare normalize clip fps = Ret keyframes
    /\ convertToVMD sjis float32 localeCompare normalize clip fps = Ret blob
    /\ blob_type blob = "application/octet-stream"%string
    /\ firstn 50 (blob_bytes blob)
       = charCodes "Vocaloid Motion Data 0002" ++ repeat 0%Z 25
    /\ firstn 4 (skipn 50 (blob_bytes blob)) = uint32_le (Z.of_nat (length keyframes))
    /\ (forall i kf, nth_error keyframes i = Some kf ->
          exists p q,
            position kf = Some p /\ rotation kf = Some q
            /\ firstn 111 (skipn (54 + 111 * i) (blob_bytes blob))
               = boneFrame sjis float32 (boneName kf) (frameNumber kf)
                   (writtenPosition p) (writtenRotation q))
    /\ firstn 16 (skipn (54 + 111 * length keyframes) (blob_bytes blob)) = repeat 0%Z 16.
Proof.
  intros Hwf Hne.
  destruct (convertToVMD_defined sjis float32 localeCompare normalize clip fps Hwf)
    as (blob & Hb & H).
  destruct (sortedTimes clip) as [|t ts]; [contradiction|].
  destruct H as (kfs & Hc & Hd & ->). exists kfs. eexists.
  split; [exact Hc|]. split; [exact Hb|]. split; [reflexivity|].
  cbn [blob_bytes]. unfold file.
  assert (Hh : length header = 50%nat) by reflexivity.
  assert (Hrecs : Forall (fun c => length c = 111%nat) (map (recordOf sjis float32) kfs)).
  { apply Forall_map. eapply Forall_impl; [|exact Hd]. apply recordOf_length. }
  split; [rewrite firstn_prefix by assumption; reflexivity|].
  split.
  { rewrite skipn_prefix by assumption. rewrite length_map.
    apply firstn_prefix, uint32_le_length. }
  split.
  - intros i kf Hi. rewrite Forall_forall in Hd.
    destruct (Hd kf (nth_error_In _ _ Hi)) as [Hp Hq].
    destruct (position kf) as [p|] eqn:Ep; [|contradiction].
    destruct (rotation kf) as [q|] eqn:Eq; [|contradiction].
    exists p, q. split; [reflexivity|]. split; [reflexivity|].
    replace (54 + 111 * i)%nat with (111 * i + 54)%nat by lia. rewrite <- skipn_skipn.
    rewrite (app_assoc header). rewrite (skipn_prefix (header ++ _))
      by (rewrite length_app, uint32_le_length; rewrite Hh; reflexivity).
    rewrite (concat_chunk 111 _ Hrecs i (recordOf sjis float32 kf))
      by (rewrite nth_error_map, Hi; reflexivity).
    unfold recordOf. rewrite Ep, Eq. reflexivity.
  - rewrite !app_assoc. rewrite <- (app_assoc _ (uint32_le 0) (uint32_le 0)).
    rewrite <- !app_assoc.
    rewrite (app_assoc header), (app_assoc (header ++ _)).
    rewrite skipn_prefix.
    + reflexivity.
    + rewrite !length_app, uint32_le_length, Hh, (records_length sjis float32 kfs Hd). lia.
Qed.

(** X13 on the clip with one key. *)
Lemma blob_layout_witness :
  exists keyframes blob,
    collectKeyframes byte_compare keep oneKeyClip 30 = Ret keyframes
    /\ convertToVMD ascii_sjis zero_float32 byte_compare keep oneKeyClip 30 = Ret blob
    /\ blob_type blob = "application/octet-stream"%string
    /\ firstn 50 (blob_bytes blob)
       = charCodes "Vocaloid Motion Data 0002" ++ repeat 0%Z 25
    /\ firstn 4 (skipn 50 (blob_bytes blob)) = uint32_le (Z.of_nat (length keyframes))
    /\ (forall i kf, nth_error keyframes i = Some kf ->
          exists p q,
            position kf = Some p /\ rotation kf = Some q
            /\ firstn 111 (skipn (54 + 111 * i) (blob_bytes blob))
               = boneFrame ascii_sjis zero_float32 (boneName kf) (frameNumber kf)
                   (writtenPosition p) (writtenRotation q))
    /\ firstn 16 (skipn (54 + 111 * length keyframes) (blob_bytes blob)) = repeat 0%Z 16.
Proof.
  apply (blob_holds_the_header_and_one_record_per_keyframe
           ascii_sjis zero_float32 byte_compare keep oneKeyClip 30).
  - split; [|constructor]. constructor; [|constructor]. split; [discriminate|reflexivity].
  - rewrite sortedTimes_oneKey. discriminate.
Defined.

(** *** Keys and the records built from them *)

Lemma findIndex_first {A} (p : A -> bool) xs : forall i x,
  nth_error xs i = Some x -> p x = true ->
  (forall j y, (j < i)%nat -> nth_error xs j = Some y -> p y = false) ->
  findIndex p xs = Some i.
Proof.
  induction xs as [|x0 xs IH]; intros i x Hi Hp Hbefore; [destruct i; discriminate|].
  cbn [findIndex]. destruct i as [|i]; cbn [nth_error] in Hi.
  - injection Hi as <-. rewrite Hp. reflexivity.
  - rewrite (Hbefore 0%nat x0) by (try lia; reflexivity).
    rewrite (IH i x Hi Hp); [reflexivity|].
    intros j y Hj Hy. apply (Hbefore (S j) y); [lia|exact Hy].
Qed.

Lemma findIndex_none {A} (p : A -> bool) xs :
  Forall (fun x => p x = false) xs -> findIndex p xs = None.
Proof.
  induction 1 as [|x xs Hx _ IH]; [reflexivity|]. cbn [findIndex]. rewrite Hx, IH. reflexivity.
Qed.

(** The search within the tolerance finds the key itself. *)
Lemma findIndex_key times i t :
  separated times -> nth_error times i = Some t ->
  findIndex (fun t' => ltb (Math_abs (t' - t)) 0.0001) times = Some i.
Proof.
  intros Hsep Hi. apply findIndex_first with (x := t); [assumption| |].
  - replace (t - t) with 0 by ring. unfold Math_abs. rewrite Rabs_R0. apply ltb_true. lra.
  - intros j y Hj Hy. apply ltb_false. unfold Math_abs.
    specialize (Hsep j i y t Hy Hi ltac:(lia)). lra.
Qed.

(** The search for the first time at or after a key finds the key. *)
Lemma findIndex_at_key times i t :
  increasing times -> nth_error times i = Some t ->
  findIndex (fun t' => geb t' t) times = Some i.
Proof.
  intros Hinc Hi. apply findIndex_first with (x := t); [assumption| |].
  - unfold geb. apply leb_true. lra.
  - intros j y Hj Hy. unfold geb. apply leb_false.
    pose proof (increasing_lt times Hinc j i y t Hj Hy Hi). lra.
Qed.

(** X14.  A key is collected unchanged: when the key times of a rotation
    track are at least 0.0001 s apart, the turn of the loop for the time of
    key [i] stores, under frame [Math.round (t * fps)], a record with the
    quaternion of key [i]; its position is (0, 0, 0) without a position
    track, and the position of key [j] of the position track when that
    track has the same time as its key [j]. *)
Theorem keys_are_collected_unchanged normalize fps track m i t q :
  separated (times track) ->
  nth_error (times track) i = Some t -> nth_error (quats track) i = Some q ->
  boneTrack_step normalize fps track None m t
  = Ret (Map_set Z.eqb m (Math_round (t * fps))
           (mkKeyframe (name track) (Math_round (t * fps))
              (Some (Vec3_numbers (Vec3.new 0 0 0))) (Some (Quat_numbers q))))
  /\ forall posTrack j p,
       separated (ptimes posTrack) ->
       nth_error (ptimes posTrack) j = Some t -> nth_error (positions posTrack) j = Some p ->
       boneTrack_step normalize fps track (Some posTrack) m t
       = Ret (Map_set Z.eqb m (Math_round (t * fps))
                (mkKeyframe (name track) (Math_round (t * fps))
                   (Some (Vec3_numbers p)) (Some (Quat_numbers q)))).
Proof.
  intros Hsep Hi Hq. unfold boneTrack_step, rotationAt.
  rewrite (findIndex_key _ i t Hsep Hi), Hq. cbn [bind option_map].
  split; [reflexivity|].
  intros posTrack j p Hsp Hj Hp. unfold positionAt.
  rewrite (findIndex_key _ j t Hsp Hj), Hp. reflexivity.
Qed.

(** X14 on the second key of the track with keys at 0 s and 1 s. *)
Lemma keys_collected_witness :
  boneTrack_step keep 30 twoKeyTrack None [] 1
  = Ret (Map_set Z.eqb [] (Math_round (1 * 30))
           (mkKeyframe (name twoKeyTrack) (Math_round (1 * 30))
              (Some (Vec3_numbers (Vec3.new 0 0 0)))
              (Some (Quat_numbers (Quat.new 0 0 1 0)))))
  /\ forall posTrack j p,
       separated (ptimes posTrack) ->
       nth_error (ptimes posTrack) j = Some 1 -> nth_error (positions posTrack) j = Some p ->
       boneTrack_step keep 30 twoKeyTrack (Some posTrack) [] 1
       = Ret (Map_set Z.eqb [] (Math_round (1 * 30))
                (mkKeyframe (name twoKeyTrack) (Math_round (1 * 30))
                   (Some (Vec3_numbers p)) (Some (Quat_numbers (Quat.new 0 0 1 0))))).
Proof.
  apply (keys_are_collected_unchanged keep 30 twoKeyTrack [] 1%nat 1 (Quat.new 0 0 1 0)).
  - unfold separated, twoKeyTrack. cbn [times]. intros i j a b Ha Hb Hij.
    destruct i as [|[|i]], j as [|[|j]]; cbn in Ha, Hb;
      try (destruct i; discriminate); try (destruct j; discriminate);
      try contradiction;
      injection Ha as <-; injection Hb as <-;
      unfold Rabs; destruct (Rcase_abs _); lra.
  - reflexivity.
  - reflexivity.
Defined.

(** X15.  Outside the key range the interpolations hold the nearest key,
    and at a key they return it: [interpolateQuat] and [interpolatePosition]
    return the first value at or before the first key time, the last value
    after every key time, and, when the key times increase strictly, the
    value of key [i] at the time of key [i]. *)
Theorem interpolation_holds_the_keys normalize :
  (forall track time t0 rest,
     times track = t0 :: rest -> time <= t0 ->
     interpolateQuat normalize track time = Ret (nth_error (quats track) 0))
  /\ (forall track time,
        Forall (fun t => t < time) (times track) ->
        interpolateQuat normalize track time = Ret (lastOf (quats track)))
  /\ (forall track i t,
        increasing (times track) -> nth_error (times track) i = Some t ->
        interpolateQuat normalize track t = Ret (nth_error (quats track) i))
  /\ (forall track time t0 rest,
        ptimes track = t0 :: rest -> time <= t0 ->
        interpolatePosition track time = Ret (nth_error (positions track) 0))
  /\ (forall track time,
        Forall (fun t => t < time) (ptimes track) ->
        interpolatePosition track time = Ret (lastOf (positions track)))
  /\ (forall track i t,
        increasing (ptimes track) -> nth_error (ptimes track) i = Some t ->
        interpolatePosition track t = Ret (nth_error (positions track) i)).
Proof.
  assert (Hfirst : forall time t0 rest, time <= t0 ->
            findIndex (fun t => geb t time) (t0 :: rest) = Some 0%nat).
  { intros time t0 rest H. cbn [findIndex]. unfold geb. rewrite leb_true by assumption.
    reflexivity. }
  assert (Hnone : forall time ts, Forall (fun t => t < time) ts ->
            findIndex (fun t => geb t time) ts = None).
  { intros time ts H. apply findIndex_none. eapply Forall_impl; [|exact H].
    cbn. intros t Ht. unfold geb. apply leb_false. lra. }
  assert (Heq : forall t, eqb t t = true)
    by (intros t; unfold eqb; destruct (Req_dec_T t t); [reflexivity|contradiction]).
  repeat split.
  - intros track time t0 rest E H. unfold interpolateQuat. rewrite E, Hfirst by assumption.
    reflexivity.
  - intros track time H. unfold interpolateQuat. rewrite Hnone by assumption. reflexivity.
  - intros track i t Hinc Hi. unfold interpolateQuat.
    rewrite (findIndex_at_key _ i t Hinc Hi), Hi, Heq, orb_true_r. reflexivity.
  - intros track time t0 rest E H. unfold interpolatePosition. rewrite E, Hfirst by assumption.
    reflexivity.
  - intros track time H. unfold interpolatePosition. rewrite Hnone by assumption. reflexivity.
  - intros track i t Hinc Hi. unfold interpolatePosition.
    rewrite (findIndex_at_key _ i t Hinc Hi), Hi, Heq, orb_true_r. reflexivity.
Qed.

(** *** Where the records come from *)

Lemma Map_get_entry {K V} (keq : K -> K -> bool) (m : list (K * V)) k v :
  Map_get keq m k = Some v -> exists k0, keq k0 k = true /\ In (k0, v) m.
Proof.
  induction m as [|[k0 v0] m IH]; cbn [Map_get]; [discriminate|].
  destruct (keq k0 k) eqn:E.
  - intros [= ->]. exists k0. split; [assumption|left; reflexivity].
  - intros H. destruct (IH H) as (k1 & Hk & Hin). exists k1. split; [assumption|right; assumption].
Qed.

Lemma positionTrackMap_keys (tracks : list RetargetedPositionTrack) : forall m,
  Forall (fun e => pname (snd e) = fst e) m ->
  Forall (fun e => pname (snd e) = fst e)
    (fold_left (fun m track => Map_set String.eqb m (pname track) track) tracks m).
Proof.
  induction tracks as [|t tracks IH]; intros m Hm; cbn [fold_left]; [assumption|].
  apply IH. apply Map_set_Forall; [|reflexivity|assumption].
  intros k0 Hk. apply String.eqb_eq in Hk. subst. reflexivity.
Qed.

(** The position track found under a name is a track of the clip, of that
    name. *)
Lemma positionTrackMap_entry (tracks : list RetargetedPositionTrack) n pt :
  Map_get String.eqb
    (fold_left (fun m track => Map_set String.eqb m (pname track) track) tracks []) n
  = Some pt ->
  In pt tracks /\ pname pt = n.
Proof.
  intros H. split.
  - apply positionTrackMap_In in H as [H|[]]. assumption.
  - apply Map_get_entry in H as (k0 & Hk & Hin). apply String.eqb_eq in Hk. subst k0.
    pose proof (positionTrackMap_keys tracks [] (Forall_nil _)) as Hall.
    rewrite Forall_forall in Hall. apply (Hall (n, pt) Hin).
Qed.

Lemma keyframes_Forall (P : VMDBoneKeyframe -> Prop) (km : KeyframeMap) :
  Forall (fun e => Forall (fun fe => P (snd fe)) (snd e)) km ->
  Forall P (flat_map (fun boneKeyframes => Map_values boneKeyframes) (Map_values km)).
Proof.
  unfold Map_values at 2. induction 1 as [|[n m] km Hm _ IH]; cbn [map flat_map snd].
  - constructor.
  - apply Forall_app. split; [|assumption].
    unfold Map_values. apply Forall_map. exact Hm.
Qed.

Lemma boneTracks_step_sourced normalize clip fps km track km' :
  In track (boneTracks clip) -> sourced clip fps km ->
  boneTracks_step normalize fps
    (fold_left (fun m track => Map_set String.eqb m (pname track) track)
       (positionTracks clip) []) km track = Ret km' ->
  sourced clip fps km'.
Proof.
  intros Htrack Hkm. unfold boneTracks_step.
  set (posTrack := Map_get String.eqb _ (name track)).
  set (boneTimes := match posTrack with Some p => _ | None => _ end).
  assert (Hsrc : forall t, In t (sort_numbers boneTimes) -> key_time clip (name track) t).
  { intros t Ht. apply (Permutation_in _ (Permutation_sym (Array_sort_perm _ boneTimes))) in Ht.
    unfold boneTimes in Ht. destruct posTrack as [p|] eqn:Ep.
    - apply positionTrackMap_entry in Ep as [Hp Hn].
      apply Set_addEach_In in Ht as [Ht|Ht].
      + apply Set_addEach_In in Ht as [[]|Ht]. left. exists track. auto.
      + right. exists p. auto.
    - apply Set_addEach_In in Ht as [[]|Ht]. left. exists track. auto. }
  match goal with |- context [foldM ?f ?xs []] => destruct (foldM f xs []) as [m|] eqn:E end;
    cbn [bind]; [|discriminate].
  intros [= <-].
  assert (Hm : Forall (fun fe => from_key clip fps (snd fe)) m).
  { eapply (foldM_inv (Forall (fun fe => from_key clip fps (snd fe)))); [| |exact E];
      [|constructor].
    intros a x a' Ha Hx Hs. apply boneTrack_step_set in Hs as (kf & -> & Hn & Hf & _).
    assert (from_key clip fps kf)
      by (exists x; rewrite Hn, Hf; split; [apply Hsrc, Hx|reflexivity]).
    apply Map_set_Forall; cbn [snd]; auto. }
  apply Map_set_Forall; cbn [snd]; auto.
Qed.

Lemma positionTracks_step_sourced clip fps names km posTrack km' :
  In posTrack (positionTracks clip) -> sourced clip fps km ->
  positionTracks_step fps names km posTrack = Ret km' -> sourced clip fps km'.
Proof.
  intros Htrack Hkm. unfold positionTracks_step.
  destruct (negb _); [|intros [= <-]; assumption].
  match goal with |- context [foldM ?f ?xs []] => destruct (foldM f xs []) as [m|] eqn:E end;
    cbn [bind]; [|discriminate].
  intros [= <-].
  assert (Hm : Forall (fun fe => from_key clip fps (snd fe)) m).
  { eapply (foldM_inv (Forall (fun fe => from_key clip fps (snd fe)))); [| |exact E];
      [|constructor].
    intros a x a' Ha Hx Hs. apply positionTrack_step_set in Hs as (kf & -> & Hn & Hf & _).
    assert (from_key clip fps kf)
      by (exists x; rewrite Hn, Hf; split; [right; exists posTrack; auto|reflexivity]).
    apply Map_set_Forall; cbn [snd]; auto. }
  apply Map_set_Forall; cbn [snd]; auto.
Qed.

(** X16.  Every record [convertToVMD] collects stands for a key of the
    clip: its bone is the name of a rotation or position track, and its
    frame number is [Math.round (t * fps)] for a key time [t] of a track of
    that name.  No record is made up for a bone or a frame without a key. *)
Theorem every_record_stands_for_a_key localeCompare normalize clip fps keyframes :
  collectKeyframes localeCompare normalize clip fps = Ret keyframes ->
  forall kf, In kf keyframes ->
    exists t,
      frameNumber kf = Math_round (t * fps)
      /\ ((exists track, In track (boneTracks clip) /\ name track = boneName kf
                         /\ In t (times track))
          \/ (exists track, In track (positionTracks clip) /\ pname track = boneName kf
                            /\ In t (ptimes track))).
Proof.
  unfold collectKeyframes.
  match goal with |- context [foldM ?f ?xs []] =>
    destruct (foldM f xs []) as [km|] eqn:E1 end; cbn [bind]; [|discriminate].
  match goal with |- context [foldM ?f ?xs km] =>
    destruct (foldM f xs km) as [km'|] eqn:E2 end; cbn [bind]; [|discriminate].
  intros [= <-].
  assert (H1 : sourced clip fps km).
  { eapply (foldM_inv (sourced clip fps)); [| |exact E1]; [|constructor].
    intros a x a' Ha Hx. apply boneTracks_step_sourced; assumption. }
  assert (H2 : sourced clip fps km').
  { eapply (foldM_inv (sourced clip fps)); [| |exact E2]; [|assumption].
    intros a x a' Ha Hx. apply positionTracks_step_sourced; assumption. }
  apply keyframes_Forall in H2. rewrite Forall_forall in H2. intros kf Hin.
  destruct (H2 kf) as (t & Hkey & Hframe).
  - eapply Permutation_in; [symmetry; apply Array_sort_perm|exact Hin].
  - exists t. split; [exact Hframe|exact Hkey].
Qed.

(** X16 on the second record of the clip with keys at 0 s and 1 s. *)
Lemma every_record_witness :
  exists t,
    frameNumber (mkKeyframe "センター" 30 (Some (Vec3_numbers (Vec3.new 0 0 0)))
                   (Some (Quat_numbers (Quat.new 0 0 1 0))))
    = Math_round (t * 30)
    /\ ((exists track,
           In track (boneTracks twoKeyClip)
           /\ name track
              = boneName (mkKeyframe "センター" 30 (Some (Vec3_numbers (Vec3.new 0 0 0)))
                            (Some (Quat_numbers (Quat.new 0 0 1 0))))
           /\ In t (times track))
        \/ (exists track,
              In track (positionTracks twoKeyClip)
              /\ pname track
                 = boneName (mkKeyframe "センター" 30 (Some (Vec3_numbers (Vec3.new 0 0 0)))
                               (Some (Quat_numbers (Quat.new 0 0 1 0))))
              /\ In t (ptimes track))).
Proof.
  apply (every_record_stands_for_a_key byte_compare keep twoKeyClip 30 _
           (collectKeyframes_twoKey byte_compare keep)).
  right. left. reflexivity.
Defined.

End WriterFacts.

(** ** Truncated input, empty clips and the hemisphere of the quaternions *)

Module EdgeFacts.

Import JS Fbx FbxBinary Retarget VmdWriter VmdFormat VmdInvariants JSFacts RecordFacts
  OrderFacts ConvertFacts.
Local Open Scope js_scope.

Lemma readUint32_cut_off data :
  (length (binary data) < offset data + 4)%nat -> readUint32 data = Throw RangeError.
Proof.
  intros H. unfold readUint32.
  assert (Hlen : (length (slice (binary data) (offset data) 4) < 4)%nat).
  { unfold slice. rewrite length_firstn, length_skipn. lia. }
  destruct (slice _ _ 4) as [|b0 [|b1 [|b2 [|b3 [|]]]]]; try reflexivity.
  cbn in Hlen. lia.
Qed.

(** X17.  What [readProperty] does with input that ends too early.  A type
    code read at or past the end of the data is unknown, and the call
    throws [Error].  A string or raw property whose four length bytes are
    cut off throws [RangeError].  A raw property whose declared length
    exceeds the data that is left is returned short, without an error, and
    the offset moves past the end of the data. *)
Theorem readProperty_on_input_that_ends_early data :
  ((length (binary data) <= offset data)%nat -> readProperty data = Some (Throw Error))
  /\ (forall code,
        nth_error (binary data) (offset data) = Some code ->
        code = 83%Z \/ code = 82%Z ->
        (length (binary data) < offset data + 5)%nat ->
        readProperty data = Some (Throw RangeError))
  /\ (forall len data',
        nth_error (binary data) (offset data) = Some 82%Z ->
        readUint32 (mkReader (binary data) (offset data + 1)) = Ret (len, data') ->
        exists value,
          readProperty data
          = Some (Ret (PBytes value,
                       mkReader (binary data) (offset data + 1 + 4 + Z.to_nat len)))
          /\ length value
             = Nat.min (Z.to_nat len) (length (binary data) - (offset data + 1 + 4))).
Proof.
  split; [|split].
  - intros H. unfold readProperty, readUint8.
    rewrite (proj2 (nth_error_None _ _) H). reflexivity.
  - intros code Hc Hcode Hlen. unfold readProperty, readUint8. rewrite Hc.
    assert (Hcut : readUint32 (mkReader (binary data) (offset data + 1)) = Throw RangeError)
      by (apply readUint32_cut_off; cbn [binary offset]; lia).
    destruct Hcode as [-> | ->]; cbn [Z.eqb Pos.eqb].
    + unfold readProperty_S. rewrite Hcut. reflexivity.
    + unfold readProperty_R. rewrite Hcut. reflexivity.
  - intros len data' Hc Hread. unfold readProperty, readUint8. rewrite Hc.
    cbn [Z.eqb Pos.eqb]. unfold readProperty_R. rewrite Hread. cbn [bind].
    assert (Hd : data' = mkReader (binary data) (offset data + 1 + 4)).
    { unfold readUint32 in Hread. cbn [binary offset] in Hread.
      destruct (slice _ _ 4) as [|b0 [|b1 [|b2 [|b3 [|]]]]]; try discriminate.
      injection Hread as _ <-. reflexivity. }
    subst data'. unfold readUint8Array. cbn [binary offset bind].
    eexists. split; [reflexivity|].
    unfold slice. rewrite length_firstn, length_skipn. reflexivity.
Qed.

(** *** Clips without a key time *)

Lemma sortedTimes_nil clip :
  sortedTimes clip = []
  <-> Forall (fun t => times t = []) (boneTracks clip)
      /\ Forall (fun t => ptimes t = []) (positionTracks clip).
Proof.
  unfold sortedTimes. set (allTimes := fold_left _ (positionTracks clip) _).
  assert (Hin : forall t, In t allTimes <->
            (exists track, In track (boneTracks clip) /\ In t (times track))
            \/ (exists track, In track (positionTracks clip) /\ In t (ptimes track))).
  { intros t. unfold allTimes. rewrite !allTimes_In. cbn. tauto. }
  assert (Hperm : Permutation allTimes (sort_numbers allTimes)) by apply Array_sort_perm.
  split.
  - intros E. rewrite E in Hperm. apply Permutation_sym, Permutation_nil in Hperm.
    assert (Hnone : forall t, ~ In t allTimes) by (rewrite Hperm; intros t []).
    split; apply Forall_forall; intros track Htr.
    + destruct (times track) as [|t l] eqn:Et; [reflexivity|]. exfalso.
      apply (Hnone t), Hin. left. exists track. rewrite Et. split; [assumption|left; reflexivity].
    + destruct (ptimes track) as [|t l] eqn:Et; [reflexivity|]. exfalso.
      apply (Hnone t), Hin. right. exists track. rewrite Et. split; [assumption|left; reflexivity].
  - intros [Hb Hp]. rewrite Forall_forall in Hb, Hp.
    destruct (sort_numbers allTimes) as [|t l] eqn:E; [reflexivity|]. exfalso.
    assert (Ht : In t allTimes)
      by (eapply Permutation_in; [symmetry; exact Hperm|left; reflexivity]).
    apply Hin in Ht as [(track & Htr & Ht)|(track & Htr & Ht)].
    + rewrite (Hb track Htr) in Ht. contradiction.
    + rewrite (Hp track Htr) in Ht. contradiction.
Qed.

(** X18.  [convertToVMD] returns the empty blob, without a header and with
    the empty type, exactly for the clips without a key time: it does so
    whenever every track has no times, even when the tracks are otherwise
    ill-formed; and for a clip with at least one track, each with a key and
    one value per key time, the blob has at least the 209 bytes of the
    header, the counts and the property keyframe. *)
Theorem empty_blob_exactly_without_key_times sjis float32 localeCompare normalize clip fps :
  (Forall (fun t => times t = []) (boneTracks clip)
   /\ Forall (fun t => ptimes t = []) (positionTracks clip) ->
   convertToVMD sjis float32 localeCompare normalize clip fps = Ret (mkBlob [] ""))
  /\ (wf_clip clip -> boneTracks clip <> [] \/ positionTracks clip <> [] ->
      exists blob,
        convertToVMD sjis float32 localeCompare normalize clip fps = Ret blob
        /\ (209 <= length (blob_bytes blob))%nat).
Proof.
  split.
  - intros H. apply sortedTimes_nil in H. unfold convertToVMD. rewrite H. reflexivity.
  - intros Hwf Hsome.
    assert (Hne : sortedTimes clip <> []).
    { intros E. apply sortedTimes_nil in E as [Hb Hp]. destruct Hwf as [Wb Wp].
      destruct Hsome as [Hs|Hs].
      - destruct (boneTracks clip) as [|track l]; [contradiction|].
        inversion Hb; subst. inversion Wb as [|? ? [W _] _]; subst. contradiction.
      - destruct (positionTracks clip) as [|track l]; [contradiction|].
        inversion Hp; subst. inversion Wp as [|? ? [W _] _]; subst. contradiction. }
    destruct (convertToVMD_defined sjis float32 localeCompare normalize clip fps Hwf)
      as (blob & Hb & H).
    exists blob. split; [assumption|].
    destruct (sortedTimes clip) as [|t ts]; [contradiction|].
    destruct H as (kfs & _ & Hd & ->). cbn [blob_bytes].
    rewrite (file_records_length sjis float32 kfs Hd). lia.
Qed.

(** *** The hemisphere of the quaternions *)

Lemma unrolled_map (g : Quat.t -> Quat.t) (c : R) qs :
  0 <= c -> (forall a b, Quat.dot (g a) (g b) = c * Quat.dot a b) ->
  unrolled qs -> unrolled (map g qs).
Proof.
  intros Hc Hg. induction qs as [|a qs IH]; intros Hu; [exact I|].
  destruct qs as [|b qs]; [exact I|].
  destruct Hu as [Hab Hu]. cbn [map unrolled] in *. split; [|apply IH, Hu].
  rewrite Hg. apply Rmult_le_pos; assumption.
Qed.

Lemma mapM_Ret_map {A B} (g : A -> B) xs : mapM (fun x => Ret (g x)) xs = Ret (map g xs).
Proof.
  induction xs as [|x xs IH]; [reflexivity|]. cbn [mapM bind map]. rewrite IH. reflexivity.
Qed.

(** The sandwich and the flip scale every dot product by the squared norms
    of the two factors. *)
Lemma sandwich_dot l r a b :
  Quat.dot (flipZW (Quat.multiply (Quat.multiply l a) r))
           (flipZW (Quat.multiply (Quat.multiply l b) r))
  = Quat.dot l l * Quat.dot r r * Quat.dot a b.
Proof.
  destruct l, r, a, b. unfold Quat.dot, flipZW, Quat.multiply.
  cbn [Quat.x Quat.y Quat.z Quat.w]. ring.
Qed.

(** X19.  Retargeting keeps a rotation track unrolled: when every
    quaternion of the source track has a non-negative dot product with the
    one before it, so has every quaternion of the track [retargetBoneTrack]
    returns, for mapped and unmapped bones alike (the product of the engine
    being the Hamilton product). *)
Theorem retargeting_keeps_the_track_unrolled track out :
  retargetBoneTrack track = Ret out ->
  unrolled (bt_quats track) -> unrolled (quats out).
Proof.
  unfold retargetBoneTrack. destruct (mapBoneName (bt_name track)) as [mixamoName mmdName].
  destruct (retargetQuats _ _) as [qs|] eqn:Eq; cbn [bind]; [|discriminate].
  destruct mmdName as [n|]; cbn [bind]; [|discriminate].
  intros [= <-] Hu. cbn [quats].
  unfold retargetQuats in Eq.
  destruct (Object_get RETARGET_TRANSFORMS mixamoName) as [transform| |].
  - change (fun q => Ret (Quat.new (Quat.x (Quat.multiply (Quat.multiply (q_l transform) q)
                                               (q_r transform)))
                            (Quat.y (Quat.multiply (Quat.multiply (q_l transform) q)
                                       (q_r transform)))
                            (- Quat.z (Quat.multiply (Quat.multiply (q_l transform) q)
                                         (q_r transform)))
                            (- Quat.w (Quat.multiply (Quat.multiply (q_l transform) q)
                                         (q_r transform)))))
      with (fun q => @Ret Quat.t
                       (flipZW (Quat.multiply (Quat.multiply (q_l transform) q)
                                  (q_r transform)))) in Eq.
    rewrite (mapM_Ret_map (fun q => flipZW (Quat.multiply (Quat.multiply (q_l transform) q)
                                              (q_r transform)))) in Eq.
    injection Eq as <-.
    apply unrolled_map
      with (c := Quat.dot (q_l transform) (q_l transform)
                 * Quat.dot (q_r transform) (q_r transform)); [| |assumption].
    + apply Rmult_le_pos; unfold Quat.dot; nra.
    + intros a b. apply sandwich_dot.
  - destruct (bt_quats track); [|discriminate]. injection Eq as <-. exact I.
  - change (fun q => Ret (Quat.new (Quat.x q) (Quat.y q) (- Quat.z q) (- Quat.w q)))
      with (fun q => @Ret Quat.t (flipZW q)) in Eq.
    rewrite (mapM_Ret_map flipZW) in Eq. injection Eq as <-.
    apply unrolled_map with (c := 1); [lra| |assumption].
    intros a b. destruct a, b. unfold Quat.dot, flipZW. cbn [Quat.x Quat.y Quat.z Quat.w].
    ring.
Qed.

(** X19 on the rotation track of the hips. *)
Lemma retargeting_unrolled_witness :
  unrolled
    (map (fun q => flipZW (Quat.multiply
                             (Quat.multiply (Quat.new 0.0065 0 0 0.99998) q)
                             (Quat.conjugate (Quat.clone (Quat.new 0.0065 0 0 0.99998)))))
       (bt_quats MoreSamples.hipsRotation)).
Proof.
  apply (retargeting_keeps_the_track_unrolled MoreSamples.hipsRotation
           (mkRetargetedBoneTrack "センター" "mixamorig:Hips" [0; 2]
              (map (fun q => flipZW (Quat.multiply
                                       (Quat.multiply (Quat.new 0.0065 0 0 0.99998) q)
                                       (Quat.conjugate
                                          (Quat.clone (Quat.new 0.0065 0 0 0.99998)))))
                 (bt_quats MoreSamples.hipsRotation)))).
  - reflexivity.
  - unfold MoreSamples.hipsRotation. cbn [bt_quats unrolled]. unfold Quat.dot.
    cbn [Quat.x Quat.y Quat.z Quat.w]. split; [lra|exact I].
Defined.

End EdgeFacts.

(** ** Which record is kept when key times fall on one frame *)

Module LatestKeyFacts.

Import JS Retarget VmdWriter VmdFormat VmdInvariants JSFacts KeyframeFacts CollectFacts
       OrderFacts Shapes Samples.
Local Open Scope js_scope.








Section Latest.

Variable normalize : Quat.t -> Quat.t.



End Latest.






End LatestKeyFacts.
